(** * SpendWise: ledger and settlement engine

    A shallow embedding of the services of the SpendWise client that carry
    the money logic: the split engine, the balance calculator and the
    settlement optimiser (group.service.ts), the recurrence planner
    (recurring.service.ts), the personal expense service
    (expense.service.ts), the undo log (undo.service.ts), the encryption
    service and its key (crypto.service.ts), and the helpers around them.

    Conventions of the embedding.
    - A JavaScript [number] is a finite number, held as an exact rational
      ([Qc]).  The theorems about amounts state which entries are written,
      how they compare with each other and with the 0.01 threshold, and
      identities of sums of the numbers as such; none of them fixes the
      digits a division or a rounding produces.
    - A [Date] is held by its civil fields in the local time of the
      device; the offset of the zone from UTC is a parameter
      ([TimeZone]), used where the code writes a date through
      [toISOString].
    - SQLite tables are lists of rows, newest row first; the Firestore
      collections read by the balance calculator are lists of documents.
    - [generateUUID()] reads the next element of a supply of identifiers
      carried by the world; [new Date()] is an explicit argument.
    - A thrown [Error] is the [Err] case of a result type. *)

From Stdlib Require Import ZArith QArith Qcanon Qround Lia Lqa Ascii.
From stdpp Require Import base option list strings gmap fin_maps sorting numbers pretty.
From coqutil Require Import Z.bitblast.

Set Default Proof Using "Type".
Local Open Scope Qc_scope.

(** ** JavaScript numbers

    Finite numbers, as exact rationals: there is no [NaN] and no
    [Infinity] here, and sums, quotients and roundings are exact where
    the host rounds to the nearest double. *)

Module Num.

Abbreviation number := Qc (only parsing).

(** A decimal literal [z / 100], e.g. [cents 1] is [0.01]. *)
Definition cents (z : Z) : number := Q2Qc (z # 100).

Definition ofZ (z : Z) : number := Q2Qc (inject_Z z).

Definition ltb (x y : number) : bool := bool_decide (x < y).
Definition gtb (x y : number) : bool := bool_decide (y < x).

(** [Math.abs] *)
Definition abs (x : number) : number := if ltb x 0 then - x else x.

(** [Math.min] *)
Definition min (x y : number) : number := if ltb y x then y else x.

(** [Math.round]: the nearest integer, halves rounded up, of the exact
    number. *)
Definition round (x : number) : number :=
  ofZ (Qfloor (x + Q2Qc (1 # 2))%Qc).

(** [Math.round(x * 100) / 100] *)
Definition round2 (x : number) : number := round (x * ofZ 100) / ofZ 100.

(** [v || 0] on a possibly missing number. *)
Definition orZero (o : option number) : number :=
  match o with
  | Some v => v
  | None => 0
  end.

Fixpoint sum (l : list number) : number :=
  match l with
  | [] => 0
  | x :: l' => x + sum l'
  end.

End Num.

(** ** Thrown errors *)

Inductive exn := JsError (message : string).

Inductive result (A : Type) :=
| Ok (a : A)
| Err (e : exn).
Arguments Ok {A} a.
Arguments Err {A} e.

Global Instance result_ret : MRet result := λ A a, Ok a.
Global Instance result_bind : MBind result := λ A B k r,
  match r with
  | Ok a => k a
  | Err e => Err e
  end.

Definition isOk {A} (r : result A) : bool :=
  match r with Ok _ => true | Err _ => false end.

(** ** Dates (date-fns over the host [Date])

    A [Date] is held by its civil fields in the local time of the device,
    which is what [parseISO] of a date without a time, [addDays],
    [addMonths] and [toDateString] work on; instants are compared through
    these fields, the offset of the zone being the same for all.  Only
    [toISOString] needs the zone. *)

Module DateFns.

Local Open Scope Z_scope.

(** A [Date] by its civil fields; [month] is 0-based as in JavaScript. *)
Record Date := mkDate {
  year : Z;
  month : Z;
  day : Z;
  msOfDay : Z
}.

Global Instance Date_eq_dec : EqDecision Date.
Proof. solve_decision. Defined.

Definition msPerDay : Z := 86400000.

Definition isLeapYear (y : Z) : bool :=
  ((y mod 4 =? 0) && negb (y mod 100 =? 0)) || (y mod 400 =? 0).

Definition daysInMonth (y m : Z) : Z :=
  if m =? 1 then (if isLeapYear y then 29 else 28)
  else if (m =? 3) || (m =? 5) || (m =? 8) || (m =? 10) then 30
  else 31.

Definition validDate (d : Date) : Prop :=
  (0 ≤ month d < 12 ∧ 1 ≤ day d ≤ daysInMonth (year d) (month d)
   ∧ 0 ≤ msOfDay d < msPerDay)%Z.

(** Position of the instant on the time line: civil fields compared
    lexicographically, which on valid dates is the order of [getTime()]. *)
Definition stamp (d : Date) : Z :=
  (((year d * 12 + month d) * 32 + day d) * msPerDay + msOfDay d)%Z.

(** [isBefore(a, b)]: [+a < +b]. *)
Definition isBefore (a b : Date) : bool := (stamp a <? stamp b)%Z.

(** [a.toDateString() === b.toDateString()] *)
Definition sameDateString (a b : Date) : bool :=
  (year a =? year b)%Z && (month a =? month b)%Z && (day a =? day b)%Z.

Definition nextDay (d : Date) : Date :=
  if (day d <? daysInMonth (year d) (month d))%Z
  then mkDate (year d) (month d) (day d + 1) (msOfDay d)
  else if (month d =? 11)%Z
       then mkDate (year d + 1) 0 1 (msOfDay d)
       else mkDate (year d) (month d + 1) 1 (msOfDay d).

Definition prevDay (d : Date) : Date :=
  if (1 <? day d)%Z
  then mkDate (year d) (month d) (day d - 1) (msOfDay d)
  else if (month d =? 0)%Z
       then mkDate (year d - 1) 11 31 (msOfDay d)
       else mkDate (year d) (month d - 1)
                   (daysInMonth (year d) (month d - 1)) (msOfDay d).

(** [addDays]: [date.setDate(date.getDate() + amount)]. *)
Definition addDays (d : Date) (amount : Z) : Date :=
  if (amount <? 0)%Z
  then Nat.iter (Z.to_nat (- amount)) prevDay d
  else Nat.iter (Z.to_nat amount) nextDay d.

(** [addWeeks(date, amount)] is [addDays(date, amount * 7)]. *)
Definition addWeeks (d : Date) (amount : Z) : Date := addDays d (amount * 7).

(** [addMonths]: same day of the target month, clamped to its last day;
    the time of day is kept. *)
Definition addMonths (d : Date) (amount : Z) : Date :=
  let mi := (year d * 12 + month d + amount)%Z in
  let y' := (mi / 12)%Z in
  let m' := (mi mod 12)%Z in
  let dim := daysInMonth y' m' in
  if (dim <=? day d)%Z
  then mkDate y' m' dim (msOfDay d)
  else mkDate y' m' (day d) (msOfDay d).

Definition pad2 (n : Z) : string :=
  if (n <? 10)%Z then "0" +:+ pretty n else pretty n.

Definition pad4 (n : Z) : string :=
  if (n <? 10)%Z then "000" +:+ pretty n
  else if (n <? 100)%Z then "00" +:+ pretty n
  else if (n <? 1000)%Z then "0" +:+ pretty n
  else pretty n.

(** The time zone of the device: the minutes by which its local time is
    ahead of UTC, taken as constant over the dates at hand. *)
Class TimeZone := utcOffset : Z.

(** The civil fields in UTC of a date given by its local civil fields. *)
Definition toUTC {tz : TimeZone} (d : Date) : Date :=
  let ms := msOfDay d - utcOffset * 60000 in
  let shifted := addDays d (ms / msPerDay) in
  mkDate (year shifted) (month shifted) (day shifted) (ms mod msPerDay).

(** The calendar date of civil fields, as [YYYY-MM-DD]. *)
Definition dateString (d : Date) : string :=
  pad4 (year d) +:+ "-" +:+ pad2 (month d + 1) +:+ "-" +:+ pad2 (day d).

(** [date.toISOString().split('T')[0]]: the calendar date in UTC. *)
Definition isoDate {tz : TimeZone} (d : Date) : string := dateString (toUTC d).

End DateFns.
Export DateFns.

(** ** Entities (types/index.ts) *)

Module Types.

Record Expense := mkExpense {
  id : string;
  amount : Qc;
  currencyCode : string;
  baseAmount : option Qc;
  category : string;
  description : option string;
  notes : option string;
  date : string;
  groupId : option string;
  paidByMemberId : option string;
  createdAt : Date;
  updatedAt : Date
}.

(** The argument of [createExpense] and [updateExpense]: an expense
    without [id], [createdAt] and [updatedAt].  The callers in
    recurring.service.ts and undo.service.ts pass [groupId] along. *)
Record ExpenseDraft := mkDraft {
  draft_amount : Qc;
  draft_currencyCode : string;
  draft_baseAmount : option Qc;
  draft_category : string;
  draft_description : option string;
  draft_notes : option string;
  draft_date : string;
  draft_groupId : option string;
  draft_paidByMemberId : option string
}.

Record GroupMember := mkMember {
  member_id : string;
  member_groupId : string;
  member_userId : string;
  member_name : string
}.

Record ExpenseSplit := mkSplit {
  split_id : string;
  split_expenseId : string;
  split_memberId : string;
  split_amount : Qc;
  split_percentage : option Qc;
  split_createdAt : Date
}.

Record Payment := mkPayment {
  payment_id : string;
  payment_groupId : string;
  fromMemberId : string;
  toMemberId : string;
  payment_amount : Qc;
  payment_currencyCode : string;
  payment_date : string;
  payment_createdAt : Date
}.

Inductive RecurringInterval :=
| daily
| weekly
| monthly
| custom
| unknownInterval (s : string).

Record RecurringExpense := mkRecurring {
  rec_id : string;
  rec_amount : Qc;
  rec_currencyCode : string;
  rec_category : string;
  rec_description : option string;
  interval : RecurringInterval;
  intervalValue : Z;
  startDate : Date;
  endDate : option Date;
  lastGenerated : option Date;
  rec_groupId : option string;
  rec_updatedAt : Date
}.

Inductive UndoType := undo_delete | undo_edit | undo_add.

Inductive EntityType := ent_expense | ent_group | ent_recurring | ent_tag.

(** [payload] is the [JSON.stringify]-ed expense; parsing it back gives
    the same fields. *)
Record UndoAction := mkUndo {
  undo_id : string;
  undo_type : UndoType;
  undo_entityType : EntityType;
  payload : Expense;
  timestamp : Date
}.

(** JavaScript truthiness of an optional string: [undefined], [null] and
    the empty string are falsy. *)
Definition truthy (o : option string) : bool :=
  match o with
  | Some s => negb (String.eqb s "")
  | None => false
  end.

(** [s || null] *)
Definition orNull (o : option string) : option string :=
  if truthy o then o else None.

End Types.
Export Types.

(** ** The local SQLite database (database/index.ts) *)

Module Database.

(** What the column [notes_encrypted] can hold, symbolically: a plaintext
    sealed under a key with a nonce, as the format of [encrypt] describes
    it, or other bytes. *)
Inductive ciphertext :=
| Sealed (key nonce plaintext : string)
| Malformed (bytes : string).

Record ExpenseRow := mkRow {
  row_id : string;
  row_amount : Qc;
  row_currency_code : string;
  row_category : string;
  row_description : option string;
  row_notes_encrypted : option ciphertext;
  row_date : string;
  row_group_id : option string;
  row_paid_by_member_id : option string;
  row_created_at : Date;
  row_updated_at : Date
}.

Record Tables := mkTables {
  expenses : list ExpenseRow;
  expense_splits : list ExpenseSplit;
  payments : list Payment;
  recurring_expenses : list RecurringExpense;
  undo_history : list UndoAction
}.

Definition emptyTables : Tables := mkTables [] [] [] [] [].

(** The state of the process and of the device it runs on. *)
Record World := mkWorld {
  db : option Tables;            (* [let db] of database/index.ts *)
  encryptionKey : option string; (* [let encryptionKey] of crypto.service.ts *)
  keychain : result (option string); (* the keychain entry, or its failure *)
  entropy : nat → string;        (* what the random generators return *)
  drawn : nat                    (* how many values were drawn so far *)
}.

Definition setTables (t : Tables) (w : World) : World :=
  mkWorld (Some t) (encryptionKey w) (keychain w) (entropy w) (drawn w).

Definition setKey (k : option string) (w : World) : World :=
  mkWorld (db w) k (keychain w) (entropy w) (drawn w).

Definition setKeychain (c : result (option string)) (w : World) : World :=
  mkWorld (db w) (encryptionKey w) c (entropy w) (drawn w).

(** One draw from the random supply ([generateUUID()],
    [sodium.randombytes_buf]). *)
Definition draw (w : World) : string * World :=
  (entropy w (drawn w),
   mkWorld (db w) (encryptionKey w) (keychain w) (entropy w) (S (drawn w))).

(** [getDatabase()] *)
Definition getDatabase (w : World) : result Tables :=
  match db w with
  | Some t => Ok t
  | None => Err (JsError "Database not initialized. Call initDatabase() first.")
  end.

(** *** The statements of database/queries.ts *)

(** Modelled from the spec: [QUERIES.DELETE_SPLITS_BY_EXPENSE] of
    database/queries.ts, which is not among the sources; splitting
    "replaces (does not merge with) any prior splits for the expense". *)
Definition DELETE_SPLITS_BY_EXPENSE (expenseId : string) (t : Tables) : Tables :=
  mkTables (expenses t)
           (filter (λ s, split_expenseId s ≠ expenseId) (expense_splits t))
           (payments t) (recurring_expenses t) (undo_history t).

(** Modelled from the spec: [QUERIES.INSERT_SPLIT] of database/queries.ts
    (not among the sources), one new ExpenseSplit row from the six bound
    parameters. *)
Definition INSERT_SPLIT (r : ExpenseSplit) (t : Tables) : Tables :=
  mkTables (expenses t) (r :: expense_splits t)
           (payments t) (recurring_expenses t) (undo_history t).

(** Modelled from the spec: [QUERIES.GET_SPLITS_BY_EXPENSE] of
    database/queries.ts (not among the sources), the splits of one
    expense. *)
Definition GET_SPLITS_BY_EXPENSE (expenseId : string) (t : Tables) : list ExpenseSplit :=
  filter (λ s, split_expenseId s = expenseId) (expense_splits t).

(** Modelled from the spec: [QUERIES.GET_PAYMENTS_BY_GROUP] of
    database/queries.ts (not among the sources), "every recorded Payment
    in the group". *)
Definition GET_PAYMENTS_BY_GROUP (g : string) (t : Tables) : list Payment :=
  filter (λ p, payment_groupId p = g) (payments t).

End Database.
Export Database.

(** ** The group service: splits, balances, settlement *)

Module GroupService.

(** The Firestore collections the balance calculator reads: the members
    of a group in [createdAt] order, its expenses, and the splits of an
    expense of the group. *)
Record Firestore := mkFirestore {
  fs_members : string → list GroupMember;
  fs_expenses : string → list Expense;
  fs_splits : string → string → list ExpenseSplit
}.

Definition getGroupMembers (fs : Firestore) (groupId : string) : list GroupMember :=
  fs_members fs groupId.

(** The rows written by the [for] loop of the three split functions:
    one [INSERT_SPLIT] per element, each with a fresh id. *)
Fixpoint insertSplits (expenseId : string) (now : Date)
    (rows : list (string * Qc * option Qc)) (w : World) (t : Tables)
    : World * Tables :=
  match rows with
  | [] => (w, t)
  | (memberId, amt, pct) :: rows' =>
      let '(id, w') := draw w in
      insertSplits expenseId now rows' w'
        (INSERT_SPLIT (mkSplit id expenseId memberId amt pct now) t)
  end.

(** [splitExpenseEqually] *)
Definition splitExpenseEqually (now : Date) (expenseId : string)
    (memberIds : list string) (totalAmount : Qc) (w : World) : result World :=
  t ← getDatabase w;
  let amountPerMember := totalAmount / Num.ofZ (Z.of_nat (length memberIds)) in
  let t := DELETE_SPLITS_BY_EXPENSE expenseId t in
  let '(w, t) :=
    insertSplits expenseId now
      (map (λ memberId, (memberId, amountPerMember, None)) memberIds) w t in
  Ok (setTables t w).

(** [splitExpenseByPercentage] *)
Definition splitExpenseByPercentage (now : Date) (expenseId : string)
    (splits : list (string * Qc)) (totalAmount : Qc) (w : World) : result World :=
  t ← getDatabase w;
  let t := DELETE_SPLITS_BY_EXPENSE expenseId t in
  let '(w, t) :=
    insertSplits expenseId now
      (map (λ split, (split.1, (totalAmount * split.2) / Num.ofZ 100, Some split.2))
           splits) w t in
  Ok (setTables t w).

(** [splitExpenseByAmount] *)
Definition splitExpenseByAmount (now : Date) (expenseId : string)
    (splits : list (string * Qc)) (w : World) : result World :=
  t ← getDatabase w;
  let t := DELETE_SPLITS_BY_EXPENSE expenseId t in
  let '(w, t) :=
    insertSplits expenseId now
      (map (λ split, (split.1, split.2, None)) splits) w t in
  Ok (setTables t w).

(** [getExpenseSplits], in insertion order. *)
Definition getExpenseSplits (expenseId : string) (w : World) : result (list ExpenseSplit) :=
  t ← getDatabase w;
  Ok (reverse (GET_SPLITS_BY_EXPENSE expenseId t)).

(** [getPaymentsByGroup] *)
Definition getPaymentsByGroup (groupId : string) (w : World) : result (list Payment) :=
  t ← getDatabase w;
  Ok (GET_PAYMENTS_BY_GROUP groupId t).

(** [balances[k] = (balances[k] || 0) + delta] *)
Definition bump (k : string) (delta : Qc) (balances : gmap string Qc) : gmap string Qc :=
  <[k := Num.orZero (balances !! k) + delta]> balances.

(** The body of the loop over the expenses. *)
Definition applyExpense (splitsOf : string → list ExpenseSplit)
    (balances : gmap string Qc) (expense : Expense) : gmap string Qc :=
  let balances :=
    match paidByMemberId expense with
    | Some payer =>
        if truthy (Some payer) && bool_decide (is_Some (balances !! payer))
        then bump payer (amount expense) balances
        else balances
    | None => balances
    end in
  foldl (λ b split, bump (split_memberId split) (- split_amount split) b)
        balances (splitsOf (id expense)).

(** The body of the loop over the payments. *)
Definition applyPayment (balances : gmap string Qc) (payment : Payment) : gmap string Qc :=
  bump (toMemberId payment) (payment_amount payment)
       (bump (fromMemberId payment) (- payment_amount payment) balances).

(** [calculateGroupBalances] *)
Definition calculateGroupBalances (fs : Firestore) (groupId : string) (w : World)
    : result (gmap string Qc) :=
  let members := getGroupMembers fs groupId in
  let balances : gmap string Qc :=
    foldl (λ b member, <[member_id member := 0]> b) ∅ members in
  let balances :=
    foldl (applyExpense (fs_splits fs groupId)) balances (fs_expenses fs groupId) in
  payments ← getPaymentsByGroup groupId w;
  Ok (foldl applyPayment balances payments).

(** An entry of the [creditors] and [debtors] arrays. *)
Record Party := mkParty {
  party_memberId : string;
  party_amount : Qc
}.

Record Suggestion := mkSuggestion {
  from : string;
  to : string;
  sug_amount : Qc
}.

Definition epsilon : Qc := Num.cents 1.

(** The [members.forEach] that fills [creditors]. *)
Definition creditorsOf (balances : gmap string Qc) (members : list GroupMember) : list Party :=
  omap (λ member,
          let balance := Num.orZero (balances !! member_id member) in
          if Num.gtb balance epsilon
          then Some (mkParty (member_id member) balance)
          else None) members.

(** The [members.forEach] that fills [debtors]. *)
Definition debtorsOf (balances : gmap string Qc) (members : list GroupMember) : list Party :=
  omap (λ member,
          let balance := Num.orZero (balances !! member_id member) in
          if Num.gtb balance epsilon then None
          else if Num.ltb balance (- epsilon)
               then Some (mkParty (member_id member) (Num.abs balance))
               else None) members.

(** [arr.sort((a, b) => b.amount - a.amount)]: the host's sort is stable,
    so an element moves behind exactly the later elements that exceed
    it, and equal amounts keep their order. *)
Fixpoint insertParty (x : Party) (l : list Party) : list Party :=
  match l with
  | [] => [x]
  | y :: l' =>
      if Num.ltb (party_amount x) (party_amount y)
      then y :: insertParty x l'
      else x :: y :: l'
  end.

Definition sortParties (l : list Party) : list Party :=
  foldr insertParty [] l.

(** The greedy [while] loop, on finite amounts; the heads of the two
    lists are [creditors[creditorIndex]] and [debtors[debtorIndex]].
    [None] when the fuel runs out before the loop exits. *)
Fixpoint settle (fuel : nat) (creditors debtors : list Party) : option (list Suggestion) :=
  match fuel with
  | O => None
  | S fuel' =>
      match creditors, debtors with
      | creditor :: creditors', debtor :: debtors' =>
          if Num.ltb (party_amount creditor) epsilon
             || Num.ltb (party_amount debtor) epsilon
          then Some []
          else
            let settlementAmount :=
              Num.min (party_amount creditor) (party_amount debtor) in
            let suggestion :=
              mkSuggestion (party_memberId debtor) (party_memberId creditor)
                           (Num.round2 settlementAmount) in
            let creditor' :=
              mkParty (party_memberId creditor)
                      (party_amount creditor - settlementAmount) in
            let debtor' :=
              mkParty (party_memberId debtor)
                      (party_amount debtor - settlementAmount) in
            let creditors'' :=
              if Num.ltb (party_amount creditor') epsilon
              then creditors' else creditor' :: creditors' in
            let debtors'' :=
              if Num.ltb (party_amount debtor') epsilon
              then debtors' else debtor' :: debtors' in
            rest ← settle fuel' creditors'' debtors'';
            Some (suggestion :: rest)
      | _, _ => Some []
      end
  end.

(** The part of [getSettlementSuggestions] after the two reads.  On
    finite amounts every round of the loop moves at least one index (the
    smaller amount less itself is 0), so the two lengths bound the number
    of rounds. *)
Definition suggest (balances : gmap string Qc)
    (members : list GroupMember) : option (list Suggestion) :=
  let creditors := sortParties (creditorsOf balances members) in
  let debtors := sortParties (debtorsOf balances members) in
  settle (S (length creditors + length debtors)) creditors debtors.

(** [getSettlementSuggestions] *)
Definition getSettlementSuggestions (fs : Firestore)
    (groupId : string) (w : World) : result (option (list Suggestion)) :=
  balances ← calculateGroupBalances fs groupId w;
  Ok (suggest balances (getGroupMembers fs groupId)).

(** What the spec calls applying a transfer to the balance map: the
    amount is subtracted from the from-member and added to the
    to-member, as [calculateGroupBalances] does for a payment. *)
Definition applyTransferAsStated (balances : gmap string Qc) (s : Suggestion)
    : gmap string Qc :=
  bump (to s) (sug_amount s) (bump (from s) (- sug_amount s) balances).

(** The opposite reading, used for comparison only: the from-member owes
    less and the to-member is owed less.  No function of the code changes
    balances this way. *)
Definition applyTransferAsPaid (balances : gmap string Qc) (s : Suggestion)
    : gmap string Qc :=
  bump (to s) (- sug_amount s) (bump (from s) (sug_amount s) balances).


(** What a member receives and sends under a list of suggestions. *)
Definition received (l : list Suggestion) (k : string) : Qc :=
  Num.sum (sug_amount <$> filter (λ s, to s = k) l).

Definition sent (l : list Suggestion) (k : string) : Qc :=
  Num.sum (sug_amount <$> filter (λ s, from s = k) l).

(** The order the sort establishes: amounts do not increase. *)
Definition descending (x y : Party) : Prop := party_amount y ≤ party_amount x.

(** The members with a non-zero balance. *)
Definition nonZeroMembers (balances : gmap string Qc) (members : list GroupMember)
    : list GroupMember :=
  filter (λ member, Num.orZero (balances !! member_id member) ≠ 0) members.

(** The split of the spec's Split Engine, in integer minor units: the
    quotient for everybody, and one more unit for each of the first
    [amount mod N] members. *)
Definition specEqualSplit (amountMinor : Z) (n : nat) : list Z :=
  let q := (amountMinor / Z.of_nat n)%Z in
  let r := Z.to_nat (amountMinor mod Z.of_nat n) in
  replicate r (q + 1)%Z ++ replicate (n - r) q.

End GroupService.
Export GroupService.

(** ** The encryption service (crypto.service.ts) *)

Module CryptoService.

(** [!encryptionKey]: no key, or an empty one. *)
Definition noKey (w : World) : bool := negb (truthy (encryptionKey w)).

(** [initEncryptionKey]: the key stored in the keychain, or a new one that
    is stored there; an error of the keychain is logged and thrown
    again. *)
Definition initEncryptionKey (w : World) : result World :=
  match keychain w with
  | Err e => Err e
  | Ok (Some password) => Ok (setKey (Some password) w)
  | Ok None =>
      let '(newKey, w) := draw w in
      Ok (setKey (Some newKey) (setKeychain (Ok (Some newKey)) w))
  end.

(** The two guards at the head of [encrypt] and [decrypt]. *)
Definition requireKey (w : World) : result (string * World) :=
  w ← (if noKey w then initEncryptionKey w else Ok w);
  match encryptionKey w with
  | Some key =>
      if noKey w then Err (JsError "Encryption key not available") else Ok (key, w)
  | None => Err (JsError "Encryption key not available")
  end.

(** [encrypt].  After the two guards everything happens inside [try]:
    the call [sodium.crypto_aead_xchacha20poly1305_ietf_encrypt(messageBytes,
    null, nonce, keyBytes)] gives four arguments to a function whose
    parameters are the message, the additional data, the secret nonce, the
    public nonce and the key.  The key bytes stand where the public nonce
    belongs and no key is given, so the library throws on every call, and
    the [catch] throws "Encryption failed".  No call returns a
    ciphertext. *)
Definition encrypt (plaintext : string) (w : World) : result (ciphertext * World) :=
  '(key, w) ← requireKey w;
  Err (JsError "Encryption failed").

(** [decrypt].  Again everything after the guards is inside [try]: a
    ciphertext that is not base64 or whose first byte is not 24 throws
    there, and for any other the call
    [sodium.crypto_aead_xchacha20poly1305_ietf_decrypt(ciphertextBytes,
    null, nonce, keyBytes)] gives four arguments to a function whose
    parameters are the secret nonce, the ciphertext, the additional data,
    the public nonce and the key, and throws.  None of these errors is a
    failed verification of the tag, so the [catch] throws its second
    message on every call. *)
Definition decrypt (c : ciphertext) (w : World) : result (string * World) :=
  '(key, w) ← requireKey w;
  Err (JsError "Decryption failed: Invalid ciphertext or corrupted data").

(** The key is in memory. *)
Definition keyReady (key : string) (w : World) : Prop :=
  encryptionKey w = Some key ∧ key ≠ "".

(** [lockEncryptionKey] *)
Definition lockEncryptionKey (w : World) : World := setKey None w.

(** [isEncryptionKeyAvailable] *)
Definition isEncryptionKeyAvailable (w : World) : bool :=
  match encryptionKey w with
  | Some _ => true
  | None => false
  end.

End CryptoService.
Export CryptoService.

(** ** The personal expense service (expense.service.ts) *)

Module ExpenseService.

Definition withExpenses (f : list ExpenseRow → list ExpenseRow) (t : Tables) : Tables :=
  mkTables (f (expenses t)) (expense_splits t) (payments t)
           (recurring_expenses t) (undo_history t).

(** Modelled from the spec: [QUERIES.INSERT_EXPENSE] of database/queries.ts,
    which is not among the sources: one new row of the expenses table
    from the eleven bound parameters, in the order [createExpense] binds
    them. *)
Definition INSERT_EXPENSE (r : ExpenseRow) (t : Tables) : Tables :=
  withExpenses (cons r) t.

(** Modelled from the spec: [QUERIES.UPDATE_EXPENSE] of database/queries.ts
    (not among the sources): the row with the id bound last takes the
    nine bound values; its [created_at] stays. *)
Definition UPDATE_EXPENSE (amount : Qc) (currency_code category : string)
    (description : option string) (notes_encrypted : option ciphertext)
    (date : string) (group_id paid_by_member_id : option string)
    (updated_at : Date) (id : string) (t : Tables) : Tables :=
  withExpenses
    (fmap (λ r, if String.eqb (row_id r) id
                then mkRow id amount currency_code category description
                           notes_encrypted date group_id paid_by_member_id
                           (row_created_at r) updated_at
                else r)) t.

(** Modelled from the spec: [QUERIES.DELETE_EXPENSE] of database/queries.ts
    (not among the sources): "delete the entity by id". *)
Definition DELETE_EXPENSE (id : string) (t : Tables) : Tables :=
  withExpenses (filter (λ r, row_id r ≠ id)) t.

(** Modelled from the spec: [QUERIES.GET_EXPENSE_BY_ID] of
    database/queries.ts (not among the sources): the rows with the id. *)
Definition GET_EXPENSE_BY_ID (id : string) (t : Tables) : list ExpenseRow :=
  filter (λ r, row_id r = id) (expenses t).

(** The optional fields of an update: [None] when the key is absent from
    the object, [Some v] when it is present, also with [v] undefined. *)
Record ExpenseUpdates := mkUpdates {
  upd_amount : option Qc;
  upd_currencyCode : option string;
  upd_baseAmount : option (option Qc);
  upd_category : option string;
  upd_description : option (option string);
  upd_notes : option (option string);
  upd_date : option string;
  upd_groupId : option (option string);
  upd_paidByMemberId : option (option string)
}.

(** [expense.notes ? await encrypt(expense.notes) : null] *)
Definition encryptNotes (notes : option string) (w : World)
    : result (option ciphertext * World) :=
  match notes with
  | Some n =>
      if truthy notes
      then '(c, w) ← encrypt n w; Ok (Some c, w)
      else Ok (None, w)
  | None => Ok (None, w)
  end.

(** [row.notes_encrypted ? await decrypt(row.notes_encrypted) : undefined] *)
Definition decryptNotes (c : option ciphertext) (w : World)
    : result (option string * World) :=
  match c with
  | Some c => '(n, w) ← decrypt c w; Ok (Some n, w)
  | None => Ok (None, w)
  end.

(** A row whose notes, if any, were sealed under the key. *)
Definition readable (key : string) (r : ExpenseRow) : Prop :=
  match row_notes_encrypted r with
  | None => True
  | Some (Sealed k _ _) => k = key
  | Some (Malformed _) => False
  end.

(** The expense [getExpenseById] builds from a row that has no stored
    notes. *)
Definition expenseOfRow (row : ExpenseRow) : Expense :=
  mkExpense (row_id row) (row_amount row) (row_currency_code row) None
            (row_category row) (row_description row) None (row_date row)
            (row_group_id row) (row_paid_by_member_id row)
            (row_created_at row) (row_updated_at row).

(** The row that holds the fields of an expense [x], with the given
    ciphertext and timestamps. *)
Definition rowOfFields (id0 : string) (x : Expense) (c : option ciphertext)
    (created_at updated_at : Date) : ExpenseRow :=
  mkRow id0 (amount x) (currencyCode x) (category x) (orNull (description x)) c
        (date x) None None created_at updated_at.

(** [createExpense] *)
Definition createExpense (now : Date) (expense : ExpenseDraft) (w : World)
    : result (Expense * World) :=
  _ ← getDatabase w;
  let '(id, w) := draw w in
  '(notesEncrypted, w) ← encryptNotes (draft_notes expense) w;
  t ← getDatabase w;
  let t :=
    INSERT_EXPENSE
      (mkRow id (draft_amount expense) (draft_currencyCode expense)
             (draft_category expense) (orNull (draft_description expense))
             notesEncrypted (draft_date expense)
             None (* groupId - always null for personal expenses *)
             None (* paidByMemberId - always null for personal expenses *)
             now now) t in
  Ok (mkExpense id (draft_amount expense) (draft_currencyCode expense)
                (draft_baseAmount expense) (draft_category expense)
                (draft_description expense) (draft_notes expense)
                (draft_date expense) (draft_groupId expense)
                (draft_paidByMemberId expense) now now,
      setTables t w).

(** [getExpenseById] *)
Definition getExpenseById (id : string) (w : World) : result (option Expense * World) :=
  t ← getDatabase w;
  match GET_EXPENSE_BY_ID id t with
  | row :: _ =>
      '(notes, w) ← decryptNotes (row_notes_encrypted row) w;
      Ok (Some (mkExpense (row_id row) (row_amount row) (row_currency_code row) None
                          (row_category row) (row_description row) notes (row_date row)
                          (row_group_id row) (row_paid_by_member_id row)
                          (row_created_at row) (row_updated_at row)), w)
  | [] => Ok (None, w)
  end.

(** [{ ...existing, ...updates, updatedAt }] *)
Definition mergeUpdates (existing : Expense) (updates : ExpenseUpdates) (now : Date) : Expense :=
  mkExpense (id existing)
            (default (amount existing) (upd_amount updates))
            (default (currencyCode existing) (upd_currencyCode updates))
            (default (baseAmount existing) (upd_baseAmount updates))
            (default (category existing) (upd_category updates))
            (default (description existing) (upd_description updates))
            (default (notes existing) (upd_notes updates))
            (default (date existing) (upd_date updates))
            (default (groupId existing) (upd_groupId updates))
            (default (paidByMemberId existing) (upd_paidByMemberId updates))
            (createdAt existing) now.

(** [updateExpense] *)
Definition updateExpense (now : Date) (id : string) (updates : ExpenseUpdates)
    (w : World) : result (Expense * World) :=
  _ ← getDatabase w;
  '(existing, w) ← getExpenseById id w;
  match existing with
  | None => Err (JsError "Expense not found")
  | Some existing =>
      let updated := mergeUpdates existing updates now in
      '(notesEncrypted, w) ← encryptNotes (notes updated) w;
      t ← getDatabase w;
      let t :=
        UPDATE_EXPENSE (amount updated) (currencyCode updated) (category updated)
                       (orNull (description updated)) notesEncrypted (date updated)
                       None (* groupId - always null for personal expenses *)
                       None (* paidByMemberId - always null for personal expenses *)
                       (updatedAt updated) id t in
      Ok (updated, setTables t w)
  end.

(** [deleteExpense] *)
Definition deleteExpense (id : string) (w : World) : result World :=
  t ← getDatabase w;
  Ok (setTables (DELETE_EXPENSE id t) w).

End ExpenseService.
Export ExpenseService.

(** ** The undo service (undo.service.ts) *)

Module UndoService.

Definition withUndo (f : list UndoAction → list UndoAction) (t : Tables) : Tables :=
  mkTables (expenses t) (expense_splits t) (payments t)
           (recurring_expenses t) (f (undo_history t)).

(** Modelled from the spec: [QUERIES.INSERT_UNDO_ACTION] of
    database/queries.ts, which is not among the sources: "appends an
    entry". *)
Definition INSERT_UNDO_ACTION (a : UndoAction) (t : Tables) : Tables :=
  withUndo (cons a) t.

(** Modelled from the spec: [QUERIES.CLEAR_OLD_UNDO_HISTORY] of
    database/queries.ts (not among the sources): "prunes entries older
    than a fixed retention window", here older than the bound cutoff. *)
Definition CLEAR_OLD_UNDO_HISTORY (cutoff : Date) (t : Tables) : Tables :=
  withUndo (filter (λ a, isBefore (timestamp a) cutoff = false)) t.

(** Modelled from the spec: [QUERIES.GET_UNDO_HISTORY] of
    database/queries.ts (not among the sources): the most recent entries,
    at most the bound limit. *)
Definition GET_UNDO_HISTORY (limit : nat) (t : Tables) : list UndoAction :=
  take limit (undo_history t).

(** Modelled from the spec: [QUERIES.DELETE_UNDO_ACTION] of
    database/queries.ts (not among the sources): the consumed entry is
    removed. *)
Definition DELETE_UNDO_ACTION (id : string) (t : Tables) : Tables :=
  withUndo (filter (λ a, undo_id a ≠ id)) t.

(** [saveUndoAction] *)
Definition saveUndoAction (now : Date) (type : UndoType) (entityType : EntityType)
    (payload : Expense) (w : World) : result World :=
  t ← getDatabase w;
  let '(id, w) := draw w in
  let t := INSERT_UNDO_ACTION (mkUndo id type entityType payload now) t in
  let cutoffDate := addDays now (-7) in
  Ok (setTables (CLEAR_OLD_UNDO_HISTORY cutoffDate t) w).

(** [getUndoHistory] *)
Definition getUndoHistory (limit : nat) (w : World) : result (list UndoAction) :=
  t ← getDatabase w;
  Ok (GET_UNDO_HISTORY limit t).

(** The object literal [undoExpenseAction] builds from the payload. *)
Definition draftOfPayload (expense : Expense) : ExpenseDraft :=
  mkDraft (amount expense) (currencyCode expense) (baseAmount expense)
          (category expense) (description expense) (notes expense)
          (date expense) (groupId expense) None.

Definition updatesOfPayload (expense : Expense) : ExpenseUpdates :=
  mkUpdates (Some (amount expense)) (Some (currencyCode expense))
            (Some (baseAmount expense)) (Some (category expense))
            (Some (description expense)) (Some (notes expense))
            (Some (date expense)) (Some (groupId expense)) None.

(** [undoExpenseAction] *)
Definition undoExpenseAction (now : Date) (action : UndoAction) (w : World) : result World :=
  let expense := payload action in
  match undo_type action with
  | undo_delete =>
      '(_, w) ← createExpense now (draftOfPayload expense) w; Ok w
  | undo_edit =>
      '(_, w) ← updateExpense now (id expense) (updatesOfPayload expense) w; Ok w
  | undo_add =>
      deleteExpense (id expense) w
  end.

(** [undoLastAction]: [false] when there is nothing to undo, when the
    entity is not an expense, and when the inverse operation throws (the
    entry then stays in the log). *)
Definition undoLastAction (now : Date) (w : World) : result (bool * World) :=
  history ← getUndoHistory 1 w;
  match history with
  | [] => Ok (false, w)
  | action :: _ =>
      match undo_entityType action with
      | ent_expense =>
          match undoExpenseAction now action w with
          | Ok w' =>
              match getDatabase w' with
              | Ok t => Ok (true, setTables (DELETE_UNDO_ACTION (undo_id action) t) w')
              | Err _ => Ok (false, w')
              end
          | Err _ => Ok (false, w)
          end
      | _ => Ok (false, w)
      end
  end.

End UndoService.
Export UndoService.

(** ** The expense store (store/expenseStore.ts) *)

Module ExpenseStore.

(** The process with the store's in-memory [expenses] array. *)
Record App := mkApp {
  world : World;
  store_expenses : list Expense
}.

Definition find (id0 : string) (l : list Expense) : option Expense :=
  head (filter (λ e, id e = id0) l).

(** [addExpense] *)
Definition addExpense (now : Date) (expense : ExpenseDraft) (a : App) : result (Expense * App) :=
  '(newExpense, w) ← createExpense now expense (world a);
  let expenses := newExpense :: store_expenses a in
  w ← saveUndoAction now undo_add ent_expense newExpense w;
  Ok (newExpense, mkApp w expenses).

(** [updateExpense] of the store: an error of the service is recorded in
    the store and not thrown again. *)
Definition storeUpdateExpense (now : Date) (id0 : string) (updates : ExpenseUpdates)
    (a : App) : App :=
  let saved :=
    match find id0 (store_expenses a) with
    | Some existing => saveUndoAction now undo_edit ent_expense existing (world a)
    | None => Ok (world a)
    end in
  match saved with
  | Err _ => a
  | Ok w =>
      match ExpenseService.updateExpense now id0 updates w with
      | Ok (updated, w) =>
          mkApp w ((λ e, if String.eqb (id e) id0 then updated else e)
                     <$> store_expenses a)
      | Err _ => mkApp w (store_expenses a)
      end
  end.

(** [deleteExpense] of the store. *)
Definition storeDeleteExpense (now : Date) (id0 : string) (a : App) : App :=
  let saved :=
    match find id0 (store_expenses a) with
    | Some existing => saveUndoAction now undo_delete ent_expense existing (world a)
    | None => Ok (world a)
    end in
  match saved with
  | Err _ => a
  | Ok w =>
      match ExpenseService.deleteExpense id0 w with
      | Ok w => mkApp w (filter (λ e, id e ≠ id0) (store_expenses a))
      | Err _ => mkApp w (store_expenses a)
      end
  end.

End ExpenseStore.
Export ExpenseStore.

(** ** The recurrence planner (recurring.service.ts) *)

Module RecurringService.

(** Modelled from the spec: [QUERIES.GET_ALL_RECURRING] of
    database/queries.ts, which is not among the sources: every recurring
    rule. *)
Definition GET_ALL_RECURRING (t : Tables) : list RecurringExpense :=
  recurring_expenses t.

(** Modelled from the spec: [QUERIES.UPDATE_RECURRING] of
    database/queries.ts (not among the sources): the rule with the id
    bound last takes the eleven bound values. *)
Definition UPDATE_RECURRING (amount : Qc) (currency_code category : string)
    (description : option string) (interval : RecurringInterval) (interval_value : Z)
    (start_date : Date) (end_date last_generated : option Date)
    (group_id : option string) (updated_at : Date) (id : string) (t : Tables) : Tables :=
  mkTables (expenses t) (expense_splits t) (payments t)
    ((λ r, if String.eqb (rec_id r) id
           then mkRecurring id amount currency_code category description
                            interval interval_value start_date end_date
                            last_generated group_id updated_at
           else r) <$> recurring_expenses t)
    (undo_history t).

(** [getAllRecurringExpenses] *)
Definition getAllRecurringExpenses (w : World) : result (list RecurringExpense) :=
  t ← getDatabase w;
  Ok (GET_ALL_RECURRING t).

(** [getNextDate] *)
Definition getNextDate (date : Date) (interval : RecurringInterval) (value : Z) : Date :=
  match interval with
  | daily => addDays date value
  | weekly => addWeeks date value
  | monthly => addMonths date value
  | custom => addDays date value
  | unknownInterval _ => addDays date 1
  end.

(** [endDate && isBefore(endDate, d)] *)
Definition endsBefore (pattern : RecurringExpense) (d : Date) : bool :=
  match endDate pattern with
  | Some e => isBefore e d
  | None => false
  end.

(** The condition of the [while] loop. *)
Definition reached (now currentDate : Date) : bool :=
  isBefore currentDate now || sameDateString currentDate now.

Section zone.

Context {tz : TimeZone}.

(** The expense built in the loop for an occurrence. *)
Definition occurrenceExpense (pattern : RecurringExpense) (currentDate : Date) : ExpenseDraft :=
  mkDraft (rec_amount pattern) (rec_currencyCode pattern) None (rec_category pattern)
          (rec_description pattern) None (isoDate currentDate) (rec_groupId pattern) None.

(** One round of the loop: the expense is created, then the rule's
    [last_generated] is written. *)
Definition materialize (now : Date) (pattern : RecurringExpense) (currentDate : Date)
    (w : World) : result World :=
  '(_, w) ← createExpense now (occurrenceExpense pattern currentDate) w;
  t ← getDatabase w;
  Ok (setTables
        (UPDATE_RECURRING (rec_amount pattern) (rec_currencyCode pattern)
           (rec_category pattern) (orNull (rec_description pattern))
           (interval pattern) (intervalValue pattern) (startDate pattern)
           (endDate pattern) (Some currentDate) (orNull (rec_groupId pattern))
           now (rec_id pattern) t) w).

(** The [while] loop of one rule.  [None] when the fuel runs out before
    the loop exits. *)
Fixpoint generateLoop (fuel : nat) (now : Date) (pattern : RecurringExpense)
    (currentDate : Date) (generated : list ExpenseDraft) (w : World)
    : option (result (list ExpenseDraft * World)) :=
  match fuel with
  | O => None
  | S fuel' =>
      if reached now currentDate
      then if endsBefore pattern currentDate
           then Some (Ok (generated, w))
           else match materialize now pattern currentDate w with
                | Err e => Some (Err e)
                | Ok w =>
                    generateLoop fuel' now pattern
                      (getNextDate currentDate (interval pattern) (intervalValue pattern))
                      (generated ++ [occurrenceExpense pattern currentDate]) w
                end
      else Some (Ok (generated, w))
  end.

(** The body of the [for] loop over the rules. *)
Definition generateForPattern (fuel : nat) (now : Date) (pattern : RecurringExpense)
    (generated : list ExpenseDraft) (w : World)
    : option (result (list ExpenseDraft * World)) :=
  if endsBefore pattern now
  then Some (Ok (generated, w))
  else
    let lastGenerated := default (startDate pattern) (lastGenerated pattern) in
    generateLoop fuel now pattern
      (getNextDate lastGenerated (interval pattern) (intervalValue pattern))
      generated w.

Fixpoint generateAll (fuel : nat) (now : Date) (recurring : list RecurringExpense)
    (generated : list ExpenseDraft) (w : World)
    : option (result (list ExpenseDraft * World)) :=
  match recurring with
  | [] => Some (Ok (generated, w))
  | pattern :: recurring' =>
      match generateForPattern fuel now pattern generated w with
      | Some (Ok (generated, w)) => generateAll fuel now recurring' generated w
      | other => other
      end
  end.

(** [generateRecurringExpenses]; [fuel] bounds the rounds of each rule's
    loop. *)
Definition generateRecurringExpenses (fuel : nat) (now : Date) (w : World)
    : option (result (list ExpenseDraft * World)) :=
  match getAllRecurringExpenses w with
  | Err e => Some (Err e)
  | Ok recurring => generateAll fuel now recurring [] w
  end.

(** The step from one occurrence of a rule to the next. *)
Definition nextOccurrence (pattern : RecurringExpense) (d : Date) : Date :=
  getNextDate d (interval pattern) (intervalValue pattern).

(** The [k]-th occurrence the planner computes for a rule: [k] steps of
    [getNextDate] from [lastGenerated], or from the start date. *)
Definition occurrence (pattern : RecurringExpense) (k : nat) : Date :=
  Nat.iter k (nextOccurrence pattern)
           (default (startDate pattern) (lastGenerated pattern)).

(** An occurrence the loop materialises when it gets to it. *)
Definition due (now : Date) (pattern : RecurringExpense) (d : Date) : Prop :=
  reached now d = true ∧ endsBefore pattern d = false.

(** The rule as [UPDATE_RECURRING] leaves it after the occurrence [d]. *)
Definition advanced (now : Date) (pattern : RecurringExpense) (d : Date) : RecurringExpense :=
  mkRecurring (rec_id pattern) (rec_amount pattern) (rec_currencyCode pattern)
              (rec_category pattern) (orNull (rec_description pattern))
              (interval pattern) (intervalValue pattern) (startDate pattern)
              (endDate pattern) (Some d) (orNull (rec_groupId pattern)) now.

(** The dates of the expenses a run generated. *)
Definition datesOf (l : list ExpenseDraft) : list string := draft_date <$> l.

(** What [createExpense] stores of a generated expense, besides the fresh
    id and the timestamps. *)
Definition persistedFields (e : ExpenseDraft) : Qc * string * string * option string * string :=
  (draft_amount e, draft_currencyCode e, draft_category e,
   orNull (draft_description e), draft_date e).

(** The row [createExpense] inserts for an occurrence. *)
Definition occurrenceRow (now : Date) (id : string) (pattern : RecurringExpense)
    (d : Date) : ExpenseRow :=
  mkRow id (rec_amount pattern) (rec_currencyCode pattern) (rec_category pattern)
        (orNull (rec_description pattern)) None (isoDate d) None None now now.

(** The tables after one round of the loop. *)
Definition tablesAfter (now : Date) (id : string) (pattern : RecurringExpense)
    (d : Date) (t : Tables) : Tables :=
  UPDATE_RECURRING (rec_amount pattern) (rec_currencyCode pattern)
    (rec_category pattern) (orNull (rec_description pattern))
    (interval pattern) (intervalValue pattern) (startDate pattern)
    (endDate pattern) (Some d) (orNull (rec_groupId pattern))
    now (rec_id pattern) (INSERT_EXPENSE (occurrenceRow now id pattern d) t).

(** The world after one round of the loop on an initialised database. *)
Definition worldAfter (now : Date) (pattern : RecurringExpense) (w : World) (d : Date) : World :=
  mkWorld (tablesAfter now (entropy w (drawn w)) pattern d <$> db w)
          (encryptionKey w) (keychain w) (entropy w) (S (drawn w)).

(** The effect of [UPDATE_RECURRING] in the loop on a row of the table. *)
Definition advanceRule (now : Date) (pattern : RecurringExpense) (d : Date)
    (r : RecurringExpense) : RecurringExpense :=
  if String.eqb (rec_id r) (rec_id pattern) then advanced now pattern d else r.

(** A rule on which a run at [now] has nothing to do: it has ended, or its
    next occurrence is not due. *)
Definition quiet (now : Date) (pattern : RecurringExpense) : Prop :=
  endsBefore pattern now = true ∨ ¬ due now pattern (occurrence pattern 1).

(** The first [n] occurrences after [cur], [cur] included. *)
Definition occurrencesFrom (pattern : RecurringExpense) (cur : Date) (n : nat) : list Date :=
  (λ j, Nat.iter j (nextOccurrence pattern) cur) <$> seq 0 n.

End zone.

End RecurringService.
Export RecurringService.

(** ** Settle-up payments (group.service.ts) *)

Module GroupPayments.

Definition withPayments (f : list Payment → list Payment) (t : Tables) : Tables :=
  mkTables (expenses t) (expense_splits t) (f (payments t))
           (recurring_expenses t) (undo_history t).

(** Modelled from the spec: [QUERIES.INSERT_PAYMENT] of database/queries.ts,
    which is not among the sources: one new Payment row ("identifier,
    group id, payer member id, payee member id, amount, currency, date,
    optional note") from the nine bound parameters.  The note is no field
    of [Payment] here: nothing that reads payments looks at it. *)
Definition INSERT_PAYMENT (p : Payment) (t : Tables) : Tables :=
  withPayments (cons p) t.

(** Modelled from the spec: [QUERIES.DELETE_PAYMENT] of database/queries.ts
    (not among the sources): the payment with the id is deleted. *)
Definition DELETE_PAYMENT (paymentId : string) (t : Tables) : Tables :=
  withPayments (filter (λ p, payment_id p ≠ paymentId)) t.

(** [recordPayment] *)
Definition recordPayment (now : Date) (groupId fromMember toMember : string)
    (amount : Qc) (currencyCode date : string) (notes : option string) (w : World)
    : result (Payment * World) :=
  t ← getDatabase w;
  let '(id, w) := draw w in
  let payment := mkPayment id groupId fromMember toMember amount currencyCode date now in
  Ok (payment, setTables (INSERT_PAYMENT payment t) w).

(** [deletePayment] *)
Definition deletePayment (paymentId : string) (w : World) : result World :=
  t ← getDatabase w;
  Ok (setTables (DELETE_PAYMENT paymentId t) w).

(** What a member paid for the expenses of a list. *)
Definition paidBy (es : list Expense) (k : string) : Qc :=
  Num.sum (Types.amount <$> filter (λ e, paidByMemberId e = Some k) es).

(** What a member owes under the splits of the expenses of a list. *)
Definition owedBy (splitsOf : string → list ExpenseSplit) (es : list Expense)
    (k : string) : Qc :=
  Num.sum ((λ e, Num.sum (split_amount
                            <$> filter (λ s, split_memberId s = k) (splitsOf (id e))))
             <$> es).

(** What a member sent and received in the payments of a list. *)
Definition paymentsFrom (ps : list Payment) (k : string) : Qc :=
  Num.sum (payment_amount <$> filter (λ p, fromMemberId p = k) ps).

Definition paymentsTo (ps : list Payment) (k : string) : Qc :=
  Num.sum (payment_amount <$> filter (λ p, toMemberId p = k) ps).

End GroupPayments.
Export GroupPayments.

(** ** Key and encoding helpers (utils/crypto-utils.ts) *)

Module CryptoUtils.

Local Open Scope Z_scope.

(** Strings are sequences of code units; the embedding has the code
    units below 256. *)
Definition charCode (c : Ascii.ascii) : Z := Z.of_N (Ascii.N_of_ascii c).

(** [String.fromCharCode(n)] for [0 ≤ n < 256]. *)
Definition fromCharCode (n : Z) : Ascii.ascii := Ascii.ascii_of_N (Z.to_N n).

(** [s.charAt(k)]: the empty string outside the string. *)
Definition charAt (s : string) (k : Z) : string :=
  if k <? 0 then ""
  else match String.get (Z.to_nat k) s with
       | Some c => String c ""
       | None => ""
       end.

(** A number that is an integer, or [NaN] ([None]). *)
Definition toInt32 (x : option Z) : Z :=
  match x with
  | Some z => (z + 2 ^ 31) mod 2 ^ 32 - 2 ^ 31
  | None => 0
  end.

(** [x << n], [x | y], [x >> n] and [x & y] on 32-bit integers. *)
Definition shl (x : option Z) (n : Z) : Z :=
  toInt32 (Some (Z.shiftl (toInt32 x) n)).
Definition bor (x y : Z) : Z := Z.lor x y.
Definition sar (x n : Z) : Z := Z.shiftr x n.
Definition band (x y : Z) : Z := Z.land x y.

(** *** [parseInt(s, 16)] *)

(** White space and line terminators among the code units below 256. *)
Definition isWhiteSpace (c : Ascii.ascii) : bool :=
  let n := charCode c in
  ((9 <=? n) && (n <=? 13)) || (n =? 32) || (n =? 160).

Fixpoint trimStart (s : string) : string :=
  match s with
  | String c s' => if isWhiteSpace c then trimStart s' else s
  | EmptyString => EmptyString
  end.

Definition hexDigitValue (c : Ascii.ascii) : option Z :=
  let n := charCode c in
  if (48 <=? n) && (n <=? 57) then Some (n - 48)
  else if (97 <=? n) && (n <=? 102) then Some (n - 87)
  else if (65 <=? n) && (n <=? 70) then Some (n - 55)
  else None.

(** The value of the longest prefix of hexadecimal digits; [acc] is the
    value of the digits read so far, [None] when there is none yet. *)
Fixpoint hexPrefix (s : string) (acc : option Z) : option Z :=
  match s with
  | String c s' =>
      match hexDigitValue c with
      | Some v => hexPrefix s' (Some (default 0 acc * 16 + v))
      | None => acc
      end
  | EmptyString => acc
  end.

Definition stripSign (s : string) : Z * string :=
  match s with
  | String c s' =>
      if charCode c =? 45 then (-1, s')
      else if charCode c =? 43 then (1, s')
      else (1, s)
  | EmptyString => (1, s)
  end.

(** The prefix [0x] or [0X], dropped for radix 16. *)
Definition stripPrefix (s : string) : string :=
  match s with
  | String c0 (String c1 s') =>
      if (charCode c0 =? 48) && ((charCode c1 =? 120) || (charCode c1 =? 88))
      then s' else s
  | _ => s
  end.

(** [parseInt(s, 16)], exact on the two-character strings it is applied
    to; [None] is [NaN]. *)
Definition parseInt16 (s : string) : option Z :=
  let '(sign, s) := stripSign (trimStart s) in
  (λ v, sign * v) <$> hexPrefix (stripPrefix s) None.

(** *** [n.toString(16).padStart(2, '0')] *)

Definition hexDigits : string := "0123456789abcdef".

(** [n.toString(16)] for the integers [0 ≤ n < 256]. *)
Definition toString16 (n : Z) : string :=
  if n <? 16 then charAt hexDigits n
  else charAt hexDigits (n / 16) +:+ charAt hexDigits (n mod 16).

Definition padStart2 (s : string) : string :=
  match s with
  | EmptyString => "00"
  | String _ EmptyString => "0" +:+ s
  | _ => s
  end.

(** [bytes.map(b => b.toString(16).padStart(2, '0')).join('')] *)
Definition hexOfBytes (bytes : list Z) : string :=
  String.concat "" ((λ b, padStart2 (toString16 b)) <$> bytes).

(** *** [generateSecureKey] and [generateIV] *)

(** [Math.floor(Math.random() * 256)] for the value [r] that
    [Math.random()] returned. *)
Definition randomByte (r : Qc) : Z := Qfloor (r * Num.ofZ 256)%Qc.

(** [random i] is what the [i]-th call of [Math.random()] returns. *)
Definition generateSecureKey (random : nat → Qc) : string :=
  hexOfBytes ((λ i, randomByte (random i)) <$> seq 0 32).

Definition generateIV (random : nat → Qc) : string :=
  hexOfBytes ((λ i, randomByte (random i)) <$> seq 0 12).

(** *** [hexToBase64] *)

(** The strings [hex.substring(i, i + 2)] for [i = 0, 2, 4, ...]. *)
Fixpoint chunk2 (s : string) : list string :=
  match s with
  | EmptyString => []
  | String a EmptyString => [String a EmptyString]
  | String a (String b s') => String a (String b EmptyString) :: chunk2 s'
  end.

Definition base64Chars : string :=
  "ABCDEFGHIJKLMNOPQRSTUVWXYZabcdefghijklmnopqrstuvwxyz0123456789+/".

(** The four characters one round of the [while] loop appends; [len] is
    [bytes.length] and [i] the index after the reads of the round. *)
Definition encodeGroup (len i : Z) (a b c : option Z) : string :=
  let bitmap := bor (bor (shl a 16) (shl b 8)) (toInt32 c) in
  charAt base64Chars (band (sar bitmap 18) 63)
  +:+ charAt base64Chars (band (sar bitmap 12) 63)
  +:+ (if i - 2 <? len then charAt base64Chars (band (sar bitmap 6) 63) else "=")
  +:+ (if i - 1 <? len then charAt base64Chars (band bitmap 63) else "=").

(** The [while] loop from index [i] on; the list holds [bytes[i]],
    [bytes[i + 1]], ...  A byte that is missing at the end is read as 0
    and the index does not move. *)
Fixpoint encodeFrom (len i : Z) (bytes : list (option Z)) : string :=
  match bytes with
  | [] => ""
  | [a] => encodeGroup len (i + 1) a (Some 0) (Some 0)
  | [a; b] => encodeGroup len (i + 2) a b (Some 0)
  | a :: b :: c :: rest =>
      encodeGroup len (i + 3) a b c +:+ encodeFrom len (i + 3) rest
  end.

(** [hexToBase64] *)
Definition hexToBase64 (hex : string) : string :=
  let bytes := parseInt16 <$> chunk2 hex in
  encodeFrom (Z.of_nat (length bytes)) 0 bytes.

(** *** [base64ToHex] *)

(** The complement of the class [[^A-Za-z0-9+/]]. *)
Definition inAlphabet (c : Ascii.ascii) : bool :=
  let n := charCode c in
  ((65 <=? n) && (n <=? 90)) || ((97 <=? n) && (n <=? 122))
  || ((48 <=? n) && (n <=? 57)) || (n =? 43) || (n =? 47).

(** [base64.replace(/[^A-Za-z0-9+/]/g, '')] *)
Fixpoint stripNonAlphabet (s : string) : string :=
  match s with
  | String c s' => if inAlphabet c then String c (stripNonAlphabet s') else stripNonAlphabet s'
  | EmptyString => EmptyString
  end.

Fixpoint indexFrom (s : string) (c : Ascii.ascii) (k : Z) : Z :=
  match s with
  | String c' s' => if Ascii.eqb c' c then k else indexFrom s' c (k + 1)
  | EmptyString => -1
  end.

(** [s.indexOf(base64.charAt(idx))]: the character sought is missing
    ([None]) when [idx] is past the end, and the empty string is found at
    index 0. *)
Definition indexOf (s : string) (c : option Ascii.ascii) : Z :=
  match c with
  | Some c => indexFrom s c 0
  | None => 0
  end.

(** The characters one round of the decoding loop appends to [binary]. *)
Definition decodeGroup (c1 c2 c3 c4 : option Ascii.ascii) : string :=
  let encoded1 := indexOf base64Chars c1 in
  let encoded2 := indexOf base64Chars c2 in
  let encoded3 := indexOf base64Chars c3 in
  let encoded4 := indexOf base64Chars c4 in
  let bitmap :=
    bor (bor (bor (shl (Some encoded1) 18) (shl (Some encoded2) 12))
             (shl (Some encoded3) 6))
        (toInt32 (Some encoded4)) in
  String (fromCharCode (band (sar bitmap 16) 255)) ""
  +:+ (if encoded3 =? 64 then ""
       else String (fromCharCode (band (sar bitmap 8) 255)) "")
  +:+ (if encoded4 =? 64 then ""
       else String (fromCharCode (band bitmap 255)) "").

(** The decoding loop over the stripped string. *)
Fixpoint decodeFrom (s : string) : string :=
  match s with
  | EmptyString => ""
  | String c1 EmptyString => decodeGroup (Some c1) None None None
  | String c1 (String c2 EmptyString) => decodeGroup (Some c1) (Some c2) None None
  | String c1 (String c2 (String c3 EmptyString)) =>
      decodeGroup (Some c1) (Some c2) (Some c3) None
  | String c1 (String c2 (String c3 (String c4 s'))) =>
      decodeGroup (Some c1) (Some c2) (Some c3) (Some c4) +:+ decodeFrom s'
  end.

(** The second loop: two hexadecimal digits per character of [binary]. *)
Fixpoint hexOfBinary (binary : string) : string :=
  match binary with
  | String c s' => padStart2 (toString16 (charCode c)) +:+ hexOfBinary s'
  | EmptyString => ""
  end.

(** [base64ToHex] *)
Definition base64ToHex (base64 : string) : string :=
  hexOfBinary (decodeFrom (stripNonAlphabet base64)).

End CryptoUtils.
Export CryptoUtils.

(** ** [utils/uuid.ts] *)

Module Uuid.

Local Open Scope Z_scope.

Definition template : string := "xxxxxxxx-xxxx-4xxx-yxxx-xxxxxxxxxxxx".

(** The callback given to [replace]: [c] is the character matched and
    [rnd] what [Math.random()] returned. *)
Definition replacement (c : Ascii.ascii) (rnd : Qc) : string :=
  let r := Qfloor (rnd * Num.ofZ 16)%Qc in
  let v := if Ascii.eqb c "x"%char then r else Z.rem r 4 + 8 in
  toString16 v.

(** [s.replace(/[xy]/g, callback)]: the matches are replaced from left to
    right, one call each; [k] counts the calls of [Math.random()] made so
    far, and [random k] is what the next one returns. *)
Fixpoint replaceXY (random : nat → Qc) (k : nat) (s : string) : string :=
  match s with
  | String c s' =>
      if Ascii.eqb c "x"%char || Ascii.eqb c "y"%char
      then replacement c (random k) +:+ replaceXY random (S k) s'
      else String c (replaceXY random k s')
  | EmptyString => ""
  end.

Definition generateUUID (random : nat → Qc) : string :=
  replaceXY random 0 template.

End Uuid.
Export Uuid.


(** ** Reports (analytics.service.ts) *)

Module Analytics.

(** [arr.sort((a, b) => b.amount - a.amount)]: the host's sort is stable,
    so an expense moves behind exactly the later expenses that exceed it,
    and equal amounts keep their order. *)
Fixpoint insertExpense (x : Expense) (l : list Expense) : list Expense :=
  match l with
  | [] => [x]
  | y :: l' =>
      if Num.ltb (amount x) (amount y)
      then y :: insertExpense x l'
      else x :: y :: l'
  end.

Definition sortByAmount (l : list Expense) : list Expense :=
  foldr insertExpense [] l.

(** [arr.slice(0, limit)] for an integer [limit]: a negative [limit]
    counts from the end of the array. *)
Definition slice0 {A} (l : list A) (limit : Z) : list A :=
  if (limit <? 0)%Z
  then take (Z.to_nat (Z.of_nat (length l) + limit)) l
  else take (Z.to_nat limit) l.

(** [getHighestExpenses] *)
Definition getHighestExpenses (expenses : list Expense) (limit : Z) : list Expense :=
  slice0 (sortByAmount expenses) limit.

End Analytics.
Export Analytics.

(** ** The list of personal expenses (expense.service.ts and
    store/expenseStore.ts) *)

Module ExpenseListing.

Section ordered.

(** What the engine does for [ORDER BY date DESC, created_at DESC]: it
    returns the rows it is given in some order; among rows that agree on
    both columns the order is the engine's choice. *)
Variable orderBy : list ExpenseRow → list ExpenseRow.

(** [SELECT * FROM expenses WHERE group_id IS NULL ORDER BY date DESC,
    created_at DESC] *)
Definition selectPersonal (t : Tables) : list ExpenseRow :=
  orderBy (filter (λ r, row_group_id r = None) (expenses t)).

(** The [for] loop of [getAllExpenses]: the object built from a row has no
    [baseAmount], no [groupId] and no [paidByMemberId]. *)
Fixpoint readPersonal (rows : list ExpenseRow) (w : World)
    : result (list Expense * World) :=
  match rows with
  | [] => Ok ([], w)
  | row :: rows' =>
      '(notes, w) ← decryptNotes (row_notes_encrypted row) w;
      let expense :=
        mkExpense (row_id row) (row_amount row) (row_currency_code row) None
                  (row_category row) (row_description row) notes (row_date row)
                  None None (row_created_at row) (row_updated_at row) in
      '(expenses, w) ← readPersonal rows' w;
      Ok (expense :: expenses, w)
  end.

(** [getAllExpenses] *)
Definition getAllExpenses (w : World) : result (list Expense * World) :=
  t ← getDatabase w;
  readPersonal (selectPersonal t) w.

(** [fetchExpenses] of the store: an error of the service is recorded in
    the store and the list stays. *)
Definition fetchExpenses (a : App) : App :=
  match getAllExpenses (world a) with
  | Ok (expenses, w) => mkApp w expenses
  | Err _ => a
  end.

End ordered.

(** [selectTotalExpenses]: [None] is [NaN], which [sum + exp.baseAmount]
    is when the expense has no [baseAmount], and which every later sum
    then is. *)
Definition selectTotalExpenses (a : App) : option Qc :=
  foldl (λ sum exp, s ← sum; b ← baseAmount exp; Some (s + b)) (Some 0)
        (store_expenses a).

End ExpenseListing.
Export ExpenseListing.


(** * Properties *)

(** ** Worlds used by the examples *)

Definition t0 : Date := mkDate 2024 0 1 0.

Definition entropy0 (n : nat) : string := "uuid-" +:+ pretty n.

Definition world0 : World :=
  mkWorld (Some emptyTables) None (Ok None) entropy0 0.

Definition memberA : GroupMember := mkMember "A" "g" "userA" "Ann".
Definition memberB : GroupMember := mkMember "B" "g" "userB" "Bob".
Definition memberC : GroupMember := mkMember "C" "g" "userC" "Cid".

Definition groupExpense (id : string) (amount : Qc) (payer : string) : Expense :=
  mkExpense id amount "EUR" None "Food" None None "2024-01-01" (Some "g") (Some payer) t0 t0.

Definition splitOf (expenseId memberId : string) (amount : Qc) : ExpenseSplit :=
  mkSplit (expenseId +:+ "/" +:+ memberId) expenseId memberId amount None t0.




(** The scenario of the spec: 90.00 paid by A and split equally among A,
    B and C. *)
Definition fsNinety : Firestore :=
  mkFirestore (λ _, [memberA; memberB; memberC])
              (λ _, [groupExpense "e1" (Num.ofZ 90) "A"])
              (λ _ e, [splitOf e "A" (Num.ofZ 30); splitOf e "B" (Num.ofZ 30);
                       splitOf e "C" (Num.ofZ 30)]).

(** The balances of the spec's scenario: A is owed 60.00, B and C owe
    30.00 each. *)
Definition balNinety : gmap string Qc :=
  {[ "A" := Num.cents 6000; "B" := Num.cents (-3000); "C" := Num.cents (-3000) ]}.

(** A is owed 100.00 but B owes only 50.00. *)
Definition balUneven : gmap string Qc :=
  {[ "A" := Num.cents 10000; "B" := Num.cents (-5000) ]}.

Definition memberD : GroupMember := mkMember "D" "g" "userD" "Dee".

(** A is owed 50.00 and B 10.00; C owes 40.00 and D 20.00. *)
Definition balFour : gmap string Qc :=
  {[ "A" := Num.cents 5000; "B" := Num.cents 1000;
     "C" := Num.cents (-4000); "D" := Num.cents (-2000) ]}.

(** A monthly rule that started on 2024-01-01 and was last generated on
    that day, and the afternoon of 2024-04-15. *)
Definition ruleMonthly : RecurringExpense :=
  mkRecurring "r1" (Num.ofZ 50) "EUR" "Rent" (Some "flat") monthly 1
              (mkDate 2024 0 1 0) None (Some (mkDate 2024 0 1 0)) (Some "g1") t0.

Definition april15 : Date := mkDate 2024 3 15 54000000.

(** Two time zones: UTC, and that of India, five and a half hours ahead. *)
Definition utc : TimeZone := 0%Z.

Definition february15 : Date := mkDate 2024 1 15 54000000.

Definition worldWith (rules : list RecurringExpense) : World :=
  mkWorld (Some (mkTables [] [] [] rules [])) None (Ok None) entropy0 0.

(** The same rule with an end date of 2024-03-15. *)
Definition ruleEnding : RecurringExpense :=
  mkRecurring "r1" (Num.ofZ 50) "EUR" "Rent" (Some "flat") monthly 1
              (mkDate 2024 0 1 0) (Some (mkDate 2024 2 15 0))
              (Some (mkDate 2024 0 1 0)) (Some "g1") t0.

(** A process whose key was loaded from the keychain at start-up. *)
Definition worldKeyed : World :=
  mkWorld (Some emptyTables) (Some "00ff") (Ok (Some "00ff")) entropy0 0.




(** An expense entered for group "g1" and paid by member "A". *)
Definition draftGroup : ExpenseDraft :=
  mkDraft (Num.ofZ 12) "EUR" None "Food" (Some "lunch") None "2024-01-05"
          (Some "g1") (Some "A").

(** A personal expense with notes, as stored and as held by the store. *)
Definition expenseX : Expense :=
  mkExpense "x1" (Num.ofZ 20) "EUR" None "Food" (Some "dinner") (Some "with Ann")
            "2024-01-01" None None t0 t0.

Definition rowX : ExpenseRow :=
  mkRow "x1" (Num.ofZ 20) "EUR" "Food" (Some "dinner")
        (Some (Sealed "00ff" "n0" "with Ann")) "2024-01-01" None None t0 t0.

Definition tablesX : Tables := mkTables [rowX] [] [] [] [].

Definition appX : App :=
  mkApp (mkWorld (Some tablesX) (Some "00ff") (Ok (Some "00ff")) entropy0 0) [expenseX].

Definition appEmpty : App := mkApp worldKeyed [].

Definition draftX : ExpenseDraft :=
  mkDraft (Num.ofZ 20) "EUR" None "Food" (Some "dinner") (Some "with Ann")
          "2024-01-01" None None.

(** A personal expense without notes, as stored and as held by the
    store. *)
Definition expensePlain : Expense :=
  mkExpense "p1" (Num.ofZ 20) "EUR" None "Food" (Some "dinner") None
            "2024-01-01" None None t0 t0.

Definition rowPlain : ExpenseRow :=
  mkRow "p1" (Num.ofZ 20) "EUR" "Food" (Some "dinner") None "2024-01-01" None None t0 t0.

Definition tablesPlain : Tables := mkTables [rowPlain] [] [] [] [].

Definition appPlain : App :=
  mkApp (mkWorld (Some tablesPlain) (Some "00ff") (Ok (Some "00ff")) entropy0 0)
        [expensePlain].


Definition draftPlain : ExpenseDraft :=
  mkDraft (Num.ofZ 20) "EUR" None "Food" (Some "dinner") None "2024-01-01" None None.

(** An edit of the amount. *)
Definition amountTo (a : Qc) : ExpenseUpdates :=
  mkUpdates (Some a) None None None None None None None None.

Definition january2 : Date := mkDate 2024 0 2 0.
Definition january3 : Date := mkDate 2024 0 3 0.

(** The parties of a list come from those of an earlier list, with amounts
    that are at least a cent and at most the earlier ones. *)
Definition within (cs0 cs : list Party) : Prop :=
  Forall (λ p, ∃ p0, p0 ∈ cs0 ∧ party_memberId p0 = party_memberId p ∧
                     epsilon ≤ party_amount p ∧ party_amount p ≤ party_amount p0) cs.

(** A row whose stored notes are not a ciphertext of the Secret Box. *)
Definition rowBroken : ExpenseRow :=
  mkRow "x9" (Num.ofZ 5) "EUR" "Food" None (Some (Malformed "zz")) "2024-01-01"
        None None t0 t0.

Definition worldBroken : World :=
  mkWorld (Some (mkTables [rowBroken; rowX] [] [] [] [])) (Some "00ff")
          (Ok (Some "00ff")) entropy0 0.

(** An edit that replaces the notes. *)
Definition notesTo (n : string) : ExpenseUpdates :=
  mkUpdates None None None None None (Some (Some n)) None None None.


(** A log whose newest entry is about a group, and one whose newest entry
    is an edit of an expense that no row holds. *)
Definition worldGroupEntry : World :=
  mkWorld (Some (mkTables [rowX] [] [] []
                   [mkUndo "u1" undo_delete ent_group expenseX january2]))
          (Some "00ff") (Ok (Some "00ff")) entropy0 0.

Definition worldStaleEdit : World :=
  mkWorld (Some (mkTables [] [] [] []
                   [mkUndo "u1" undo_edit ent_expense expenseX january2]))
          (Some "00ff") (Ok (Some "00ff")) entropy0 0.




(** Every character of a string satisfies a test. *)
Fixpoint stringForall (P : Ascii.ascii → bool) (s : string) : bool :=
  match s with
  | String c s' => P c && stringForall P s'
  | EmptyString => true
  end.

(** A lower-case hexadecimal digit. *)
Definition isLowerHex (c : Ascii.ascii) : bool :=
  ((48 <=? charCode c) && (charCode c <=? 57))%Z
  || ((97 <=? charCode c) && (charCode c <=? 102))%Z.

(** A list of bytes followed by the zero bytes that fill its last group
    of three. *)
Definition padToTriples (bytes : list Z) : list Z :=
  bytes ++ replicate ((3 - length bytes mod 3) mod 3)%nat 0%Z.


(** The string whose characters have the given codes. *)
Fixpoint binaryOf (bytes : list Z) : string :=
  match bytes with
  | [] => ""
  | b :: bytes' => String (fromCharCode b) (binaryOf bytes')
  end.


(** [matchesTemplate t s]: the string [s] has the characters of [t], with
    a lower-case hexadecimal digit in the place of every [x] and one of
    [8], [9], [a], [b] in the place of every [y]. *)
Fixpoint matchesTemplate (t s : string) : bool :=
  match t, s with
  | EmptyString, EmptyString => true
  | String p t', String c s' =>
      (if Ascii.eqb p "x"%char then isLowerHex c
       else if Ascii.eqb p "y"%char
            then bool_decide (c ∈ ["8"; "9"; "a"; "b"]%char)
            else Ascii.eqb p c)
      && matchesTemplate t' s'
  | _, _ => false
  end.

(** A supply of random numbers: [0], [1/2], [2/3], [3/4], ... *)
Definition randomSupply (k : nat) : Qc :=
  Q2Qc (Z.of_nat k # Pos.of_succ_nat k).



(** An engine that returns the rows last to first. *)
Definition newestFirst (rows : list ExpenseRow) : list ExpenseRow := reverse rows.


(** ** Arithmetic of the number model *)

(** Moves a goal on [Qc] to the underlying rationals. *)
Ltac qc_unfold :=
  unfold Num.cents, Num.ofZ, Qcdiv, Qcminus, Qcinv, Qcplus, Qcmult, Qcopp, Q2Qc in *;
  cbn [this] in *; rewrite ?Qred_correct in *.

Ltac qc_eq := apply Qc_is_canon; qc_unfold.

(** Linear arithmetic on [Qc], through the underlying rationals. *)
Ltac qc_lra :=
  unfold Qclt, Qcle in *; qc_unfold; lra.

(** Equality of closed terms that contain numbers. *)
Ltac closed_eq :=
  vm_compute;
  repeat match goal with
         | |- @eq Qc _ _ => apply Qc_is_canon; reflexivity
         | |- _ => reflexivity
         | |- _ => progress f_equal
         end.

Section numbers.

Lemma ofZ_add (a b : Z) : Num.ofZ (a + b) = Num.ofZ a + Num.ofZ b.
Proof. qc_eq. by rewrite inject_Z_plus. Qed.

Lemma ofZ_0 : Num.ofZ 0 = 0.
Proof. by apply Qc_is_canon. Qed.

Lemma ofZ_1 : Num.ofZ 1 = 1.
Proof. by apply Qc_is_canon. Qed.

Lemma ofZ_eq_0 (z : Z) : Num.ofZ z = 0 → z = 0%Z.
Proof.
  unfold Num.ofZ. intros H. apply Q2Qc_eq_iff in H.
  unfold Qeq in H. simpl in H. lia.
Qed.

Lemma ofZ_S (n : nat) : Num.ofZ (Z.of_nat (S n)) = 1 + Num.ofZ (Z.of_nat n).
Proof. rewrite Nat2Z.inj_succ, <-Z.add_1_l, ofZ_add, ofZ_1. done. Qed.

Lemma sum_replicate (n : nat) (x : Qc) :
  Num.sum (replicate n x) = Num.ofZ (Z.of_nat n) * x.
Proof.
  induction n as [|n IH].
  - change (0 = Num.ofZ 0 * x). rewrite ofZ_0. ring.
  - cbn [replicate Num.sum]. rewrite IH, ofZ_S. ring.
Qed.

Lemma sum_app (l1 l2 : list Qc) : Num.sum (l1 ++ l2) = Num.sum l1 + Num.sum l2.
Proof. induction l1 as [|x l1 IH]; simpl; [ring | rewrite IH; ring]. Qed.

Lemma filter_all {A} (P : A → Prop) `{∀ x, Decision (P x)} (l : list A) :
  Forall P l → filter P l = l.
Proof.
  induction 1 as [|x l Hx _ IH]; [done|]. by rewrite filter_cons_True, IH.
Qed.

Lemma filter_none {A} (P : A → Prop) `{∀ x, Decision (P x)} (l : list A) :
  Forall (λ x, ¬ P x) l → filter P l = [].
Proof.
  induction 1 as [|x l Hx _ IH]; [done|]. by rewrite filter_cons_False, IH.
Qed.

(** *** Whole cents *)

Lemma cents_lt (a b : Z) : Num.cents a < Num.cents b ↔ (a < b)%Z.
Proof.
  unfold Qclt, Num.cents, Q2Qc. cbn [this]. rewrite !Qred_correct.
  unfold Qlt. cbn [Qnum Qden]. lia.
Qed.


Lemma cents_inj (a b : Z) : Num.cents a = Num.cents b → a = b.
Proof.
  unfold Num.cents. intros H%Q2Qc_eq_iff. unfold Qeq in H. cbn [Qnum Qden] in H. lia.
Qed.

Lemma ltb_cents (a b : Z) : Num.ltb (Num.cents a) (Num.cents b) = (a <? b)%Z.
Proof.
  unfold Num.ltb. destruct (Z.ltb_spec a b) as [H|H].
  - apply bool_decide_eq_true_2. by apply cents_lt.
  - apply bool_decide_eq_false_2. rewrite cents_lt. lia.
Qed.

Lemma gtb_cents (a b : Z) : Num.gtb (Num.cents a) (Num.cents b) = (b <? a)%Z.
Proof. apply ltb_cents. Qed.


Lemma cents_add (a b : Z) : Num.cents a + Num.cents b = Num.cents (a + b).
Proof. qc_eq. unfold Qeq, Qplus. cbn [Qnum Qden]. lia. Qed.

Lemma cents_opp (a : Z) : - Num.cents a = Num.cents (- a).
Proof. qc_eq. unfold Qeq, Qopp. cbn [Qnum Qden]. lia. Qed.

Lemma cents_sub (a b : Z) : Num.cents a - Num.cents b = Num.cents (a - b).
Proof. unfold Qcminus. rewrite cents_opp, cents_add. f_equal. Qed.


Lemma min_cents (a b : Z) : Num.min (Num.cents a) (Num.cents b) = Num.cents (Z.min a b).
Proof.
  unfold Num.min. rewrite ltb_cents. destruct (Z.ltb_spec b a); f_equal; lia.
Qed.

Lemma round_ofZ (a : Z) : Num.round (Num.ofZ a) = Num.ofZ a.
Proof.
  unfold Num.round. f_equal. unfold Num.ofZ, Qcplus, Q2Qc. cbn [this].
  rewrite !Qred_correct. unfold Qplus, inject_Z, Qfloor. cbn [Qnum Qden].
  symmetry. apply (Z.div_unique _ _ _ 1); lia.
Qed.

Lemma round2_cents (a : Z) : Num.round2 (Num.cents a) = Num.cents a.
Proof.
  unfold Num.round2.
  assert (Num.cents a * Num.ofZ 100 = Num.ofZ a) as ->.
  { qc_eq. unfold Qeq, Qmult, inject_Z. cbn [Qnum Qden]. lia. }
  rewrite round_ofZ. qc_eq. unfold Qeq, Qmult, Qinv, inject_Z. cbn [Qnum Qden]. lia.
Qed.

End numbers.

(** ** The split engine *)

Section splits.

Implicit Types (w : World) (t : Tables).

Lemma insertSplits_spec expenseId now (rows : list (string * Qc * option Qc)) w t :
  insertSplits expenseId now rows w t =
    (mkWorld (db w) (encryptionKey w) (keychain w) (entropy w)
             (drawn w + length rows),
     mkTables (expenses t)
       (reverse (imap (λ i r, mkSplit (entropy w (drawn w + i)) expenseId
                                      r.1.1 r.1.2 r.2 now) rows)
          ++ expense_splits t)
       (payments t) (recurring_expenses t) (undo_history t)).
Proof.
  revert w t. induction rows as [|[[m a] p] rows IH]; intros w t.
  - simpl. destruct w, t; simpl. by rewrite Nat.add_0_r.
  - cbn [insertSplits draw]. rewrite IH. cbn [db encryptionKey keychain entropy drawn
      INSERT_SPLIT expenses expense_splits payments recurring_expenses undo_history
      length imap]. f_equal.
    + f_equal. lia.
    + f_equal. rewrite reverse_cons, <-app_assoc. cbn [app fst snd]. f_equal.
      * f_equal. apply imap_ext. intros i x _. simpl. f_equal. f_equal. lia.
      * by rewrite Nat.add_0_r.
Qed.

(** The rows of an expense after a split function has run on a table
    [t]: the old rows of the expense are gone, the new ones are read back
    in the order of the input. *)
Lemma splits_after_insert expenseId now (rows : list (string * Qc * option Qc)) w t :
  reverse (GET_SPLITS_BY_EXPENSE expenseId
    (insertSplits expenseId now rows w (DELETE_SPLITS_BY_EXPENSE expenseId t)).2) =
  imap (λ i r, mkSplit (entropy w (drawn w + i)) expenseId r.1.1 r.1.2 r.2 now) rows.
Proof.
  rewrite insertSplits_spec. unfold GET_SPLITS_BY_EXPENSE, DELETE_SPLITS_BY_EXPENSE.
  cbn [snd expense_splits]. rewrite filter_app.
  rewrite (filter_none _ (filter _ (expense_splits t))).
  - rewrite app_nil_r, filter_reverse, reverse_involutive. apply filter_all.
    apply Forall_forall. intros x Hx.
    apply elem_of_lookup_imap_1 in Hx as (i & r & -> & _). done.
  - apply Forall_forall. intros x Hx. apply list_elem_of_filter in Hx as [Hx _]. tauto.
Qed.

Lemma imap_fmap_const {A B C} (f : nat → A → B) (g : B → C) (h : A → C) (l : list A) :
  (∀ i x, g (f i x) = h x) → g <$> imap f l = h <$> l.
Proof.
  intros Hfg. rewrite fmap_imap, <-imap_const. apply imap_ext. intros i x _. apply Hfg.
Qed.

(** C2 (amended): on an initialised database [splitExpenseEqually], given
    a non-empty member list of any size N, succeeds and leaves the
    expense with one split per member, in input order, every one owing
    the same amount [totalAmount / N], the result of one division: there
    is no integer quotient and no remainder handed out unit by unit. *)
Theorem splitExpenseEqually_equal_shares now expenseId memberIds totalAmount w t :
  db w = Some t →
  memberIds ≠ [] →
  ∃ w' rows,
    splitExpenseEqually now expenseId memberIds totalAmount w = Ok w' ∧
    getExpenseSplits expenseId w' = Ok rows ∧
    split_memberId <$> rows = memberIds ∧
    split_amount <$> rows =
      replicate (length memberIds)
                (totalAmount / Num.ofZ (Z.of_nat (length memberIds))).
Proof.
  intros Hdb Hne. unfold splitExpenseEqually, getDatabase. rewrite Hdb. cbn [mbind result_bind].
  set (q := totalAmount / Num.ofZ (Z.of_nat (length memberIds))).
  set (rows := map (λ memberId : string, (memberId, q, @None Qc)) memberIds).
  pose proof (splits_after_insert expenseId now rows w t) as Hread.
  destruct (insertSplits expenseId now rows w (DELETE_SPLITS_BY_EXPENSE expenseId t))
    as [w1 t1] eqn:Hins.
  eexists _, _. split; [reflexivity|].
  unfold getExpenseSplits, getDatabase, setTables. cbn [db mbind result_bind].
  cbn [snd] in Hread. rewrite Hread.
  assert (Hamounts : split_amount <$> imap (λ i r, mkSplit (entropy w (drawn w + i))
            expenseId r.1.1 r.1.2 r.2 now) rows = replicate (length memberIds) q).
  { rewrite (imap_fmap_const _ _ (λ r, r.1.2)) by done. unfold rows.
    rewrite <-list_fmap_compose. clearbody q. clear.
    induction memberIds as [|m l IH]; [done|]. cbn. f_equal. apply IH. }
  split; [reflexivity|]. split; [|exact Hamounts].
  rewrite (imap_fmap_const _ _ (λ r, r.1.1)) by done. unfold rows.
  rewrite <-list_fmap_compose. clearbody q. clear.
  induction memberIds as [|m l IH]; [done|]. cbn. f_equal. apply IH.
Qed.

Lemma splitExpenseEqually_equal_shares_witness :
  ∃ w' rows,
    splitExpenseEqually t0 "e1" ["A"; "B"; "C"] (Num.ofZ 90) world0 = Ok w' ∧
    getExpenseSplits "e1" w' = Ok rows ∧
    split_memberId <$> rows = ["A"; "B"; "C"] ∧
    split_amount <$> rows = replicate 3 (Num.ofZ 90 / Num.ofZ 3).
Proof.
  apply (splitExpenseEqually_equal_shares t0 "e1" ["A"; "B"; "C"] (Num.ofZ 90)
           world0 emptyTables); [reflexivity | discriminate].
Defined.

(** C2 (counterexample): an expense of 1.00, that is 100 minor units,
    split among three members.  The claim gives 34, 33 and 33 minor
    units; the code writes a third of the amount three times. *)
Lemma splitExpenseEqually_no_remainder_units :
  ∃ w' rows,
    splitExpenseEqually t0 "e1" ["A"; "B"; "C"] (Num.cents 100) world0 = Ok w' ∧
    getExpenseSplits "e1" w' = Ok rows ∧
    Num.cents <$> specEqualSplit 100 3 = [Num.cents 34; Num.cents 33; Num.cents 33] ∧
    split_amount <$> rows ≠ Num.cents <$> specEqualSplit 100 3.
Proof.
  eexists _, _. split; [reflexivity|]. split; [reflexivity|]. split; [reflexivity|].
  intros H. apply (f_equal (fmap this)) in H. vm_compute in H. discriminate.
Qed.

(** C3 (amended): the two functions never fail with [InvalidSplit].  On
    an initialised database they succeed for every list of entries,
    whatever the percentages or amounts add up to, and leave the expense
    with one split per entry, in input order: [totalAmount * percentage /
    100] with the percentage recorded, respectively the supplied amount
    with no percentage. *)
Theorem split_by_percentage_and_amount_unvalidated now expenseId splits totalAmount w t :
  db w = Some t →
  (∃ w' rows,
     splitExpenseByPercentage now expenseId splits totalAmount w = Ok w' ∧
     getExpenseSplits expenseId w' = Ok rows ∧
     (λ r, (split_memberId r, split_amount r, split_percentage r)) <$> rows =
       (λ s, (s.1, totalAmount * s.2 / Num.ofZ 100, Some s.2)) <$> splits) ∧
  (∃ w' rows,
     splitExpenseByAmount now expenseId splits w = Ok w' ∧
     getExpenseSplits expenseId w' = Ok rows ∧
     (λ r, (split_memberId r, split_amount r, split_percentage r)) <$> rows =
       (λ s, (s.1, s.2, None)) <$> splits).
Proof.
  intros Hdb. split.
  - unfold splitExpenseByPercentage, getDatabase. rewrite Hdb. cbn [mbind result_bind].
    set (rows := map _ splits).
    pose proof (splits_after_insert expenseId now rows w t) as Hread.
    destruct (insertSplits expenseId now rows w (DELETE_SPLITS_BY_EXPENSE expenseId t))
      as [w1 t1] eqn:Hins.
    eexists _, _. split; [reflexivity|].
    unfold getExpenseSplits, getDatabase, setTables. cbn [db mbind result_bind].
    cbn [snd] in Hread. rewrite Hread. split; [reflexivity|].
    rewrite (imap_fmap_const _ _ (λ r, r)) by (by intros ? [[??]?]).
    unfold rows. rewrite list_fmap_id. done.
  - unfold splitExpenseByAmount, getDatabase. rewrite Hdb. cbn [mbind result_bind].
    set (rows := map _ splits).
    pose proof (splits_after_insert expenseId now rows w t) as Hread.
    destruct (insertSplits expenseId now rows w (DELETE_SPLITS_BY_EXPENSE expenseId t))
      as [w1 t1] eqn:Hins.
    eexists _, _. split; [reflexivity|].
    unfold getExpenseSplits, getDatabase, setTables. cbn [db mbind result_bind].
    cbn [snd] in Hread. rewrite Hread. split; [reflexivity|].
    rewrite (imap_fmap_const _ _ (λ r, r)) by (by intros ? [[??]?]).
    unfold rows. rewrite list_fmap_id. done.
Qed.

Lemma split_by_percentage_and_amount_unvalidated_witness :
  (∃ w' rows,
     splitExpenseByPercentage t0 "e1" [("A", Num.ofZ 60); ("B", Num.ofZ 40)]
       (Num.ofZ 90) world0 = Ok w' ∧
     getExpenseSplits "e1" w' = Ok rows ∧
     (λ r, (split_memberId r, split_amount r, split_percentage r)) <$> rows =
       (λ s, (s.1, Num.ofZ 90 * s.2 / Num.ofZ 100, Some s.2))
         <$> [("A", Num.ofZ 60); ("B", Num.ofZ 40)]) ∧
  (∃ w' rows,
     splitExpenseByAmount t0 "e1" [("A", Num.ofZ 60); ("B", Num.ofZ 40)] world0 = Ok w' ∧
     getExpenseSplits "e1" w' = Ok rows ∧
     (λ r, (split_memberId r, split_amount r, split_percentage r)) <$> rows =
       (λ s, (s.1, s.2, None)) <$> [("A", Num.ofZ 60); ("B", Num.ofZ 40)]).
Proof.
  apply (split_by_percentage_and_amount_unvalidated t0 "e1"
           [("A", Num.ofZ 60); ("B", Num.ofZ 40)] (Num.ofZ 90) world0 emptyTables).
  reflexivity.
Defined.

(** C3 (counterexample): percentages that add up to 80 and amounts that
    add up to 30 for an expense of 100 are accepted and written. *)
Lemma split_accepts_wrong_totals :
  (∃ w' rows,
     splitExpenseByPercentage t0 "e1" [("A", Num.ofZ 50); ("B", Num.ofZ 30)]
       (Num.ofZ 100) world0 = Ok w' ∧
     getExpenseSplits "e1" w' = Ok rows ∧
     split_memberId <$> rows = ["A"; "B"] ∧
     Num.sum (split_amount <$> rows) = Num.ofZ 80) ∧
  (∃ w' rows,
     splitExpenseByAmount t0 "e1" [("A", Num.ofZ 10); ("B", Num.ofZ 20)] world0 = Ok w' ∧
     getExpenseSplits "e1" w' = Ok rows ∧
     split_memberId <$> rows = ["A"; "B"] ∧
     Num.sum (split_amount <$> rows) = Num.ofZ 30).
Proof.
  split; (eexists _, _; split; [reflexivity|]; split; [reflexivity|];
          split; [reflexivity|]; apply Qc_is_canon; reflexivity).
Qed.

End splits.

(** ** The balance calculator *)

Section balances.

Implicit Types (balances : gmap string Qc) (k : string).





Lemma bump_is_Some balances k k' delta :
  is_Some (balances !! k') → is_Some (bump k delta balances !! k').
Proof.
  intros H. unfold bump. destruct (decide (k = k')) as [->|Hne].
  - rewrite lookup_insert_eq. eauto.
  - by rewrite lookup_insert_ne.
Qed.


Lemma splits_is_Some balances (splits : list ExpenseSplit) k' :
  is_Some (balances !! k') →
  is_Some (foldl (λ b split, bump (split_memberId split) (- split_amount split) b)
                 balances splits !! k').
Proof.
  revert balances. induction splits as [|s splits IH]; intros balances H; [done|].
  cbn [foldl]. apply IH. by apply bump_is_Some.
Qed.


Lemma init_balances (members : list GroupMember) balances :
  (∀ k v, balances !! k = Some v → v = 0) →
  (∀ k v, foldl (λ b member, <[member_id member := 0]> b) balances members !! k = Some v
          → v = 0) ∧
  ∀ k, k ∈ member_id <$> members →
       is_Some (foldl (λ b member, <[member_id member := 0]> b) balances members !! k).
Proof.
  revert balances. induction members as [|m members IH]; intros balances H0.
  - split; [done|]. intros k Hk. by apply elem_of_nil in Hk.
  - cbn [foldl]. destruct (IH (<[member_id m := 0]> balances)) as [Hz Hdom].
    { intros k v. destruct (decide (member_id m = k)) as [->|Hne].
      - rewrite lookup_insert_eq. congruence.
      - rewrite lookup_insert_ne by done. apply H0. }
    split; [done|]. intros k Hk. rewrite fmap_cons, elem_of_cons in Hk.
    destruct Hk as [->|Hk]; [|by apply Hdom].
    clear -members. generalize (<[member_id m:=0]> balances) (lookup_insert_eq balances (member_id m) 0).
    induction members as [|m' members IH]; intros b Hb; [by eauto|].
    cbn [foldl]. destruct (decide (member_id m' = member_id m)) as [Heq|Hne].
    + apply (IH (<[member_id m' := 0]> b)). rewrite Heq. apply lookup_insert_eq.
    + apply (IH (<[member_id m' := 0]> b)). by rewrite lookup_insert_ne.
Qed.

Lemma applyExpense_is_Some splitsOf balances (e : Expense) k :
  is_Some (balances !! k) → is_Some (applyExpense splitsOf balances e !! k).
Proof.
  intros Hk. unfold applyExpense. apply splits_is_Some.
  destruct (paidByMemberId e) as [p|]; [|done].
  destruct (truthy (Some p) && bool_decide (is_Some (balances !! p))); [|done].
  by apply bump_is_Some.
Qed.












End balances.

(** ** The settlement optimiser *)

Section settlement.

Implicit Types (cs ds : list Party) (sugs : list Suggestion) (k : string).

Lemma ltb_zero_epsilon : Num.ltb 0 epsilon = true.
Proof. by vm_compute. Qed.

Lemma sub_min_small (x y : Qc) :
  Num.ltb (x - Num.min x y) epsilon = true ∨ Num.ltb (y - Num.min x y) epsilon = true.
Proof.
  unfold Num.min. destruct (Num.ltb y x); [right|left].
  - replace (y - y) with 0 by ring. apply ltb_zero_epsilon.
  - replace (x - x) with 0 by ring. apply ltb_zero_epsilon.
Qed.

(** Every round drops a creditor or a debtor, so the loop exits on its own
    conditions within [length cs + length ds] rounds. *)
Lemma settle_total fuel cs ds :
  (length cs + length ds < fuel)%nat → is_Some (settle fuel cs ds).
Proof.
  revert cs ds. induction fuel as [|fuel IH]; intros cs ds Hlen; [lia|].
  destruct cs as [|c cs]; [by eexists|]. destruct ds as [|d ds]; [by eexists|].
  cbn [settle]. destruct (_ || _); [by eexists|].
  cbn [party_amount party_memberId].
  set (s := Num.min (party_amount c) (party_amount d)).
  match goal with |- is_Some (mbind _ (settle fuel ?a ?b)) =>
    destruct (IH a b) as [rest Hrest] end.
  { cbn [length] in Hlen.
    destruct (sub_min_small (party_amount c) (party_amount d)) as [H|H];
      fold s in H; rewrite H;
      repeat match goal with |- context [if ?b then _ else _] => destruct b end;
      cbn [length]; lia. }
  rewrite Hrest. by eexists.
Qed.

Lemma settle_count fuel cs ds sugs :
  settle fuel cs ds = Some sugs →
  sugs = [] ∨ (length sugs + 1 ≤ length cs + length ds)%nat.
Proof.
  revert cs ds sugs. induction fuel as [|fuel IH]; intros cs ds sugs; [done|].
  destruct cs as [|c cs]; [intros [= <-]; by left|].
  destruct ds as [|d ds]; [intros [= <-]; by left|].
  cbn [settle]. destruct (_ || _); [intros [= <-]; by left|].
  cbn [party_amount party_memberId].
  set (s := Num.min (party_amount c) (party_amount d)).
  match goal with |- mbind _ (settle fuel ?a ?b) = _ → _ =>
    destruct (settle fuel a b) as [rest|] eqn:Hrest; [|done];
    assert (length a + length b < length (c :: cs) + length (d :: ds))%nat as Hlen end.
  { destruct (sub_min_small (party_amount c) (party_amount d)) as [H|H];
      fold s in H; rewrite H;
      repeat match goal with |- context [if ?b then _ else _] => destruct b end;
      cbn [length]; lia. }
  intros [= <-]. right. apply IH in Hrest as [->|Hrest]; cbn [length] in *; lia.
Qed.

Lemma received_cons (s : Suggestion) sugs k :
  received (s :: sugs) k = (if decide (to s = k) then sug_amount s else 0) + received sugs k.
Proof.
  unfold received. rewrite filter_cons. destruct (decide (to s = k));
    cbn [fmap list_fmap Num.sum]; ring.
Qed.

Lemma sent_cons (s : Suggestion) sugs k :
  sent (s :: sugs) k = (if decide (from s = k) then sug_amount s else 0) + sent sugs k.
Proof.
  unfold sent. rewrite filter_cons. destruct (decide (from s = k));
    cbn [fmap list_fmap Num.sum]; ring.
Qed.

(** *** Sorting *)

Lemma insertParty_Permutation (x : Party) cs : insertParty x cs ≡ₚ x :: cs.
Proof.
  induction cs as [|y cs IH]; [done|]. cbn [insertParty].
  destruct (Num.ltb _ _); [|done]. rewrite IH. apply Permutation_swap.
Qed.

Lemma sortParties_Permutation cs : sortParties cs ≡ₚ cs.
Proof.
  induction cs as [|x cs IH]; [done|]. cbn [sortParties foldr].
  fold (sortParties cs). by rewrite insertParty_Permutation, IH.
Qed.

Lemma insertParty_sorted (x : Party) cs :
  StronglySorted descending cs → StronglySorted descending (insertParty x cs).
Proof.
  induction 1 as [|y cs Hcs IH Hy]; cbn [insertParty].
  - by repeat constructor.
  - unfold Num.ltb. case_bool_decide as Hlt.
    + constructor; [done|]. rewrite insertParty_Permutation.
      constructor; [|done]. by apply Qclt_le_weak.
    + apply Qcnot_lt_le in Hlt. constructor; [by constructor|].
      constructor; [done|]. eapply Forall_impl; [exact Hy|].
      intros z Hz. unfold descending in *. by etrans.
Qed.

Lemma sortParties_sorted cs : StronglySorted descending (sortParties cs).
Proof.
  induction cs as [|x cs IH]; [constructor|]. by apply insertParty_sorted.
Qed.

(** The sort is stable: the parties of any one amount stay in the order
    they had. *)
Lemma insertParty_stable (a : Qc) (x : Party) cs :
  filter (λ p, party_amount p = a) (insertParty x cs) =
    filter (λ p, party_amount p = a) (x :: cs).
Proof.
  induction cs as [|y cs IH]; [done|]. cbn [insertParty].
  unfold Num.ltb. case_bool_decide as Hlt; [|done].
  rewrite filter_cons, IH, !filter_cons.
  destruct (decide (party_amount y = a)) as [Hy|Hy],
           (decide (party_amount x = a)) as [Hx|Hx]; try done.
  rewrite Hx, Hy in Hlt. by apply Qclt_not_eq in Hlt.
Qed.

Lemma sortParties_stable (a : Qc) cs :
  filter (λ p, party_amount p = a) (sortParties cs) =
    filter (λ p, party_amount p = a) cs.
Proof.
  induction cs as [|x cs IH]; [done|]. cbn [sortParties foldr]. fold (sortParties cs).
  by rewrite insertParty_stable, !filter_cons, IH.
Qed.

(** *** Creditors and debtors of a balance map *)

Lemma creditorsOf_cons balances (m : GroupMember) members :
  creditorsOf balances (m :: members) =
    (if Num.gtb (Num.orZero (balances !! member_id m)) epsilon
     then [mkParty (member_id m) (Num.orZero (balances !! member_id m))] else [])
    ++ creditorsOf balances members.
Proof. unfold creditorsOf. cbn [omap list_omap]. by destruct (Num.gtb _ _). Qed.

Lemma debtorsOf_cons balances (m : GroupMember) members :
  debtorsOf balances (m :: members) =
    (if Num.gtb (Num.orZero (balances !! member_id m)) epsilon then []
     else if Num.ltb (Num.orZero (balances !! member_id m)) (- epsilon)
          then [mkParty (member_id m) (Num.abs (Num.orZero (balances !! member_id m)))]
          else [])
    ++ debtorsOf balances members.
Proof.
  unfold debtorsOf. cbn [omap list_omap].
  destruct (Num.gtb _ _); [done|]. by destruct (Num.ltb _ _).
Qed.

Lemma opp_epsilon : - epsilon = Num.cents (-1).
Proof. unfold epsilon. by rewrite cents_opp. Qed.

Lemma parties_count balances members :
  (length (creditorsOf balances members) + length (debtorsOf balances members)
   ≤ length (nonZeroMembers balances members))%nat.
Proof.
  induction members as [|m members IH]; [done|].
  rewrite creditorsOf_cons, debtorsOf_cons. unfold nonZeroMembers. rewrite filter_cons.
  fold (nonZeroMembers balances members). rewrite !length_app.
  destruct (Num.gtb _ _) eqn:Hgt; [|destruct (Num.ltb _ _) eqn:Hlt];
    try (destruct (decide _); cbn [length]; lia).
  - rewrite decide_True; [cbn [length]; lia|].
    intros H0. rewrite H0 in Hgt. by vm_compute in Hgt.
  - rewrite decide_True; [cbn [length]; lia|].
    intros H0. rewrite H0 in Hlt. by vm_compute in Hlt.
Qed.

Lemma elem_of_creditorsOf balances members (p : Party) :
  p ∈ creditorsOf balances members →
  ∃ m, m ∈ members ∧ p = mkParty (member_id m) (Num.orZero (balances !! member_id m)) ∧
       epsilon < Num.orZero (balances !! member_id m).
Proof.
  unfold creditorsOf. intros (m & Hm & Hp)%list_elem_of_omap. exists m. split; [done|].
  cbn zeta in Hp. unfold Num.gtb in Hp. case_bool_decide; [|done].
  split; [congruence | done].
Qed.

Lemma elem_of_debtorsOf balances members (p : Party) :
  p ∈ debtorsOf balances members →
  ∃ m, m ∈ members ∧
       p = mkParty (member_id m) (Num.abs (Num.orZero (balances !! member_id m))) ∧
       Num.orZero (balances !! member_id m) < - epsilon.
Proof.
  unfold debtorsOf. intros (m & Hm & Hp)%list_elem_of_omap. exists m. split; [done|].
  cbn zeta in Hp. destruct (Num.gtb _ _); [done|].
  unfold Num.ltb in Hp. case_bool_decide; [|done].
  split; [congruence | done].
Qed.

Lemma abs_of_neg (x : Qc) : x < - epsilon → Num.abs x = - x ∧ epsilon < Num.abs x.
Proof.
  intros Hx. assert (x < 0) as Hneg.
  { eapply Qclt_trans; [exact Hx|]. by vm_compute. }
  unfold Num.abs, Num.ltb. rewrite bool_decide_eq_true_2 by done. split; [done|].
  unfold epsilon in *. qc_lra.
Qed.

Lemma abs_of_pos (x : Qc) : epsilon < x → Num.abs x = x.
Proof.
  intros Hx. unfold Num.abs, Num.ltb. rewrite bool_decide_eq_false_2; [done|].
  apply Qcle_not_lt, Qclt_le_weak. eapply Qclt_trans; [|exact Hx]. by vm_compute.
Qed.

Lemma creditorsOf_filter balances members :
  creditorsOf balances members =
    (λ m, mkParty (member_id m) (Num.orZero (balances !! member_id m))) <$>
      filter (λ m, epsilon < Num.orZero (balances !! member_id m)) members.
Proof.
  induction members as [|m members IH]; [done|].
  rewrite creditorsOf_cons, filter_cons, IH. unfold Num.gtb.
  case_bool_decide; [rewrite decide_True by done | rewrite decide_False by done]; done.
Qed.

Lemma debtorsOf_filter balances members :
  debtorsOf balances members =
    (λ m, mkParty (member_id m) (Num.abs (Num.orZero (balances !! member_id m)))) <$>
      filter (λ m, Num.orZero (balances !! member_id m) < - epsilon) members.
Proof.
  induction members as [|m members IH]; [done|].
  rewrite debtorsOf_cons, filter_cons, IH. unfold Num.gtb, Num.ltb.
  assert (- epsilon < epsilon) as H0 by (rewrite opp_epsilon; by apply cents_lt).
  case_bool_decide as Hgt; [|case_bool_decide as Hlt].
  - rewrite decide_False; [done|]. intros Hlt.
    apply (Qclt_not_eq epsilon epsilon); [|done].
    eapply Qclt_trans; [exact Hgt|]. by eapply Qclt_trans.
  - by rewrite decide_True by done.
  - by rewrite decide_False by done.
Qed.

(** *** Applying transfers *)

Lemma orZero_bump balances k k' delta :
  Num.orZero (bump k' delta balances !! k) =
    Num.orZero (balances !! k) + (if decide (k' = k) then delta else 0).
Proof.
  unfold bump. destruct (decide (k' = k)) as [->|Hne].
  - by rewrite lookup_insert_eq.
  - rewrite lookup_insert_ne by done. ring.
Qed.

(** A recorded payment changes the balances the way the spec applies a
    transfer. *)
Lemma applyPayment_as_stated balances (p : Payment) :
  applyPayment balances p =
    applyTransferAsStated balances
      (mkSuggestion (fromMemberId p) (toMemberId p) (payment_amount p)).
Proof. done. Qed.

Lemma applyStated_lookup balances sugs k :
  Num.orZero (foldl applyTransferAsStated balances sugs !! k) =
    Num.orZero (balances !! k) - sent sugs k + received sugs k.
Proof.
  revert balances. induction sugs as [|s sugs IH]; intros balances.
  - cbn [foldl]. change (sent [] k) with 0. change (received [] k) with 0. ring.
  - cbn [foldl]. rewrite IH, sent_cons, received_cons. unfold applyTransferAsStated.
    rewrite !orZero_bump.
    destruct (decide (to s = k)), (decide (from s = k)); ring.
Qed.

Lemma epsilon_pos : 0 < epsilon.
Proof. by vm_compute. Qed.

Lemma sent_nonneg sugs k : Forall (λ s, epsilon ≤ sug_amount s) sugs → 0 ≤ sent sugs k.
Proof.
  pose proof epsilon_pos as H0.
  induction 1 as [|s sugs Hs _ IH]; [done|]. rewrite sent_cons.
  destruct (decide _); qc_lra.
Qed.

Lemma received_nonneg sugs k :
  Forall (λ s, epsilon ≤ sug_amount s) sugs → 0 ≤ received sugs k.
Proof.
  pose proof epsilon_pos as H0.
  induction 1 as [|s sugs Hs _ IH]; [done|]. rewrite received_cons.
  destruct (decide _); qc_lra.
Qed.

Lemma sent_none sugs k : Forall (λ s, from s ≠ k) sugs → sent sugs k = 0.
Proof.
  induction 1 as [|s sugs Hs _ IH]; [done|].
  rewrite sent_cons, decide_False, IH by done. ring.
Qed.

Lemma received_none sugs k : Forall (λ s, to s ≠ k) sugs → received sugs k = 0.
Proof.
  induction 1 as [|s sugs Hs _ IH]; [done|].
  rewrite received_cons, decide_False, IH by done. ring.
Qed.

(** *** What the loop returns *)

Lemma ofZ_le (a b : Z) : Num.ofZ a ≤ Num.ofZ b ↔ (a ≤ b)%Z.
Proof.
  unfold Qcle, Num.ofZ, Q2Qc. cbn [this]. rewrite !Qred_correct.
  unfold Qle, inject_Z. cbn [Qnum Qden]. lia.
Qed.

Lemma round_mono (x y : Qc) : x ≤ y → Num.round x ≤ Num.round y.
Proof.
  intros Hxy. unfold Num.round. apply ofZ_le, Qfloor_resp_le.
  change (x + Q2Qc (1 # 2) ≤ y + Q2Qc (1 # 2)).
  apply Qcplus_le_compat; [done | apply Qcle_refl].
Qed.

Lemma div100_mono (a b : Qc) : a ≤ b → a / Num.ofZ 100 ≤ b / Num.ofZ 100.
Proof.
  intros Hab. unfold Qcdiv. apply Qcmult_le_compat_r; [done|]. by vm_compute.
Qed.

Lemma round2_mono (x y : Qc) : x ≤ y → Num.round2 x ≤ Num.round2 y.
Proof.
  intros Hxy. unfold Num.round2. apply div100_mono, round_mono.
  apply Qcmult_le_compat_r; [done|]. by vm_compute.
Qed.

Lemma round2_epsilon : Num.round2 epsilon = epsilon.
Proof. apply round2_cents. Qed.

Lemma ltb_false_le (x y : Qc) : Num.ltb x y = false → y ≤ x.
Proof.
  unfold Num.ltb. intros H%bool_decide_eq_false. by apply Qcnot_lt_le.
Qed.

Lemma min_glb (x y z : Qc) : z ≤ x → z ≤ y → z ≤ Num.min x y.
Proof. intros. unfold Num.min. by destruct (Num.ltb y x). Qed.

Lemma within_step cs0 (c : Party) cs (x : Qc) :
  within cs0 (c :: cs) → 0 ≤ x →
  within cs0 (if Num.ltb (party_amount c - x) epsilon then cs
              else mkParty (party_memberId c) (party_amount c - x) :: cs).
Proof.
  intros Hw Hx. apply Forall_cons in Hw as [(p0 & Hp0 & Hid & Hlo & Hhi) Hw].
  destruct (Num.ltb _ _) eqn:Hlt; [done|].
  apply Forall_cons. split; [|done]. exists p0. cbn [party_memberId party_amount].
  repeat split; [done.. | by apply ltb_false_le |].
  unfold Qcle in *. qc_unfold. lra.
Qed.

Lemma settle_wellformed (fuel : nat) cs0 ds0 cs ds sugs :
  within cs0 cs → within ds0 ds →
  settle fuel cs ds = Some sugs →
  Forall (λ s, ∃ c0 d0, c0 ∈ cs0 ∧ d0 ∈ ds0 ∧
                        to s = party_memberId c0 ∧ from s = party_memberId d0 ∧
                        epsilon ≤ sug_amount s) sugs.
Proof.
  revert cs ds sugs. induction fuel as [|fuel IH]; intros cs ds sugs Hc Hd; [done|].
  destruct cs as [|c cs]; [by intros [= <-]|].
  destruct ds as [|d ds]; [by intros [= <-]|].
  cbn [settle]. destruct (_ || _); [by intros [= <-]|].
  cbn [party_amount party_memberId].
  set (x := Num.min (party_amount c) (party_amount d)).
  pose proof Hc as Hc'. pose proof Hd as Hd'.
  apply Forall_cons in Hc' as [(c0 & Hc0 & Hcid & Hclo & Hchi) _].
  apply Forall_cons in Hd' as [(d0 & Hd0 & Hdid & Hdlo & Hdhi) _].
  assert (epsilon ≤ x) as Hx by by apply min_glb.
  assert (0 ≤ x) as Hx0.
  { apply Qcle_trans with epsilon; [|done]. by apply Qclt_le_weak, cents_lt. }
  match goal with |- mbind _ (settle fuel ?a ?b) = _ → _ =>
    destruct (settle fuel a b) as [rest|] eqn:Hrest; [|done] end.
  intros [= <-]. apply Forall_cons. split.
  - exists c0, d0. cbn [from to sug_amount]. repeat split; [done..|].
    rewrite <-round2_epsilon. by apply round2_mono.
  - eapply IH; [| |exact Hrest]; by apply within_step.
Qed.

Lemma settle_nonempty (fuel : nat) cs ds (c d : Party) :
  epsilon ≤ party_amount c → epsilon ≤ party_amount d →
  settle fuel (c :: cs) (d :: ds) ≠ Some [].
Proof.
  intros Hc Hd. destruct fuel as [|fuel]; [done|]. cbn [settle].
  assert (Num.ltb (party_amount c) epsilon = false) as ->.
  { apply bool_decide_eq_false_2. by apply Qcle_not_lt. }
  assert (Num.ltb (party_amount d) epsilon = false) as ->.
  { apply bool_decide_eq_false_2. by apply Qcle_not_lt. }
  cbn [orb]. by destruct (settle fuel _ _).
Qed.

Lemma within_sortParties cs0 : 
  Forall (λ p, epsilon ≤ party_amount p) cs0 → within cs0 (sortParties cs0).
Proof.
  intros H. unfold within. rewrite sortParties_Permutation.
  apply Forall_forall. intros p Hp. exists p. repeat split; [done.. | | apply Qcle_refl].
  by apply (proj1 (Forall_forall _ _) H).
Qed.

Lemma creditorsOf_significant balances members :
  Forall (λ p, epsilon ≤ party_amount p) (creditorsOf balances members).
Proof.
  apply Forall_forall. intros p (m & _ & -> & H)%elem_of_creditorsOf.
  by apply Qclt_le_weak.
Qed.

Lemma debtorsOf_significant balances members :
  Forall (λ p, epsilon ≤ party_amount p) (debtorsOf balances members).
Proof.
  apply Forall_forall. intros p (m & _ & -> & H)%elem_of_debtorsOf.
  cbn [party_amount]. apply abs_of_neg in H as [_ H]. by apply Qclt_le_weak.
Qed.

Lemma suggest_total balances members : is_Some (suggest balances members).
Proof. unfold suggest. apply settle_total. lia. Qed.

(** The first round pairs the heads of the two lists. *)
Lemma settle_head (fuel : nat) cs ds (c d : Party) sugs :
  epsilon ≤ party_amount c → epsilon ≤ party_amount d →
  settle fuel (c :: cs) (d :: ds) = Some sugs →
  ∃ s rest, sugs = s :: rest ∧ from s = party_memberId d ∧ to s = party_memberId c.
Proof.
  intros Hc Hd. destruct fuel as [|fuel]; [done|]. cbn [settle].
  assert (Num.ltb (party_amount c) epsilon = false) as ->.
  { apply bool_decide_eq_false_2. by apply Qcle_not_lt. }
  assert (Num.ltb (party_amount d) epsilon = false) as ->.
  { apply bool_decide_eq_false_2. by apply Qcle_not_lt. }
  cbn [orb]. destruct (settle fuel _ _) as [rest|]; [|done].
  intros [= <-]. by eexists _, _.
Qed.

(** *** The settlement claims *)

(** C4 (amended): for every balance map of finite numbers and every member
    list the settlement loop ends, and every transfer it suggests goes
    from a member of the group whose balance is below -0.01 to a
    different member whose balance is above 0.01, with an amount of at
    least 0.01.  Hence subtracting each amount from the from-member and
    adding it to the to-member, which is also what
    [calculateGroupBalances] does with a recorded payment, leaves every
    from-member at or below the balance it had and every to-member at or
    above it: no member named in a suggestion comes within 0.01 of zero.
    When a transfer is suggested at all, their number is at most the
    number of members with a non-zero balance minus one. *)
Theorem settlement_transfers balances (members : list GroupMember) :
  ∃ sugs,
    suggest balances members = Some sugs ∧
    Forall (λ s,
      (∃ m, m ∈ members ∧ member_id m = from s) ∧
      (∃ m, m ∈ members ∧ member_id m = to s) ∧
      Num.orZero (balances !! from s) < - epsilon ∧
      epsilon < Num.orZero (balances !! to s) ∧
      from s ≠ to s ∧
      epsilon ≤ sug_amount s) sugs ∧
    (let after := foldl applyTransferAsStated balances sugs in
     Forall (λ s,
       Num.orZero (after !! from s) ≤ Num.orZero (balances !! from s) ∧
       Num.orZero (balances !! from s) < - epsilon ∧
       epsilon < Num.orZero (balances !! to s) ∧
       Num.orZero (balances !! to s) ≤ Num.orZero (after !! to s)) sugs) ∧
    (sugs = [] ∨
     (length sugs + 1 ≤ length (nonZeroMembers balances members))%nat).
Proof.
  destruct (suggest_total balances members) as [sugs Hs]. exists sugs. split; [done|].
  assert (- epsilon < epsilon) as H0 by (rewrite opp_epsilon; by apply cents_lt).
  assert (Forall (λ s,
      (∃ m, m ∈ members ∧ member_id m = from s) ∧
      (∃ m, m ∈ members ∧ member_id m = to s) ∧
      Num.orZero (balances !! from s) < - epsilon ∧
      epsilon < Num.orZero (balances !! to s) ∧
      from s ≠ to s ∧
      epsilon ≤ sug_amount s) sugs) as Hwf.
  { pose proof Hs as Hs'. unfold suggest in Hs'.
    eapply settle_wellformed in Hs';
      [| apply within_sortParties, creditorsOf_significant
       | apply within_sortParties, debtorsOf_significant].
    eapply Forall_impl; [exact Hs'|]. cbn beta.
    intros s (c0 & d0 & Hc0 & Hd0 & Hto & Hfrom & Hlo).
    apply elem_of_creditorsOf in Hc0 as (mc & Hmc & -> & Hbc).
    apply elem_of_debtorsOf in Hd0 as (md & Hmd & -> & Hbd).
    cbn [party_memberId party_amount] in *. rewrite Hto, Hfrom.
    repeat split; [by exists md | by exists mc | done | done | | done].
    intros Heq. rewrite Heq in Hbd.
    apply (Qclt_not_eq epsilon epsilon); [|done].
    eapply Qclt_trans; [exact Hbc|]. by eapply Qclt_trans. }
  split; [exact Hwf|]. split.
  - cbn zeta. apply Forall_forall. intros s Hin.
    pose proof (proj1 (Forall_forall _ _) Hwf s Hin) as (_ & _ & Hfrom & Hto & _ & _).
    assert (Forall (λ s', epsilon ≤ sug_amount s') sugs) as Hamt.
    { eapply Forall_impl; [exact Hwf|]. cbn beta. tauto. }
    assert (Forall (λ s', to s' ≠ from s) sugs) as Hnoto.
    { eapply Forall_impl; [exact Hwf|]. cbn beta.
      intros s' (_ & _ & _ & Hto' & _) Heq. rewrite Heq in Hto'.
      apply (Qclt_not_eq epsilon epsilon); [|done].
      eapply Qclt_trans; [exact Hto'|]. by eapply Qclt_trans. }
    assert (Forall (λ s', from s' ≠ to s) sugs) as Hnofrom.
    { eapply Forall_impl; [exact Hwf|]. cbn beta.
      intros s' (_ & _ & Hfrom' & _) Heq. rewrite Heq in Hfrom'.
      apply (Qclt_not_eq epsilon epsilon); [|done].
      eapply Qclt_trans; [exact Hto|]. by eapply Qclt_trans. }
    rewrite !applyStated_lookup, (received_none _ _ Hnoto), (sent_none _ _ Hnofrom).
    pose proof (sent_nonneg sugs (from s) Hamt) as Hsent.
    pose proof (received_nonneg sugs (to s) Hamt) as Hrec.
    repeat split; [|done|done|].
    + clear -Hsent. qc_lra.
    + clear -Hrec. qc_lra.
  - apply settle_count in Hs as [->|Hs]; [by left|]. right.
    pose proof (parties_count balances members) as Hcount.
    rewrite (Permutation_length (sortParties_Permutation _)) in Hs.
    rewrite (Permutation_length (sortParties_Permutation (debtorsOf _ _))) in Hs.
    lia.
Qed.


(** The scenario of the spec: B and C each pay A 30.00. *)
Example suggest_ninety :
  suggest balNinety [memberA; memberB; memberC] =
    Some [mkSuggestion "B" "A" (Num.cents 3000); mkSuggestion "C" "A" (Num.cents 3000)].
Proof.
  closed_eq.
Qed.

(** C4 (counterexample): (1) in the spec's own scenario, applying the two
    suggestions the way the claim says (subtract from the from-member, add
    to the to-member) moves A from +60.00 to +120.00 and B from -30.00 to
    -60.00; (2) when A is owed 100.00 and B owes 50.00, the only
    suggestion is B pays A 50.00, and A stays 50.00 away from zero (150.00
    the way the claim applies it). *)
Lemma settlement_does_not_settle :
  (∃ sugs,
     suggest balNinety [memberA; memberB; memberC] = Some sugs ∧
     Num.orZero (foldl applyTransferAsStated balNinety sugs !! "A") = Num.cents 12000 ∧
     Num.orZero (foldl applyTransferAsStated balNinety sugs !! "B") = Num.cents (-6000) ∧
     ¬ (Num.abs (Num.orZero (foldl applyTransferAsStated balNinety sugs !! "A")) ≤ epsilon)) ∧
  (∃ sugs,
     suggest balUneven [memberA; memberB] = Some sugs ∧
     length sugs = 1%nat ∧
     Num.orZero (foldl applyTransferAsPaid balUneven sugs !! "A") = Num.cents 5000 ∧
     Num.orZero (foldl applyTransferAsStated balUneven sugs !! "A") = Num.cents 15000 ∧
     ¬ (Num.abs (Num.orZero (foldl applyTransferAsPaid balUneven sugs !! "A")) ≤ epsilon) ∧
     ¬ (Num.abs (Num.orZero (foldl applyTransferAsStated balUneven sugs !! "A")) ≤ epsilon)).
Proof.
  split.
  - eexists. split; [reflexivity|].
    repeat split; try (apply Qc_is_canon; reflexivity). by vm_compute.
  - eexists. split; [reflexivity|].
    repeat split; try (apply Qc_is_canon; reflexivity); by vm_compute.
Qed.

(** *** Order of the suggestions *)

(** C9 (amended): the suggestion list is a function of the balance map
    and of the order in which the members are supplied.  The creditors are
    the members whose balance is above 0.01 and the debtors those whose
    balance is below -0.01, each taken in the members' order with the
    magnitude of the balance as amount.  Sorting rearranges such a list so
    that the amounts do not increase, and it is stable: the parties of any
    one amount keep the order they had, so a tie is broken by the order of
    the members and never by member id.  When there is a creditor and a
    debtor, the first suggestion goes from the first debtor to the first
    creditor of the sorted lists.  When no two members share the same
    significant balance (beyond 0.01 in magnitude), every order of the
    same members gives the identical ordered list. *)
Theorem suggestions_order balances (members1 members2 : list GroupMember) :
  let balanceOf (m : GroupMember) := Num.orZero (balances !! member_id m) in
  creditorsOf balances members1 =
    ((λ m, mkParty (member_id m) (balanceOf m)) <$>
       filter (λ m, epsilon < balanceOf m) members1) ∧
  debtorsOf balances members1 =
    ((λ m, mkParty (member_id m) (Num.abs (balanceOf m))) <$>
       filter (λ m, balanceOf m < - epsilon) members1) ∧
  (∀ parties,
     sortParties parties ≡ₚ parties ∧
     StronglySorted descending (sortParties parties) ∧
     ∀ a, filter (λ p, party_amount p = a) (sortParties parties) =
          filter (λ p, party_amount p = a) parties) ∧
  (∀ c cs d ds,
     sortParties (creditorsOf balances members1) = c :: cs →
     sortParties (debtorsOf balances members1) = d :: ds →
     ∃ s rest, suggest balances members1 = Some (s :: rest) ∧
               from s = party_memberId d ∧ to s = party_memberId c) ∧
  (members1 ≡ₚ members2 →
   (∀ m1 m2, m1 ∈ members1 → m2 ∈ members1 →
             epsilon < Num.abs (balanceOf m1) →
             balanceOf m1 = balanceOf m2 →
             member_id m1 = member_id m2) →
   suggest balances members1 = suggest balances members2).
Proof.
  cbn zeta. split; [apply creditorsOf_filter|]. split; [apply debtorsOf_filter|].
  split; [|split].
  { intros parties. split; [apply sortParties_Permutation|].
    split; [apply sortParties_sorted | intros a; apply sortParties_stable]. }
  { intros c cs d ds Hc Hd.
    destruct (suggest_total balances members1) as [sugs Hs]. rewrite Hs.
    unfold suggest in Hs. rewrite Hc, Hd in Hs.
    apply settle_head in Hs as (s & rest & -> & Hfrom & Hto); [by exists s, rest| |].
    - pose proof (creditorsOf_significant balances members1) as H.
      rewrite <-(sortParties_Permutation (creditorsOf balances members1)), Hc in H.
      by apply Forall_cons in H as [H _].
    - pose proof (debtorsOf_significant balances members1) as H.
      rewrite <-(sortParties_Permutation (debtorsOf balances members1)), Hd in H.
      by apply Forall_cons in H as [H _]. }
  intros Hperm Hdistinct. unfold suggest.
  assert (sortParties (creditorsOf balances members1) =
          sortParties (creditorsOf balances members2)) as ->.
  { apply (StronglySorted_unique_strong descending); [|apply sortParties_sorted..|].
    - intros x1 x2 Hx1 Hx2 H12 H21.
      rewrite sortParties_Permutation in Hx1, Hx2.
      apply elem_of_creditorsOf in Hx1 as (m1 & Hm1 & -> & Hpos1).
      apply elem_of_creditorsOf in Hx2 as (m2 & Hm2 & -> & Hpos2).
      rewrite <-Hperm in Hm2. unfold descending in *. cbn [party_amount] in *.
      assert (Num.orZero (balances !! member_id m1) = Num.orZero (balances !! member_id m2))
        as Heq by by apply Qcle_antisym.
      assert (member_id m1 = member_id m2) as Hid.
      { apply Hdistinct; [done | done | by rewrite abs_of_pos | done]. }
      by rewrite Hid.
    - rewrite !sortParties_Permutation. unfold creditorsOf. by rewrite Hperm. }
  assert (sortParties (debtorsOf balances members1) =
          sortParties (debtorsOf balances members2)) as ->; [|done].
  apply (StronglySorted_unique_strong descending); [|apply sortParties_sorted..|].
  - intros x1 x2 Hx1 Hx2 H12 H21.
    rewrite sortParties_Permutation in Hx1, Hx2.
    apply elem_of_debtorsOf in Hx1 as (m1 & Hm1 & -> & Hneg1).
    apply elem_of_debtorsOf in Hx2 as (m2 & Hm2 & -> & Hneg2).
    rewrite <-Hperm in Hm2. unfold descending in *. cbn [party_amount] in *.
    destruct (abs_of_neg _ Hneg1) as [Habs1 Hbig1].
    destruct (abs_of_neg _ Hneg2) as [Habs2 Hbig2].
    assert (Num.orZero (balances !! member_id m1) = Num.orZero (balances !! member_id m2))
      as Heq.
    { apply (inj Qcopp). rewrite <-Habs1, <-Habs2. by apply Qcle_antisym. }
    assert (member_id m1 = member_id m2) as Hid by by apply Hdistinct.
    by rewrite Hid.
  - rewrite !sortParties_Permutation. unfold debtorsOf. by rewrite Hperm.
Qed.

(** With A owed 50.00, B owed 10.00, C owing 40.00 and D owing 20.00, the
    members supplied as A, B, C, D and as B, A, D, C give the same list,
    whose first suggestion is C paying A. *)
Lemma suggestions_order_witness :
  (∃ s rest,
     suggest balFour [memberB; memberA; memberD; memberC] = Some (s :: rest) ∧
     from s = "C" ∧ to s = "A") ∧
  suggest balFour [memberB; memberA; memberD; memberC] =
    suggest balFour [memberA; memberB; memberC; memberD].
Proof.
  destruct (suggestions_order balFour [memberB; memberA; memberD; memberC]
              [memberA; memberB; memberC; memberD]) as (_ & _ & _ & Hfirst & Hsame).
  split.
  - apply (Hfirst (mkParty "A" (Num.cents 5000)) [mkParty "B" (Num.cents 1000)]
                  (mkParty "C" (Num.cents 4000)) [mkParty "D" (Num.cents 2000)]);
      closed_eq.
  - apply Hsame.
    + etrans; [apply Permutation_swap|]. do 2 apply Permutation_skip.
      apply Permutation_swap.
    + intros m1 m2 Hm1 Hm2 _.
      apply list_elem_of_In in Hm1, Hm2. cbn [In] in Hm1, Hm2.
      destruct Hm1 as [<- | [<- | [<- | [<- | []]]]],
               Hm2 as [<- | [<- | [<- | [<- | []]]]]; try done;
        intros H; apply (f_equal this) in H; vm_compute in H; discriminate.
Defined.

(** C9 (counterexample): B and C owe the same 30.00.  With the members
    supplied as A, B, C the list starts with B's payment; supplied as
    A, C, B it starts with C's. *)
Lemma suggestions_depend_on_member_order :
  [memberA; memberB; memberC] ≡ₚ [memberA; memberC; memberB] ∧
  suggest balNinety [memberA; memberB; memberC] =
    Some [mkSuggestion "B" "A" (Num.cents 3000); mkSuggestion "C" "A" (Num.cents 3000)] ∧
  suggest balNinety [memberA; memberC; memberB] =
    Some [mkSuggestion "C" "A" (Num.cents 3000); mkSuggestion "B" "A" (Num.cents 3000)] ∧
  suggest balNinety [memberA; memberB; memberC] ≠
    suggest balNinety [memberA; memberC; memberB].
Proof.
  assert (H1 : suggest balNinety [memberA; memberB; memberC] =
    Some [mkSuggestion "B" "A" (Num.cents 3000); mkSuggestion "C" "A" (Num.cents 3000)])
    by closed_eq.
  assert (H2 : suggest balNinety [memberA; memberC; memberB] =
    Some [mkSuggestion "C" "A" (Num.cents 3000); mkSuggestion "B" "A" (Num.cents 3000)])
    by closed_eq.
  split; [by constructor; apply Permutation_swap|]. split; [done|]. split; [done|].
  rewrite H1, H2. intros [= ?].
Qed.

End settlement.

(** ** Dates *)

Section dates.

Local Open Scope Z_scope.

Lemma daysInMonth_bounds (y m : Z) : 28 ≤ daysInMonth y m ≤ 31.
Proof.
  unfold daysInMonth. destruct (m =? 1); [destruct (isLeapYear y); lia|].
  destruct (_ || _); lia.
Qed.

Lemma stamp_lt_iff (a b : Date) :
  validDate a → validDate b →
  stamp a < stamp b ↔
    (year a * 12 + month a) * 32 + day a < (year b * 12 + month b) * 32 + day b
    ∨ ((year a * 12 + month a) * 32 + day a = (year b * 12 + month b) * 32 + day b
       ∧ msOfDay a < msOfDay b).
Proof. unfold validDate, stamp, msPerDay. lia. Qed.

Lemma nextDay_valid (d : Date) : validDate d → validDate (nextDay d).
Proof.
  unfold validDate, nextDay. intros (Hm & Hd & Hms).
  destruct (Z.ltb_spec (day d) (daysInMonth (year d) (month d))); cbn [year month day msOfDay].
  - lia.
  - destruct (Z.eqb_spec (month d) 11); cbn [year month day msOfDay].
    + pose proof (daysInMonth_bounds (year d + 1) 0). lia.
    + pose proof (daysInMonth_bounds (year d) (month d + 1)). lia.
Qed.

Lemma nextDay_stamp (d : Date) : validDate d → stamp d < stamp (nextDay d).
Proof.
  unfold validDate, nextDay, stamp, msPerDay. intros (Hm & Hd & Hms).
  pose proof (daysInMonth_bounds (year d) (month d)).
  destruct (Z.ltb_spec (day d) (daysInMonth (year d) (month d))); cbn [year month day msOfDay].
  - lia.
  - destruct (Z.eqb_spec (month d) 11); cbn [year month day msOfDay]; lia.
Qed.

Lemma iter_nextDay (n : nat) (d : Date) :
  validDate d →
  validDate (Nat.iter n nextDay d) ∧ stamp d + Z.of_nat n ≤ stamp (Nat.iter n nextDay d).
Proof.
  intros Hd. induction n as [|n [IHv IHs]]; [cbn [Nat.iter nat_rect]; split; [done | lia]|].
  cbn [Nat.iter nat_rect]. fold (Nat.iter n nextDay d).
  split; [by apply nextDay_valid|]. pose proof (nextDay_stamp _ IHv). lia.
Qed.

Lemma addDays_later (d : Date) (n : Z) :
  validDate d → 1 ≤ n → validDate (addDays d n) ∧ stamp d < stamp (addDays d n).
Proof.
  intros Hd Hn. unfold addDays. rewrite (proj2 (Z.ltb_ge n 0)) by lia.
  destruct (iter_nextDay (Z.to_nat n) d Hd). split; [done | lia].
Qed.

Lemma addMonths_later (d : Date) (n : Z) :
  validDate d → 1 ≤ n → validDate (addMonths d n) ∧ stamp d < stamp (addMonths d n).
Proof.
  unfold validDate, addMonths, stamp, msPerDay. intros (Hm & Hd & Hms) Hn.
  set (mi := year d * 12 + month d + n).
  pose proof (daysInMonth_bounds (mi / 12) (mi mod 12)).
  pose proof (daysInMonth_bounds (year d) (month d)).
  pose proof (Z.mod_pos_bound mi 12 ltac:(lia)).
  pose proof (Z.div_mod mi 12 ltac:(lia)).
  destruct (Z.leb_spec (daysInMonth (mi / 12) (mi mod 12)) (day d));
    cbn [year month day msOfDay]; lia.
Qed.

Lemma prevDay_earlier (d : Date) :
  validDate d → validDate (prevDay d) ∧ stamp (prevDay d) < stamp d.
Proof.
  unfold validDate, prevDay, stamp, msPerDay. intros (Hm & Hd & Hms).
  pose proof (daysInMonth_bounds (year d) (month d)).
  destruct (Z.ltb_spec 1 (day d)); cbn [year month day msOfDay]; [lia|].
  destruct (Z.eqb_spec (month d) 0); cbn [year month day msOfDay].
  - change (daysInMonth (year d - 1) 11) with 31. lia.
  - pose proof (daysInMonth_bounds (year d) (month d - 1)). lia.
Qed.

Lemma iter_prevDay (n : nat) (d : Date) :
  validDate d →
  validDate (Nat.iter n prevDay d) ∧ stamp (Nat.iter n prevDay d) ≤ stamp d.
Proof.
  intros Hd. induction n as [|n [IHv IHs]]; [cbn [Nat.iter nat_rect]; split; [done | lia]|].
  rewrite Nat.iter_succ. destruct (prevDay_earlier _ IHv). split; [done | lia].
Qed.

(** The cutoff of the undo log lies before now. *)
Lemma cutoff_before (now : Date) :
  validDate now → isBefore now (addDays now (-7)) = false.
Proof.
  intros Hnow. unfold isBefore. change (addDays now (-7)) with (Nat.iter 7 prevDay now).
  destruct (iter_prevDay 7 now Hnow). apply Z.ltb_ge. lia.
Qed.

(** *** The date in UTC *)







End dates.

(** ** The recurrence planner *)

Section recurrence.

Context {tz : TimeZone}.

Implicit Types (p : RecurringExpense) (w : World) (t : Tables) (d cur now : Date).

Lemma getNextDate_later d (i : RecurringInterval) (value : Z) :
  validDate d → (1 ≤ value)%Z →
  validDate (getNextDate d i value) ∧ (stamp d < stamp (getNextDate d i value))%Z.
Proof.
  intros Hd Hv. destruct i; cbn [getNextDate]; unfold addWeeks;
    auto using addDays_later, addMonths_later.
  - apply addDays_later; [done | lia].
  - apply addDays_later; [done | lia].
Qed.

Lemma reached_bound now d :
  validDate d → validDate now → reached now d = true →
  (stamp d < stamp now + msPerDay)%Z.
Proof.
  unfold reached, isBefore, sameDateString, validDate, stamp, msPerDay.
  intros Hd Hnow [H|H]%orb_true_iff; [lia|].
  apply andb_true_iff in H as [[Hy%Z.eqb_eq Hm%Z.eqb_eq]%andb_true_iff Hday%Z.eqb_eq].
  rewrite Hy, Hm, Hday. lia.
Qed.

Lemma reached_iff now d :
  validDate d → validDate now →
  reached now d = true ↔
    ((year d * 12 + month d) * 32 + day d ≤ (year now * 12 + month now) * 32 + day now)%Z.
Proof.
  unfold reached, isBefore, sameDateString, validDate, stamp, msPerDay.
  intros Hd Hnow. rewrite orb_true_iff, !andb_true_iff, Z.ltb_lt, !Z.eqb_eq.
  pose proof (daysInMonth_bounds (year d) (month d)).
  pose proof (daysInMonth_bounds (year now) (month now)). lia.
Qed.

Lemma stamp_day_le (a b : Date) :
  validDate a → validDate b → (stamp a ≤ stamp b)%Z →
  ((year a * 12 + month a) * 32 + day a ≤ (year b * 12 + month b) * 32 + day b)%Z.
Proof. unfold validDate, stamp, msPerDay. lia. Qed.

(** A later [now] reaches at least the same occurrences. *)
Lemma reached_mono_now now1 now2 d :
  validDate d → validDate now1 → validDate now2 → (stamp now1 ≤ stamp now2)%Z →
  reached now1 d = true → reached now2 d = true.
Proof.
  intros Hd H1 H2 Hle. rewrite !reached_iff by done.
  pose proof (stamp_day_le _ _ H1 H2 Hle). lia.
Qed.


Lemma endsBefore_later p d d' :
  (stamp d ≤ stamp d')%Z → endsBefore p d = true → endsBefore p d' = true.
Proof.
  unfold endsBefore, isBefore. destruct (endDate p); [|done].
  rewrite !Z.ltb_lt. lia.
Qed.

Lemma materialize_ok now p d w t :
  db w = Some t → materialize now p d w = Ok (worldAfter now p w d).
Proof.
  intros Hdb. unfold materialize, createExpense, getDatabase, worldAfter, draw.
  rewrite Hdb. cbn [mbind result_bind occurrenceExpense draft_notes encryptNotes db
                    setTables encryptionKey keychain entropy drawn fmap option_fmap option_map].
  reflexivity.
Qed.

Lemma worldAfter_db now p w d t :
  db w = Some t → db (worldAfter now p w d) = Some (tablesAfter now (entropy w (drawn w)) p d t).
Proof. intros Hdb. unfold worldAfter. cbn [db]. by rewrite Hdb. Qed.

Lemma nextOccurrence_later p d :
  validDate d → (1 ≤ intervalValue p)%Z →
  validDate (nextOccurrence p d) ∧ (stamp d < stamp (nextOccurrence p d))%Z.
Proof. apply getNextDate_later. Qed.

Lemma occurrencesFrom_S p cur (n : nat) :
  occurrencesFrom p cur (S n) = cur :: occurrencesFrom p (nextOccurrence p cur) n.
Proof.
  unfold occurrencesFrom. cbn [seq fmap list_fmap Nat.iter nat_rect]. f_equal.
  rewrite <-fmap_S_seq, <-list_fmap_compose. apply list_fmap_ext.
  intros _ j _. cbn [compose]. apply Nat.iter_succ_r.
Qed.

Lemma length_occurrencesFrom p cur (n : nat) : length (occurrencesFrom p cur n) = n.
Proof. unfold occurrencesFrom. by rewrite length_fmap, length_seq. Qed.

(** What a run of the loop that returns has done: it went through the
    occurrences up to the first one that is not due. *)
Lemma generateLoop_spec (fuel : nat) now p cur g w t g' w' :
  db w = Some t →
  generateLoop fuel now p cur g w = Some (Ok (g', w')) →
  ∃ n : nat,
    (n < fuel)%nat ∧
    Forall (due now p) (occurrencesFrom p cur n) ∧
    ¬ due now p (Nat.iter n (nextOccurrence p) cur) ∧
    g' = g ++ (occurrenceExpense p <$> occurrencesFrom p cur n) ∧
    w' = foldl (worldAfter now p) w (occurrencesFrom p cur n).
Proof.
  revert cur g w t. induction fuel as [|fuel IH]; intros cur g w t Hdb; [done|].
  cbn [generateLoop]. destruct (reached now cur) eqn:Hr.
  - destruct (endsBefore p cur) eqn:He.
    + intros [= <- <-]. exists 0%nat. repeat split; [lia | constructor | | by rewrite app_nil_r].
      cbn. intros [_ ?]. congruence.
    + rewrite (materialize_ok now p cur w t Hdb). intros Hloop.
      eapply IH in Hloop as (n & Hn & Hdue & Hstop & -> & ->);
        [|by apply worldAfter_db].
      exists (S n). rewrite occurrencesFrom_S. repeat split.
      * lia.
      * by constructor.
      * by rewrite Nat.iter_succ_r.
      * by rewrite fmap_cons, <-app_assoc.
  - intros [= <- <-]. exists 0%nat. repeat split; [lia | constructor | | by rewrite app_nil_r].
    cbn. intros [? _]. congruence.
Qed.

(** With enough fuel the loop returns, having gone through the due
    occurrences. *)
Lemma generateLoop_complete (n fuel : nat) now p cur g w t :
  db w = Some t →
  Forall (due now p) (occurrencesFrom p cur n) →
  ¬ due now p (Nat.iter n (nextOccurrence p) cur) →
  (n < fuel)%nat →
  generateLoop fuel now p cur g w =
    Some (Ok (g ++ (occurrenceExpense p <$> occurrencesFrom p cur n),
              foldl (worldAfter now p) w (occurrencesFrom p cur n))).
Proof.
  revert fuel cur g w t. induction n as [|n IH]; intros fuel cur g w t Hdb Hdue Hstop Hfuel.
  - destruct fuel as [|fuel]; [lia|]. cbn [generateLoop]. cbn [Nat.iter nat_rect] in Hstop.
    change (occurrencesFrom p cur 0) with (@nil Date). cbn [fmap list_fmap foldl].
    rewrite app_nil_r. destruct (reached now cur) eqn:Hr; [|done].
    destruct (endsBefore p cur) eqn:He; [done|]. by destruct Hstop.
  - destruct fuel as [|fuel]; [lia|]. rewrite occurrencesFrom_S in *.
    apply Forall_cons in Hdue as [[Hr He] Hdue]. cbn [generateLoop].
    rewrite Hr, He, (materialize_ok now p cur w t Hdb).
    rewrite Nat.iter_succ_r in Hstop.
    erewrite IH; [|by apply worldAfter_db|done|done|lia].
    by rewrite fmap_cons, <-app_assoc.
Qed.

(** On valid dates and with a positive interval value, only finitely many
    occurrences are due. *)
Lemma due_finite now p cur :
  validDate now → validDate cur → (1 ≤ intervalValue p)%Z →
  ∃ n : nat, Forall (due now p) (occurrencesFrom p cur n) ∧
             ¬ due now p (Nat.iter n (nextOccurrence p) cur).
Proof.
  intros Hnow Hcur Hv.
  remember (Z.to_nat (stamp now + msPerDay - stamp cur)) as m eqn:Hm.
  revert cur Hcur Hm. induction m as [m IH] using lt_wf_ind. intros cur Hcur Hm.
  destruct (reached now cur) eqn:Hr; [destruct (endsBefore p cur) eqn:He|].
  - exists 0%nat. split; [constructor|]. cbn. intros [_ ?]. congruence.
  - destruct (nextOccurrence_later p cur Hcur Hv) as [Hv' Hlt].
    pose proof (reached_bound now cur Hcur Hnow Hr) as Hb.
    destruct (IH (Z.to_nat (stamp now + msPerDay - stamp (nextOccurrence p cur))) ltac:(lia)
                 (nextOccurrence p cur) Hv' eq_refl) as (n & Hdue & Hstop).
    exists (S n). rewrite occurrencesFrom_S, Nat.iter_succ_r. split; [by constructor | done].
  - exists 0%nat. split; [constructor|]. cbn. intros [? _]. congruence.
Qed.

(** The occurrences from a valid date are valid and increase. *)
Lemma occurrences_increase p cur (i j : nat) :
  validDate cur → (1 ≤ intervalValue p)%Z → (i ≤ j)%nat →
  validDate (Nat.iter j (nextOccurrence p) cur) ∧
  (stamp (Nat.iter i (nextOccurrence p) cur) ≤ stamp (Nat.iter j (nextOccurrence p) cur))%Z.
Proof.
  intros Hcur Hv Hij. induction Hij as [|j Hij [IHv IHs]].
  - split; [|lia]. induction i as [|i IHi]; [done|].
    rewrite Nat.iter_succ. by apply nextOccurrence_later.
  - rewrite Nat.iter_succ.
    destruct (nextOccurrence_later p _ IHv Hv) as [? ?].
    split; [done | lia].
Qed.

Lemma Forall_occurrencesFrom (P : Date → Prop) p cur (n : nat) :
  Forall P (occurrencesFrom p cur n) ↔ ∀ j : nat, (j < n)%nat → P (Nat.iter j (nextOccurrence p) cur).
Proof.
  unfold occurrencesFrom. rewrite Forall_fmap, Forall_seq. cbn [compose].
  split; intros H j Hj; apply H; lia.
Qed.


Lemma advanceRule_twice now p d d' (r : RecurringExpense) :
  advanceRule now p d' (advanceRule now p d r) = advanceRule now p d' r.
Proof.
  unfold advanceRule. destruct (String.eqb (rec_id r) (rec_id p)) eqn:Hr; [|by rewrite Hr].
  cbn [advanced rec_id]. by rewrite String.eqb_refl.
Qed.

(** The world after the loop went through the occurrences [ds]. *)
Lemma foldl_worldAfter now p (ds : list Date) w t :
  db w = Some t →
  foldl (worldAfter now p) w ds =
    mkWorld (Some (mkTables
                     (reverse (imap (λ j d, occurrenceRow now (entropy w (drawn w + j)) p d) ds)
                        ++ expenses t)
                     (expense_splits t) (payments t)
                     (match last ds with
                      | Some d => advanceRule now p d <$> recurring_expenses t
                      | None => recurring_expenses t
                      end)
                     (undo_history t)))
            (encryptionKey w) (keychain w) (entropy w) (drawn w + length ds).
Proof.
  revert w t. induction ds as [|d ds IH]; intros w t Hdb.
  - cbn [foldl imap reverse rev_append app last length]. destruct w, t. cbn in *.
    rewrite Nat.add_0_r. by subst.
  - cbn [foldl]. rewrite (IH _ _ (worldAfter_db now p w d t Hdb)).
    unfold worldAfter. cbn [encryptionKey keychain entropy drawn length].
    f_equal; [|lia]. f_equal.
    unfold tablesAfter, UPDATE_RECURRING, INSERT_EXPENSE, withExpenses.
    cbn [expenses expense_splits payments recurring_expenses undo_history imap].
    f_equal.
    + rewrite reverse_cons, <-app_assoc. cbn [app]. f_equal.
      * f_equal. apply imap_ext. intros j x _. cbn [compose]. do 2 f_equal. lia.
      * by rewrite Nat.add_0_r.
    + destruct ds as [|d' ds]; [done|].
      change (last (d :: d' :: ds)) with (last (d' :: ds)).
      destruct (last (d' :: ds)) as [dl|] eqn:Hl; [|by apply last_None in Hl].
      rewrite <-list_fmap_compose. apply list_fmap_ext. intros _ r _.
      cbn [compose]. apply (advanceRule_twice now p d dl r).
Qed.




(** *** Runs after runs *)

Lemma endsBefore_advanced now p d x :
  endsBefore (advanced now p d) x = endsBefore p x.
Proof. done. Qed.

Lemma nextOccurrence_advanced now p d x :
  nextOccurrence (advanced now p d) x = nextOccurrence p x.
Proof. done. Qed.

Lemma occurrence_advanced now p d (k : nat) :
  occurrence (advanced now p d) k = Nat.iter k (nextOccurrence p) d.
Proof.
  unfold occurrence. cbn [advanced lastGenerated default].
  induction k as [|k IH]; [done|]. by rewrite !Nat.iter_succ, IH.
Qed.

Lemma occurrencesFrom_advanced now p d cur (n : nat) :
  occurrencesFrom (advanced now p d) cur n = occurrencesFrom p cur n.
Proof.
  unfold occurrencesFrom. apply list_fmap_ext. intros _ j _.
  induction j as [|j IH]; [done|]. by rewrite !Nat.iter_succ, IH.
Qed.

Lemma due_advanced now now' p d x : due now' (advanced now p d) x ↔ due now' p x.
Proof. done. Qed.

Lemma quiet_run (fuel : nat) now p g w :
  quiet now p → generateForPattern (S fuel) now p g w = Some (Ok (g, w)).
Proof.
  intros [Hended|Hstop]; unfold generateForPattern; [by rewrite Hended|].
  destruct (endsBefore p now); [done|].
  change (getNextDate (default (startDate p) (lastGenerated p)) (interval p) (intervalValue p))
    with (occurrence p 1).
  cbn [generateLoop]. destruct (reached now (occurrence p 1)) eqn:Hr; [|done].
  destruct (endsBefore p (occurrence p 1)) eqn:He; [done|]. by destruct Hstop.
Qed.

Lemma last_occurrencesFrom p cur (n : nat) :
  last (occurrencesFrom p cur (S n)) = Some (Nat.iter n (nextOccurrence p) cur).
Proof.
  unfold occurrencesFrom. rewrite seq_S, fmap_app. cbn [fmap list_fmap]. by rewrite last_snoc.
Qed.

(** What processing one rule does to the table of rules: the rows with
    the rule's id are advanced, and a run at the same time has nothing
    left to do on them. *)
Lemma generateForPattern_effect (fuel : nat) now p g w t g' w' :
  db w = Some t →
  generateForPattern fuel now p g w = Some (Ok (g', w')) →
  ∃ t' (f : RecurringExpense → RecurringExpense),
    db w' = Some t' ∧
    recurring_expenses t' = f <$> recurring_expenses t ∧
    (∀ r, rec_id (f r) = rec_id r) ∧
    (∀ r, rec_id r ≠ rec_id p → f r = r) ∧
    quiet now (f p).
Proof.
  intros Hdb. unfold generateForPattern. destruct (endsBefore p now) eqn:Hended.
  { intros [= <- <-]. exists t, (λ r, r). rewrite list_fmap_id. repeat split; try done.
    by left. }
  change (getNextDate (default (startDate p) (lastGenerated p)) (interval p) (intervalValue p))
    with (occurrence p 1).
  intros (n & _ & Hdue & Hstop & -> & ->)%(generateLoop_spec _ _ _ _ _ _ t); [|done].
  destruct n as [|n].
  { exists t, (λ r, r). rewrite list_fmap_id. repeat split; try done. by right. }
  rewrite (foldl_worldAfter now p _ w t Hdb), last_occurrencesFrom.
  eexists _, (advanceRule now p (Nat.iter n (nextOccurrence p) (occurrence p 1))).
  cbn [db recurring_expenses]. repeat split.
  - intros r. unfold advanceRule. destruct (String.eqb_spec (rec_id r) (rec_id p)); [|done].
    by cbn.
  - intros r Hr. unfold advanceRule. by rewrite (proj2 (String.eqb_neq _ _)).
  - right. unfold advanceRule. rewrite String.eqb_refl, due_advanced, occurrence_advanced.
    by rewrite Nat.iter_succ.
Qed.

Lemma fmap_other_ids (f : RecurringExpense → RecurringExpense) p (l : list RecurringExpense) :
  (∀ r, rec_id r ≠ rec_id p → f r = r) →
  rec_id p ∉ rec_id <$> l → f <$> l = l.
Proof.
  intros Hf Hp. rewrite <-(list_fmap_id l) at 2. apply list_fmap_ext.
  intros _ r Hr%list_elem_of_lookup_2. apply Hf. intros Heq. apply Hp.
  rewrite <-Heq. by apply list_elem_of_fmap_2.
Qed.

(** After a run over all rules, every rule in the table is quiet. *)
Lemma generateAll_quiet (fuel : nat) now (ps done : list RecurringExpense) g w t g' w' :
  db w = Some t →
  recurring_expenses t = done ++ ps →
  NoDup (rec_id <$> done ++ ps) →
  Forall (quiet now) done →
  generateAll fuel now ps g w = Some (Ok (g', w')) →
  ∃ t', db w' = Some t' ∧ Forall (quiet now) (recurring_expenses t').
Proof.
  revert done g w t. induction ps as [|p ps IH]; intros done g w t Hdb Ht Hnd Hq.
  - intros [= <- <-]. exists t. rewrite Ht, app_nil_r. done.
  - cbn [generateAll].
    destruct (generateForPattern fuel now p g w) as [[[g1 w1]|]|] eqn:Hp; [|done..].
    destruct (generateForPattern_effect _ _ _ _ _ _ _ _ Hdb Hp)
      as (t1 & f & Hdb1 & Ht1 & Hid & Hother & Hquiet).
    rewrite fmap_app, fmap_cons in Hnd.
    apply NoDup_app in Hnd as (Hnd1 & Hdisj & Hnd2).
    apply NoDup_cons in Hnd2 as [Hp2 Hnd2].
    apply (IH (done ++ [f p]) g1 w1 t1 Hdb1).
    + rewrite Ht1, Ht, fmap_app, fmap_cons, <-app_assoc. cbn [app].
      rewrite (fmap_other_ids f p done), (fmap_other_ids f p ps); try done.
      intros Hin. apply (Hdisj _ Hin). by left.
    + rewrite <-app_assoc. cbn [app]. rewrite fmap_app, fmap_cons, Hid.
      apply NoDup_app. repeat split; [done | done |]. by apply NoDup_cons.
    + apply Forall_app. split; [done|]. by constructor.
Qed.

Lemma generateAll_nothing (fuel : nat) now (ps : list RecurringExpense) g w :
  Forall (quiet now) ps → generateAll (S fuel) now ps g w = Some (Ok (g, w)).
Proof.
  induction 1 as [|p ps Hp _ IH]; [done|]. cbn [generateAll]. by rewrite quiet_run.
Qed.

Lemma occurrencesFrom_app p cur (n m : nat) :
  occurrencesFrom p cur (n + m) =
    occurrencesFrom p cur n ++ occurrencesFrom p (Nat.iter n (nextOccurrence p) cur) m.
Proof.
  revert cur. induction n as [|n IH]; intros cur; [done|].
  cbn [Nat.add]. rewrite !occurrencesFrom_S, IH. cbn [app]. by rewrite Nat.iter_succ_r.
Qed.

Lemma orNull_orNull (o : option string) : orNull (orNull o) = orNull o.
Proof. unfold orNull. by destruct (truthy o) eqn:H; [rewrite H|]. Qed.

Lemma persistedFields_advanced now p d x :
  persistedFields (occurrenceExpense (advanced now p d) x) =
    persistedFields (occurrenceExpense p x).
Proof.
  unfold persistedFields, occurrenceExpense. cbn. by rewrite orNull_orNull.
Qed.

(** A run at [now2] after a run at an earlier [now1] completes what the run
    at [now1] left, for a rule that has not ended at [now2]. *)
Lemma generateForPattern_replay (fuel : nat) now1 now2 p w t g w' :
  db w = Some t → validDate now1 → validDate now2 → validDate (occurrence p 0) →
  (1 ≤ intervalValue p)%Z → (stamp now1 ≤ stamp now2)%Z → endsBefore p now2 = false →
  generateForPattern fuel now2 p [] w = Some (Ok (g, w')) →
  ∃ g1 w1 p1 g2 w2,
    generateForPattern fuel now1 p [] w = Some (Ok (g1, w1)) ∧
    ((g1 = [] ∧ p1 = p ∧ w1 = w) ∨
     (∃ d tbl', p1 = advanced now1 p d ∧ db w1 = Some tbl' ∧
               recurring_expenses tbl' = advanceRule now1 p d <$> recurring_expenses t)) ∧
    generateForPattern fuel now2 p1 [] w1 = Some (Ok (g2, w2)) ∧
    persistedFields <$> g = persistedFields <$> (g1 ++ g2).
Proof.
  intros Hdb Hnow1 Hnow2 Hstart Hv Hle Hended2 Hrun.
  assert (Hended1 : endsBefore p now1 = false).
  { destruct (endsBefore p now1) eqn:He; [|done].
    by rewrite (endsBefore_later p _ _ Hle He) in Hended2. }
  destruct (nextOccurrence_later p _ Hstart Hv) as [Hv1 _].
  change (nextOccurrence p (occurrence p 0)) with (occurrence p 1) in Hv1.
  assert (Hdirect := Hrun). unfold generateForPattern in Hrun. rewrite Hended2 in Hrun.
  change (getNextDate (default (startDate p) (lastGenerated p)) (interval p) (intervalValue p))
    with (occurrence p 1) in Hrun.
  apply (generateLoop_spec _ _ _ _ _ _ t) in Hrun as (n2 & Hfuel & Hdue2 & Hstop2 & Hg & _);
    [|done]. cbn [app] in Hg.
  destruct (due_finite now1 p (occurrence p 1) Hnow1 Hv1 Hv) as (n1 & Hdue1 & Hstop1).
  assert (Hn : (n1 ≤ n2)%nat).
  { destruct (decide (n1 ≤ n2)%nat) as [|Hgt]; [done|]. exfalso. apply Hstop2.
    rewrite Forall_occurrencesFrom in Hdue1. destruct (Hdue1 n2 ltac:(lia)) as [Hr He].
    split; [|done].
    destruct (occurrences_increase p (occurrence p 1) n2 n2 Hv1 Hv (le_n _)) as [Hvn _].
    by apply (reached_mono_now now1 now2). }
  pose proof (generateLoop_complete n1 fuel now1 p (occurrence p 1) [] w t Hdb Hdue1 Hstop1
                ltac:(lia)) as Hrun1.
  destruct n1 as [|m].
  - exists [], w, p, g, w'. split; [|split; [by left|split; [done|done]]].
    unfold generateForPattern. rewrite Hended1. exact Hrun1.
  - set (d := Nat.iter m (nextOccurrence p) (occurrence p 1)).
    set (w1 := foldl (worldAfter now1 p) w (occurrencesFrom p (occurrence p 1) (S m))) in *.
    assert (Hw1 : w1 = foldl (worldAfter now1 p) w (occurrencesFrom p (occurrence p 1) (S m)))
      by done.
    rewrite (foldl_worldAfter now1 p _ w t Hdb), last_occurrencesFrom in Hw1. fold d in Hw1.
    assert (Hcur : occurrence (advanced now1 p d) 1
                   = Nat.iter (S m) (nextOccurrence p) (occurrence p 1)).
    { by rewrite occurrence_advanced. }
    assert (Hdue : Forall (due now2 (advanced now1 p d))
                     (occurrencesFrom (advanced now1 p d) (occurrence (advanced now1 p d) 1)
                                      (n2 - S m))).
    { rewrite occurrencesFrom_advanced, Hcur, Forall_occurrencesFrom. intros j Hj.
      rewrite due_advanced, <-Nat.iter_add.
      rewrite Forall_occurrencesFrom in Hdue2. apply Hdue2. lia. }
    assert (Hstop : ¬ due now2 (advanced now1 p d)
                      (Nat.iter (n2 - S m) (nextOccurrence (advanced now1 p d))
                                (occurrence (advanced now1 p d) 1))).
    { rewrite due_advanced, Hcur.
      replace (Nat.iter (n2 - S m) (nextOccurrence (advanced now1 p d)))
        with (Nat.iter (n2 - S m) (nextOccurrence p)) by done.
      rewrite <-Nat.iter_add. by replace (n2 - S m + S m)%nat with n2 by lia. }
    eexists _, w1, (advanced now1 p d), _, _. split; [|split; [|split]].
    + unfold generateForPattern. rewrite Hended1. exact Hrun1.
    + right. eexists d, _. split; [done|]. rewrite Hw1. cbn [db recurring_expenses]. done.
    + unfold generateForPattern. rewrite endsBefore_advanced, Hended2.
      change (getNextDate (default (startDate (advanced now1 p d))
                                   (lastGenerated (advanced now1 p d)))
                (interval (advanced now1 p d)) (intervalValue (advanced now1 p d)))
        with (occurrence (advanced now1 p d) 1).
      eapply (generateLoop_complete (n2 - S m)); [|exact Hdue|exact Hstop|lia].
      rewrite Hw1. reflexivity.
    + rewrite Hg. cbn [app]. rewrite occurrencesFrom_advanced, Hcur.
      replace n2 with (S m + (n2 - S m))%nat at 1 by lia.
      rewrite occurrencesFrom_app, !fmap_app. f_equal.
      rewrite <-!list_fmap_compose. apply list_fmap_ext. intros _ x _. cbn [compose].
      symmetry. apply persistedFields_advanced.
Qed.

(** C5 (amended): (1) on an initialised database whose rules have
    distinct ids, a run that returns is followed, at the same time, by a
    run that creates nothing and changes nothing; (2) for a rule with a
    positive interval value that has not ended at the later time, a run
    at an earlier time followed by a run at the later time, on the rule
    as the first run stored it, materialises the same expenses as the
    run at the later time alone: [lastGenerated] is written after each
    occurrence.  A rule whose end date lies before the later time is
    skipped by that run, so for it the result does depend on the earlier
    runs. *)
Theorem planner_idempotent_and_replayable :
  (∀ (fuel fuel' : nat) now w t g1 w1,
     db w = Some t →
     NoDup (rec_id <$> recurring_expenses t) →
     generateRecurringExpenses fuel now w = Some (Ok (g1, w1)) →
     generateRecurringExpenses (S fuel') now w1 = Some (Ok ([], w1))) ∧
  (∀ (fuel : nat) now1 now2 p w t g w',
     db w = Some t → validDate now1 → validDate now2 → validDate (occurrence p 0) →
     (1 ≤ intervalValue p)%Z → (stamp now1 ≤ stamp now2)%Z → endsBefore p now2 = false →
     generateForPattern fuel now2 p [] w = Some (Ok (g, w')) →
     ∃ g1 w1 p1 g2 w2,
       generateForPattern fuel now1 p [] w = Some (Ok (g1, w1)) ∧
       ((g1 = [] ∧ p1 = p ∧ w1 = w) ∨
        (∃ d tbl', p1 = advanced now1 p d ∧ db w1 = Some tbl' ∧
                  recurring_expenses tbl' = advanceRule now1 p d <$> recurring_expenses t)) ∧
       generateForPattern fuel now2 p1 [] w1 = Some (Ok (g2, w2)) ∧
       persistedFields <$> g = persistedFields <$> (g1 ++ g2)).
Proof.
  split; [|apply generateForPattern_replay].
  intros fuel fuel' now w t g1 w1 Hdb Hnd.
  unfold generateRecurringExpenses, getAllRecurringExpenses, getDatabase.
  rewrite Hdb. cbn [mbind result_bind GET_ALL_RECURRING]. intros Hrun.
  destruct (generateAll_quiet fuel now (recurring_expenses t) [] [] w t g1 w1)
    as (tbl1 & Hdb1 & Hquiet); try done.
  rewrite Hdb1. by apply generateAll_nothing.
Qed.

End recurrence.

(** *** The rules of the examples, on a device in UTC *)

Section recurrence_utc.

#[local] Existing Instance utc.


Lemma planner_idempotent_and_replayable_witness :
  (∃ g1 w1,
     generateRecurringExpenses 10 april15 (worldWith [ruleMonthly]) = Some (Ok (g1, w1)) ∧
     length g1 = 3%nat ∧
     generateRecurringExpenses 1 april15 w1 = Some (Ok ([], w1))) ∧
  (∃ g w',
     generateForPattern 10 april15 ruleMonthly [] (worldWith [ruleMonthly])
       = Some (Ok (g, w')) ∧
     ∃ g1 w1 p1 g2 w2,
       generateForPattern 10 february15 ruleMonthly [] (worldWith [ruleMonthly])
         = Some (Ok (g1, w1)) ∧
       ((g1 = [] ∧ p1 = ruleMonthly ∧ w1 = worldWith [ruleMonthly]) ∨
        (∃ d tbl', p1 = advanced february15 ruleMonthly d ∧ db w1 = Some tbl' ∧
                  recurring_expenses tbl' = advanceRule february15 ruleMonthly d <$> [ruleMonthly])) ∧
       generateForPattern 10 april15 p1 [] w1 = Some (Ok (g2, w2)) ∧
       persistedFields <$> g = persistedFields <$> (g1 ++ g2)).
Proof.
  split.
  - eexists _, _. split; [vm_compute; reflexivity|]. split; [reflexivity|].
    eapply (proj1 planner_idempotent_and_replayable 10%nat 0%nat april15
              (worldWith [ruleMonthly]) (mkTables [] [] [] [ruleMonthly] [])).
    + reflexivity.
    + apply (bool_decide_unpack _). by vm_compute.
    + vm_compute. reflexivity.
  - eexists _, _. split; [vm_compute; reflexivity|].
    eapply (proj2 planner_idempotent_and_replayable 10%nat february15 april15 ruleMonthly
              (worldWith [ruleMonthly]) (mkTables [] [] [] [ruleMonthly] [])).
    + reflexivity.
    + vm_compute. repeat split; first [reflexivity | discriminate].
    + vm_compute. repeat split; first [reflexivity | discriminate].
    + vm_compute. repeat split; first [reflexivity | discriminate].
    + vm_compute. discriminate.
    + vm_compute. discriminate.
    + reflexivity.
    + vm_compute. reflexivity.
Defined.

(** C5 (counterexample): the monthly rule with an end date of 2024-03-15.
    Run on 2024-02-15 and again on 2024-04-15, it has materialised the
    expense of 2024-02-01; run on 2024-04-15 only, it has materialised
    nothing. *)
Lemma replay_depends_on_earlier_runs :
  (∃ g1 w1 g2 w2,
     generateRecurringExpenses 10 february15 (worldWith [ruleEnding]) = Some (Ok (g1, w1)) ∧
     generateRecurringExpenses 10 april15 w1 = Some (Ok (g2, w2)) ∧
     datesOf (g1 ++ g2) = ["2024-02-01"]) ∧
  (∃ g w',
     generateRecurringExpenses 10 april15 (worldWith [ruleEnding]) = Some (Ok (g, w')) ∧
     datesOf g = []).
Proof.
  split.
  - eexists _, _, _, _. split; [vm_compute; reflexivity|].
    split; [vm_compute; reflexivity|]. by vm_compute.
  - eexists _, _. split; [vm_compute; reflexivity|]. by vm_compute.
Qed.

End recurrence_utc.



(** ** The encryption key *)

Section crypto.

Implicit Types (w : World) (key : string).

Lemma requireKey_ready w key :
  encryptionKey w = Some key → key ≠ "" → requireKey w = Ok (key, w).
Proof.
  intros Hk Hne. unfold requireKey, noKey. rewrite Hk. cbn [truthy].
  rewrite (proj2 (String.eqb_neq key "")) by done. cbn [negb mbind result_bind].
  rewrite Hk. cbn [truthy]. by rewrite (proj2 (String.eqb_neq key "")).
Qed.

(** No call of [encrypt] or [decrypt] returns. *)
Lemma encrypt_fails plaintext w : ∃ e, encrypt plaintext w = Err e.
Proof. unfold encrypt. destruct (requireKey w) as [[key w']|e]; by eexists. Qed.

Lemma decrypt_fails c w : ∃ e, decrypt c w = Err e.
Proof. unfold decrypt. destruct (requireKey w) as [[key w']|e]; by eexists. Qed.




End crypto.

(** ** The personal expense service *)

Section expenses.

Context {tz : TimeZone}.

Implicit Types (w : World) (t : Tables) (key : string).

Lemma initEncryptionKey_db w w' : initEncryptionKey w = Ok w' → db w' = db w.
Proof.
  unfold initEncryptionKey. destruct (keychain w) as [[k|]|e]; [| |done]; by intros [= <-].
Qed.

Lemma requireKey_db w key w' : requireKey w = Ok (key, w') → db w' = db w.
Proof.
  unfold requireKey. destruct (noKey w).
  - destruct (initEncryptionKey w) as [w1|] eqn:Hinit; [|done]. cbn [mbind result_bind].
    destruct (encryptionKey w1); [|done]. destruct (noKey w1); [done|].
    intros [= _ <-]. by apply initEncryptionKey_db.
  - cbn [mbind result_bind]. destruct (encryptionKey w); [|done].
    destruct (noKey w); [done|]. by intros [= _ <-].
Qed.

(** The notes are encrypted only when there are none. *)
Lemma encryptNotes_inv (notes : option string) w c w' :
  encryptNotes notes w = Ok (c, w') → truthy notes = false ∧ c = None ∧ w' = w.
Proof.
  unfold encryptNotes. destruct notes as [n|]; [|by intros [= <- <-]].
  destruct (truthy (Some n)); [|by intros [= <- <-]].
  by destruct (encrypt_fails n w) as [e ->].
Qed.

Lemma encryptNotes_none (notes : option string) w :
  truthy notes = false → encryptNotes notes w = Ok (None, w).
Proof. unfold encryptNotes. destruct notes as [n|]; [|done]. by intros ->. Qed.

Lemma encryptNotes_some (notes : option string) w :
  truthy notes = true → ∃ e, encryptNotes notes w = Err e.
Proof.
  unfold encryptNotes. destruct notes as [n|]; [|done]. intros ->.
  destruct (encrypt_fails n w) as [e ->]. by exists e.
Qed.

(** Stored notes are never read. *)
Lemma decryptNotes_inv (c : option ciphertext) w n w' :
  decryptNotes c w = Ok (n, w') → c = None ∧ n = None ∧ w' = w.
Proof.
  unfold decryptNotes. destruct c as [c|]; [|by intros [= <- <-]].
  by destruct (decrypt_fails c w) as [e ->].
Qed.

Lemma decryptNotes_some (c : ciphertext) w : ∃ e, decryptNotes (Some c) w = Err e.
Proof. unfold decryptNotes. destruct (decrypt_fails c w) as [e ->]. by exists e. Qed.

(** What a successful [createExpense] has written and returned. *)
Lemma createExpense_inv now (expense : ExpenseDraft) w (e : Expense) w' :
  createExpense now expense w = Ok (e, w') →
  ∃ t,
    db w = Some t ∧ truthy (draft_notes expense) = false ∧
    w' = setTables
           (INSERT_EXPENSE
              (mkRow (entropy w (drawn w)) (draft_amount expense)
                     (draft_currencyCode expense) (draft_category expense)
                     (orNull (draft_description expense)) None (draft_date expense)
                     None None now now) t) (draw w).2 ∧
    e = mkExpense (entropy w (drawn w)) (draft_amount expense) (draft_currencyCode expense)
                  (draft_baseAmount expense) (draft_category expense)
                  (draft_description expense) (draft_notes expense) (draft_date expense)
                  (draft_groupId expense) (draft_paidByMemberId expense) now now.
Proof.
  unfold createExpense, getDatabase. destruct (db w) as [t|] eqn:Hdb; [|done].
  cbn [mbind result_bind draw].
  destruct (encryptNotes _ _) as [[c w1]|] eqn:Henc; [|done]. cbn [mbind result_bind].
  apply encryptNotes_inv in Henc as (Hn & -> & ->). cbn [db]. rewrite Hdb.
  cbn [mbind result_bind]. intros [= <- <-]. exists t. by repeat split.
Qed.

(** With notes [createExpense] throws, and nothing is written; without,
    it writes one row. *)
Lemma createExpense_ok now (expense : ExpenseDraft) w t :
  db w = Some t → truthy (draft_notes expense) = false →
  createExpense now expense w =
    Ok (mkExpense (entropy w (drawn w)) (draft_amount expense) (draft_currencyCode expense)
                  (draft_baseAmount expense) (draft_category expense)
                  (draft_description expense) (draft_notes expense) (draft_date expense)
                  (draft_groupId expense) (draft_paidByMemberId expense) now now,
        setTables
          (INSERT_EXPENSE
             (mkRow (entropy w (drawn w)) (draft_amount expense)
                    (draft_currencyCode expense) (draft_category expense)
                    (orNull (draft_description expense)) None (draft_date expense)
                    None None now now) t) (draw w).2).
Proof.
  intros Hdb Hn. unfold createExpense, getDatabase. rewrite Hdb.
  cbn [mbind result_bind draw]. rewrite (encryptNotes_none _ _ Hn).
  cbn [mbind result_bind db]. by rewrite Hdb.
Qed.

Lemma createExpense_notes now (expense : ExpenseDraft) w :
  truthy (draft_notes expense) = true → ∃ e, createExpense now expense w = Err e.
Proof.
  intros Hn. unfold createExpense, getDatabase. destruct (db w) as [t|]; [|by eexists].
  cbn [mbind result_bind draw].
  match goal with |- context [encryptNotes ?n ?w0] =>
    destruct (encryptNotes_some n w0 Hn) as [e ->] end.
  by exists e.
Qed.

(** What a successful [updateExpense] has read and written. *)
Lemma updateExpense_inv now (id0 : string) (updates : ExpenseUpdates) w (e : Expense) w' :
  updateExpense now id0 updates w = Ok (e, w') →
  ∃ t r rest,
    db w = Some t ∧ GET_EXPENSE_BY_ID id0 t = r :: rest ∧
    row_notes_encrypted r = None ∧
    e = mergeUpdates (expenseOfRow r) updates now ∧
    truthy (notes e) = false ∧
    w' = setTables (UPDATE_EXPENSE (amount e) (currencyCode e) (category e)
                      (orNull (description e)) None (date e) None None now id0 t) w.
Proof.
  unfold updateExpense, getExpenseById, getDatabase.
  destruct (db w) as [t|] eqn:Hdb; [|done]. cbn [mbind result_bind].
  destruct (GET_EXPENSE_BY_ID id0 t) as [|row rows] eqn:Hget; [done|].
  destruct (decryptNotes _ w) as [[n w1]|] eqn:Hdec; [|done]. cbn [mbind result_bind].
  apply decryptNotes_inv in Hdec as (Hc & -> & ->).
  destruct (encryptNotes _ w) as [[c w2]|] eqn:Henc; [|done]. cbn [mbind result_bind].
  apply encryptNotes_inv in Henc as (Hn & -> & ->). rewrite Hdb. cbn [mbind result_bind].
  intros [= <- <-]. exists t, row, rows. by repeat split.
Qed.

Lemma updateExpense_ok now (id0 : string) (updates : ExpenseUpdates) w t
    (r : ExpenseRow) (rest : list ExpenseRow) :
  db w = Some t → GET_EXPENSE_BY_ID id0 t = r :: rest →
  row_notes_encrypted r = None →
  truthy (notes (mergeUpdates (expenseOfRow r) updates now)) = false →
  updateExpense now id0 updates w =
    Ok (mergeUpdates (expenseOfRow r) updates now,
        setTables (UPDATE_EXPENSE
                     (amount (mergeUpdates (expenseOfRow r) updates now))
                     (currencyCode (mergeUpdates (expenseOfRow r) updates now))
                     (category (mergeUpdates (expenseOfRow r) updates now))
                     (orNull (description (mergeUpdates (expenseOfRow r) updates now)))
                     None
                     (date (mergeUpdates (expenseOfRow r) updates now))
                     None None now id0 t) w).
Proof.
  intros Hdb Hrow Hc Hn. unfold updateExpense, getExpenseById, getDatabase.
  rewrite Hdb. cbn [mbind result_bind]. rewrite Hrow, Hc. cbn [decryptNotes mbind result_bind].
  fold (expenseOfRow r). rewrite (encryptNotes_none _ _ Hn). cbn [mbind result_bind].
  by rewrite Hdb.
Qed.

(** C10: whatever the input says, the rows written by [createExpense] and
    [updateExpense] have no group and no payer.  So the expenses the
    planner materialises for a rule that carries a group id, and the
    expense re-inserted when a delete is undone, are stored without group
    and payer (while the object [createExpense] returns still carries the
    input's group id). *)
Theorem personal_rows_have_no_group :
  (∀ now (expense : ExpenseDraft) w (e : Expense) w',
     createExpense now expense w = Ok (e, w') →
     ∃ t row,
       db w = Some t ∧ db w' = Some (INSERT_EXPENSE row t) ∧
       row_id row = id e ∧
       row_group_id row = None ∧ row_paid_by_member_id row = None ∧
       groupId e = draft_groupId expense) ∧
  (∀ now (id0 : string) (updates : ExpenseUpdates) w (e : Expense) w',
     updateExpense now id0 updates w = Ok (e, w') →
     ∃ t t',
       db w = Some t ∧ db w' = Some t' ∧
       Forall2 (λ r r', row_id r' = row_id r ∧
                        (row_id r = id0 →
                         row_group_id r' = None ∧ row_paid_by_member_id r' = None) ∧
                        (row_id r ≠ id0 → r' = r))
               (expenses t) (expenses t')) ∧
  (∀ (fuel : nat) now (p : RecurringExpense) w t (g' : list ExpenseDraft) w',
     db w = Some t →
     generateForPattern fuel now p [] w = Some (Ok (g', w')) →
     ∃ t' new,
       db w' = Some t' ∧ expenses t' = new ++ expenses t ∧
       length new = length g' ∧
       Forall (λ r, row_group_id r = None ∧ row_paid_by_member_id r = None) new ∧
       Forall (λ d, draft_groupId d = rec_groupId p) g') ∧
  (∀ now (action : UndoAction) w w',
     undo_type action = undo_delete →
     undoExpenseAction now action w = Ok w' →
     ∃ t row,
       db w = Some t ∧ db w' = Some (INSERT_EXPENSE row t) ∧
       amount (payload action) = row_amount row ∧
       row_group_id row = None ∧ row_paid_by_member_id row = None).
Proof.
  split; [|split; [|split]].
  - intros now expense w e w' (t & Hdb & _ & -> & ->)%createExpense_inv.
    eexists t, _. by repeat split.
  - intros now id0 updates w e w' (t & r0 & rest & Hdb & _ & _ & He & _ & ->)%updateExpense_inv.
    eexists t, _. split; [done|]. split; [reflexivity|].
    unfold UPDATE_EXPENSE, withExpenses. cbn [expenses].
    apply Forall2_fmap_r, Forall_Forall2_diag, Forall_forall. intros r _.
    repeat split; intros; destruct (String.eqb_spec (row_id r) id0);
      cbn [row_id row_group_id row_paid_by_member_id]; congruence.
  - intros fuel now p w t g' w' Hdb. unfold generateForPattern.
    destruct (endsBefore p now).
    { intros [= <- <-]. exists t, []. by repeat split. }
    intros (n & _ & _ & _ & -> & ->)%(generateLoop_spec _ _ _ _ _ _ t); [|done].
    rewrite (foldl_worldAfter now p _ w t Hdb). eexists _, _. cbn [db expenses app].
    split; [reflexivity|]. split; [reflexivity|]. split; [|split].
    + by rewrite length_reverse, length_imap, length_fmap.
    + apply Forall_reverse, Forall_forall. intros r Hr.
      by apply elem_of_lookup_imap_1 in Hr as (j & d & -> & _).
    + by apply Forall_fmap, Forall_true.
  - intros now action w w' Htype. unfold undoExpenseAction. rewrite Htype.
    destruct (createExpense _ _ w) as [[e w1]|] eqn:Hc; [|done]. cbn [mbind result_bind].
    intros [= <-]. apply createExpense_inv in Hc as (t & Hdb & _ & -> & _).
    eexists t, _. by repeat split.
Qed.

End expenses.

Lemma personal_rows_have_no_group_witness :
  draft_groupId draftGroup = Some "g1" ∧
  ∃ e w' t row,
    createExpense t0 draftGroup world0 = Ok (e, w') ∧
    db world0 = Some t ∧ db w' = Some (INSERT_EXPENSE row t) ∧
    row_id row = id e ∧
    row_group_id row = None ∧ row_paid_by_member_id row = None ∧
    groupId e = draft_groupId draftGroup.
Proof.
  split; [reflexivity|]. eexists _, _.
  assert (Hrun : createExpense t0 draftGroup world0 =
                 Ok (mkExpense "uuid-0" (Num.ofZ 12) "EUR" None "Food" (Some "lunch") None
                               "2024-01-05" (Some "g1") (Some "A") t0 t0,
                     mkWorld (Some (INSERT_EXPENSE
                                      (mkRow "uuid-0" (Num.ofZ 12) "EUR" "Food" (Some "lunch")
                                             None "2024-01-05" None None t0 t0) emptyTables))
                             None (Ok None) entropy0 1)) by reflexivity.
  destruct (proj1 (personal_rows_have_no_group (tz := utc)) _ _ _ _ _ Hrun) as (t & row & H).
  exists t, row. split; [exact Hrun | exact H].
Defined.


(** ** The undo log *)

Section undo.

Implicit Types (w : World) (t : Tables) (key : string) (a : App).

Lemma saveUndoAction_ok now (type : UndoType) (entityType : EntityType) (x : Expense) w t :
  db w = Some t → validDate now →
  saveUndoAction now type entityType x w =
    Ok (mkWorld
          (Some (withUndo
                   (λ h, mkUndo (entropy w (drawn w)) type entityType x now
                           :: filter (λ u, isBefore (timestamp u) (addDays now (-7)) = false) h)
                   t))
          (encryptionKey w) (keychain w) (entropy w) (S (drawn w))).
Proof.
  intros Hdb Hnow. unfold saveUndoAction, getDatabase. rewrite Hdb.
  cbn [mbind result_bind draw]. unfold setTables.
  cbn [db encryptionKey keychain entropy drawn]. do 3 f_equal.
  unfold CLEAR_OLD_UNDO_HISTORY, INSERT_UNDO_ACTION, withUndo.
  cbn [expenses expense_splits payments recurring_expenses undo_history]. f_equal.
  rewrite filter_cons_True; [done|]. cbn [timestamp]. by apply cutoff_before.
Qed.

Lemma undoLastAction_head now w t (action : UndoAction) (h : list UndoAction) w' t' :
  db w = Some t → undo_history t = action :: h →
  undo_entityType action = ent_expense →
  undoExpenseAction now action w = Ok w' → db w' = Some t' →
  undoLastAction now w =
    Ok (true, setTables (DELETE_UNDO_ACTION (undo_id action) t') w').
Proof.
  intros Hdb Hh Hent Hundo Hdb'. unfold undoLastAction, getUndoHistory, getDatabase.
  rewrite Hdb. cbn [mbind result_bind]. unfold GET_UNDO_HISTORY. rewrite Hh.
  cbn [take]. by rewrite Hent, Hundo, Hdb'.
Qed.

Lemma find_Some (x : string) (l : list Expense) (X : Expense) :
  find x l = Some X → id X = x.
Proof.
  unfold find. intros H%head_Some_elem_of. by apply list_elem_of_filter in H as [? _].
Qed.

Lemma filter_fmap_row_id (x : string) (f : ExpenseRow → ExpenseRow) (l : list ExpenseRow) :
  (∀ r, row_id (f r) = row_id r) →
  filter (λ r, row_id r = x) (f <$> l) = f <$> filter (λ r, row_id r = x) l.
Proof.
  intros Hf. induction l as [|r l IH]; [done|]. rewrite fmap_cons, !filter_cons, Hf.
  destruct (decide (row_id r = x)); by rewrite IH.
Qed.

(** C7 (amended), for expenses without notes: (1) an add that succeeded,
    followed by an undo, leaves the expenses table as it was before the
    add, the new id being one that no stored expense has; (2) an edit of
    an expense the store holds, followed by an undo, leaves the stored
    expense with the amount, currency, category, description and date of
    the snapshot, its id and [created_at] untouched, no group or payer,
    and [updated_at] at the time of the undo, not at the snapshot's;
    (3) a delete followed by an undo leaves a new row with the snapshot's
    amount, currency, category, description and date, under a freshly
    drawn id and with both timestamps at the time of the undo. *)
Theorem undo_round_trip :
  (∀ now1 now2 (expense : ExpenseDraft) a t (X : Expense) a1,
     db (world a) = Some t → validDate now1 →
     entropy (world a) (drawn (world a)) ∉ row_id <$> expenses t →
     addExpense now1 expense a = Ok (X, a1) →
     ∃ w2 t2,
       undoLastAction now2 (world a1) = Ok (true, w2) ∧ db w2 = Some t2 ∧
       expenses t2 = expenses t) ∧
  (∀ now1 now2 (x : string) (updates : ExpenseUpdates) a t (X : Expense)
     (r : ExpenseRow) (rest : list ExpenseRow),
     db (world a) = Some t → validDate now1 →
     find x (store_expenses a) = Some X → truthy (notes X) = false →
     GET_EXPENSE_BY_ID x t = r :: rest → row_notes_encrypted r = None →
     truthy (notes (mergeUpdates (expenseOfRow r) updates now1)) = false →
     ∃ w2 t2,
       undoLastAction now2 (world (storeUpdateExpense now1 x updates a)) = Ok (true, w2) ∧
       db w2 = Some t2 ∧
       expenses t2 =
         (λ r, if String.eqb (row_id r) x
               then rowOfFields x X None (row_created_at r) now2
               else r) <$> expenses t) ∧
  (∀ now1 now2 (x : string) a t (X : Expense),
     db (world a) = Some t → validDate now1 →
     find x (store_expenses a) = Some X → truthy (notes X) = false →
     ∃ w2 t2,
       undoLastAction now2 (world (storeDeleteExpense now1 x a)) = Ok (true, w2) ∧
       db w2 = Some t2 ∧
       expenses t2 =
         rowOfFields (entropy (world a) (S (drawn (world a)))) X None now2 now2
           :: filter (λ r, row_id r ≠ x) (expenses t)).
Proof.
  split; [|split].
  - intros now1 now2 expense a t X a1 Hdb Hnow Hfresh. unfold addExpense.
    destruct (createExpense now1 expense (world a)) as [[X' w1]|] eqn:Hcreate; [|done].
    cbn [mbind result_bind].
    apply createExpense_inv in Hcreate as (t' & Hdb' & _ & -> & ->).
    rewrite Hdb in Hdb'. injection Hdb' as <-.
    erewrite (saveUndoAction_ok now1); [|reflexivity|exact Hnow]. cbn [mbind result_bind].
    intros [= <- <-]. cbn [world].
    eexists _, _. split; [|split].
    + eapply undoLastAction_head; [reflexivity | reflexivity | reflexivity | | ].
      * cbn [undoExpenseAction undo_type payload id]. unfold deleteExpense, getDatabase.
        cbn [db mbind result_bind]. reflexivity.
      * reflexivity.
    + reflexivity.
    + cbn [DELETE_UNDO_ACTION DELETE_EXPENSE withUndo withExpenses INSERT_EXPENSE expenses].
      rewrite filter_cons_False by (cbn [row_id]; tauto).
      apply filter_all, Forall_forall. intros r Hr Heq. apply Hfresh.
      rewrite <-Heq. by apply list_elem_of_fmap_2.
  - intros now1 now2 x updates a t X r rest Hdb Hnow Hfind HX Hrow Hc Hn.
    pose proof (find_Some _ _ _ Hfind) as Hid.
    unfold storeUpdateExpense. rewrite Hfind, (saveUndoAction_ok now1 _ _ _ _ _ Hdb Hnow).
    match goal with |- context [ExpenseService.updateExpense now1 x updates ?w] =>
      set (w1 := w) end.
    rewrite (updateExpense_ok now1 x updates w1 _ r rest eq_refl Hrow Hc Hn).
    cbn [world].
    set (upd1 := λ r0 : ExpenseRow,
           if String.eqb (row_id r0) x
           then mkRow x (amount (mergeUpdates (expenseOfRow r) updates now1))
                      (currencyCode (mergeUpdates (expenseOfRow r) updates now1))
                      (category (mergeUpdates (expenseOfRow r) updates now1))
                      (orNull (description (mergeUpdates (expenseOfRow r) updates now1)))
                      None
                      (date (mergeUpdates (expenseOfRow r) updates now1))
                      None None (row_created_at r0) now1
           else r0).
    assert (Hupd1 : ∀ r0, row_id (upd1 r0) = row_id r0).
    { intros r0. unfold upd1. destruct (String.eqb_spec (row_id r0) x); [|done]. by cbn. }
    assert (Hr : row_id r = x).
    { assert (r ∈ GET_EXPENSE_BY_ID x t) as Hin by (rewrite Hrow; by left).
      by apply list_elem_of_filter in Hin as [? _]. }
    match goal with |- context [undoLastAction now2 (setTables ?tbl ?w)] =>
      set (tE := tbl); set (w2 := setTables tbl w) end.
    assert (Hrow2 : GET_EXPENSE_BY_ID (id X) tE = upd1 r :: (upd1 <$> rest)).
    { rewrite Hid. unfold GET_EXPENSE_BY_ID, tE, UPDATE_EXPENSE, withExpenses, withUndo.
      cbn [expenses]. fold upd1. rewrite (filter_fmap_row_id x upd1 _ Hupd1).
      unfold GET_EXPENSE_BY_ID in Hrow. by rewrite Hrow. }
    assert (Hc2 : row_notes_encrypted (upd1 r) = None).
    { unfold upd1. by rewrite (proj2 (String.eqb_eq _ _) Hr). }
    pose proof (updateExpense_ok now2 (id X) (updatesOfPayload X) w2 tE (upd1 r)
                  (upd1 <$> rest) eq_refl Hrow2 Hc2 HX) as Hundo.
    eexists _, _. split; [|split].
    + eapply (undoLastAction_head now2 w2 tE); [reflexivity | reflexivity | reflexivity | | ].
      * cbn [undoExpenseAction undo_type payload]. by rewrite Hundo.
      * reflexivity.
    + reflexivity.
    + cbn [DELETE_UNDO_ACTION withUndo expenses]. unfold UPDATE_EXPENSE at 1, withExpenses.
      cbn [expenses]. unfold tE, UPDATE_EXPENSE, withExpenses, withUndo. cbn [expenses].
      fold upd1. rewrite <-list_fmap_compose. apply list_fmap_ext. intros _ r0 _.
      cbn [compose]. rewrite Hupd1, Hid.
      destruct (String.eqb_spec (row_id r0) x) as [Hx|Hx]; [|unfold upd1].
      * unfold upd1. rewrite (proj2 (String.eqb_eq _ _) Hx). reflexivity.
      * by rewrite (proj2 (String.eqb_neq _ _) Hx).
  - intros now1 now2 x a t X Hdb Hnow Hfind HX.
    unfold storeDeleteExpense. rewrite Hfind, (saveUndoAction_ok now1 _ _ _ _ _ Hdb Hnow).
    unfold ExpenseService.deleteExpense, getDatabase. cbn [db mbind result_bind world].
    match goal with |- context [undoLastAction now2 ?w] => set (w2 := w) end.
    match goal with w2 := setTables ?tbl _ |- _ => set (tD := tbl) in * end.
    pose proof (createExpense_ok now2 (draftOfPayload X) w2 tD eq_refl HX) as Hcreate.
    eexists _, _. split; [|split].
    + eapply (undoLastAction_head now2 w2 tD); [reflexivity | reflexivity | reflexivity | | ].
      * cbn [undoExpenseAction undo_type payload]. by rewrite Hcreate.
      * reflexivity.
    + reflexivity.
    + reflexivity.
Qed.

Lemma undo_round_trip_witness :
  (∃ X a1,
     addExpense january2 draftPlain appEmpty = Ok (X, a1) ∧
     ∃ w2 t2,
       undoLastAction january3 (world a1) = Ok (true, w2) ∧ db w2 = Some t2 ∧
       expenses t2 = expenses emptyTables) ∧
  (∃ w2 t2,
     undoLastAction january3
       (world (storeUpdateExpense january2 "p1" (amountTo (Num.ofZ 30)) appPlain))
       = Ok (true, w2) ∧
     db w2 = Some t2 ∧
     expenses t2 =
       (λ r, if String.eqb (row_id r) "p1"
             then rowOfFields "p1" expensePlain None (row_created_at r) january3
             else r) <$> expenses tablesPlain) ∧
  (∃ w2 t2,
     undoLastAction january3 (world (storeDeleteExpense january2 "p1" appPlain))
       = Ok (true, w2) ∧
     db w2 = Some t2 ∧
     expenses t2 =
       rowOfFields (entropy (world appPlain) (S (drawn (world appPlain)))) expensePlain
                   None january3 january3
         :: filter (λ r, row_id r ≠ "p1") (expenses tablesPlain)).
Proof.
  split; [|split].
  - eexists _, _. split; [vm_compute; reflexivity|].
    eapply (proj1 undo_round_trip january2 january3 draftPlain appEmpty emptyTables).
    + reflexivity.
    + vm_compute. repeat split; first [reflexivity | discriminate].
    + intros H. vm_compute in H. inversion H.
    + vm_compute. reflexivity.
  - apply (proj1 (proj2 undo_round_trip) january2 january3 "p1" (amountTo (Num.ofZ 30))
             appPlain tablesPlain expensePlain rowPlain []).
    + reflexivity.
    + vm_compute. repeat split; first [reflexivity | discriminate].
    + reflexivity.
    + reflexivity.
    + reflexivity.
    + reflexivity.
    + reflexivity.
  - apply (proj2 (proj2 undo_round_trip) january2 january3 "p1" appPlain tablesPlain
             expensePlain).
    + reflexivity.
    + vm_compute. repeat split; first [reflexivity | discriminate].
    + reflexivity.
    + reflexivity.
Defined.

(** C7 (counterexample), on an expense without notes: after an edit and an
    undo the stored expense carries the time of the undo as [updatedAt],
    not the snapshot's; after a delete and an undo the table holds one row
    under a new id, created at the time of the undo. *)
Lemma undo_does_not_restore_exactly :
  (∃ w2 w3 X',
     undoLastAction january3
       (world (storeUpdateExpense january2 "p1" (amountTo (Num.ofZ 30)) appPlain))
       = Ok (true, w2) ∧
     getExpenseById "p1" w2 = Ok (Some X', w3) ∧
     amount X' = amount expensePlain ∧
     updatedAt X' = january3 ∧ updatedAt X' ≠ updatedAt expensePlain ∧ X' ≠ expensePlain) ∧
  (∃ w2 t2 r,
     undoLastAction january3 (world (storeDeleteExpense january2 "p1" appPlain))
       = Ok (true, w2) ∧
     db w2 = Some t2 ∧ expenses t2 = [r] ∧
     GET_EXPENSE_BY_ID "p1" t2 = [] ∧
     row_id r = "uuid-1" ∧ row_id r ≠ id expensePlain ∧
     row_created_at r = january3 ∧ row_created_at r ≠ createdAt expensePlain).
Proof.
  split.
  - eexists _, _, _. split; [vm_compute; reflexivity|].
    split; [vm_compute; reflexivity|].
    cbn [amount updatedAt expensePlain].
    split; [reflexivity|]. split; [reflexivity|]. split; [discriminate|].
    intros H. apply (f_equal updatedAt) in H. discriminate H.
  - eexists _, _, _. split; [vm_compute; reflexivity|].
    split; [reflexivity|]. split; [reflexivity|]. split; [reflexivity|].
    split; [reflexivity|]. split; [discriminate|]. split; [reflexivity|discriminate].
Qed.

End undo.

(** * Further properties of the code *)

(** ** Balances, member by member *)

Section balance_of_member.

Implicit Types (balances : gmap string Qc) (k : string).

Lemma lookup_orZero balances k :
  is_Some (balances !! k) → balances !! k = Some (Num.orZero (balances !! k)).
Proof. by intros [v ->]. Qed.

Lemma splits_lookup balances (splits : list ExpenseSplit) k :
  Num.orZero (foldl (λ b split, bump (split_memberId split) (- split_amount split) b)
                    balances splits !! k) =
    Num.orZero (balances !! k)
    - Num.sum (split_amount <$> filter (λ s, split_memberId s = k) splits).
Proof.
  revert balances. induction splits as [|s splits IH]; intros balances.
  - cbn [foldl]. rewrite filter_nil. change (Num.sum (split_amount <$> [])) with 0. ring.
  - cbn [foldl]. rewrite IH, orZero_bump, filter_cons.
    destruct (decide (split_memberId s = k)).
    + rewrite fmap_cons. cbn [Num.sum]. ring.
    + ring.
Qed.

Lemma applyExpense_lookup splitsOf balances (e : Expense) k :
  is_Some (balances !! k) → k ≠ "" →
  Num.orZero (applyExpense splitsOf balances e !! k) =
    Num.orZero (balances !! k)
    + (if decide (paidByMemberId e = Some k) then amount e else 0)
    - Num.sum (split_amount <$> filter (λ s, split_memberId s = k) (splitsOf (id e))).
Proof.
  intros Hk Hne. unfold applyExpense. rewrite splits_lookup. f_equal.
  destruct (paidByMemberId e) as [p|]; [|rewrite decide_False by done; ring].
  destruct (decide (p = k)) as [->|Hp].
  - rewrite decide_True by done. cbn [truthy].
    rewrite (proj2 (String.eqb_neq _ _) Hne), bool_decide_eq_true_2 by done.
    cbn [negb andb]. rewrite orZero_bump, decide_True by done. ring.
  - rewrite decide_False by congruence.
    destruct (_ && _); [|ring]. rewrite orZero_bump, decide_False by done. ring.
Qed.

Lemma expenses_lookup splitsOf (es : list Expense) balances k :
  is_Some (balances !! k) → k ≠ "" →
  is_Some (foldl (applyExpense splitsOf) balances es !! k) ∧
  Num.orZero (foldl (applyExpense splitsOf) balances es !! k) =
    Num.orZero (balances !! k) + paidBy es k - owedBy splitsOf es k.
Proof.
  intros Hk Hne. revert balances Hk. induction es as [|e es IH]; intros balances Hk.
  - split; [done|]. cbn [foldl]. unfold paidBy, owedBy. rewrite filter_nil.
    change (Num.sum _) with 0 at 1. change (Num.sum _) with 0. ring.
  - cbn [foldl].
    destruct (IH (applyExpense splitsOf balances e)) as [Hs ->];
      [by apply applyExpense_is_Some|].
    split; [done|]. rewrite applyExpense_lookup by done.
    unfold paidBy, owedBy. rewrite filter_cons, fmap_cons. cbn [Num.sum].
    destruct (decide (paidByMemberId e = Some k)).
    + rewrite fmap_cons. cbn [Num.sum]. ring.
    + ring.
Qed.

Lemma applyPayment_is_Some balances (p : Payment) k :
  is_Some (balances !! k) → is_Some (applyPayment balances p !! k).
Proof. intros Hk. unfold applyPayment. by do 2 apply bump_is_Some. Qed.

Lemma payments_lookup (ps : list Payment) balances k :
  Num.orZero (foldl applyPayment balances ps !! k) =
    Num.orZero (balances !! k) - paymentsFrom ps k + paymentsTo ps k.
Proof.
  revert balances. induction ps as [|p ps IH]; intros balances.
  - cbn [foldl]. unfold paymentsFrom, paymentsTo. rewrite !filter_nil.
    change (Num.sum _) with 0 at 1. change (Num.sum _) with 0. ring.
  - cbn [foldl]. rewrite IH. unfold applyPayment, paymentsFrom, paymentsTo.
    rewrite !orZero_bump, !filter_cons.
    destruct (decide (fromMemberId p = k)), (decide (toMemberId p = k));
      rewrite ?fmap_cons; cbn [Num.sum]; ring.
Qed.

Lemma payments_is_Some (ps : list Payment) balances k :
  is_Some (balances !! k) → is_Some (foldl applyPayment balances ps !! k).
Proof.
  revert balances. induction ps as [|p ps IH]; intros balances Hk; [done|].
  cbn [foldl]. by apply IH, applyPayment_is_Some.
Qed.

Lemma init_lookup (members : list GroupMember) k :
  k ∈ member_id <$> members →
  foldl (λ b member, <[member_id member := 0]> b) (∅ : gmap string Qc) members !! k
    = Some 0.
Proof.
  intros Hk.
  destruct (init_balances members ∅) as [Hzero Hsome]; [by intros ?? ?%lookup_empty_Some|].
  destruct (Hsome k Hk) as [v Hv]. by rewrite Hv, (Hzero _ _ Hv).
Qed.

(** X1: "Balance = What you paid - What you owe".  For a member of the
    group (with a non-empty id) the balance computed by
    [calculateGroupBalances] is what the member paid for the group's
    expenses, minus the member's splits of them, minus the payments the
    member sent, plus the payments the member received. *)
Theorem balance_of_member fs groupId w t (m : GroupMember) :
  db w = Some t →
  m ∈ getGroupMembers fs groupId →
  member_id m ≠ "" →
  ∃ balances,
    calculateGroupBalances fs groupId w = Ok balances ∧
    balances !! member_id m =
      Some (paidBy (fs_expenses fs groupId) (member_id m)
            - owedBy (fs_splits fs groupId) (fs_expenses fs groupId) (member_id m)
            - paymentsFrom (GET_PAYMENTS_BY_GROUP groupId t) (member_id m)
            + paymentsTo (GET_PAYMENTS_BY_GROUP groupId t) (member_id m)).
Proof.
  intros Hdb Hm Hne. unfold calculateGroupBalances, getPaymentsByGroup, getDatabase.
  rewrite Hdb. cbn [mbind result_bind]. eexists. split; [reflexivity|].
  assert (Hinit := init_lookup (getGroupMembers fs groupId) (member_id m)
                     (list_elem_of_fmap_2 _ _ _ Hm)).
  set (b0 := foldl _ ∅ (getGroupMembers fs groupId)) in *.
  destruct (expenses_lookup (fs_splits fs groupId) (fs_expenses fs groupId) b0
              (member_id m)) as [Hs He]; [by rewrite Hinit | done |].
  rewrite lookup_orZero by by apply payments_is_Some.
  f_equal. rewrite payments_lookup, He, Hinit. cbn [Num.orZero]. ring.
Qed.

Lemma balance_of_member_witness :
  ∃ balances,
    calculateGroupBalances fsNinety "g" world0 = Ok balances ∧
    balances !! member_id memberA =
      Some (paidBy (fs_expenses fsNinety "g") (member_id memberA)
            - owedBy (fs_splits fsNinety "g") (fs_expenses fsNinety "g") (member_id memberA)
            - paymentsFrom (GET_PAYMENTS_BY_GROUP "g" emptyTables) (member_id memberA)
            + paymentsTo (GET_PAYMENTS_BY_GROUP "g" emptyTables) (member_id memberA)).
Proof.
  apply (balance_of_member fsNinety "g" world0 emptyTables memberA).
  - reflexivity.
  - cbn. set_solver.
  - discriminate.
Defined.

End balance_of_member.

(** ** Recording and deleting payments *)

Section payments.

Implicit Types (balances : gmap string Qc) (k : string).

Lemma calculateGroupBalances_payments fs groupId w w' t t' :
  db w = Some t → db w' = Some t' →
  GET_PAYMENTS_BY_GROUP groupId t' = GET_PAYMENTS_BY_GROUP groupId t →
  calculateGroupBalances fs groupId w' = calculateGroupBalances fs groupId w.
Proof.
  intros Hdb Hdb' Hp. unfold calculateGroupBalances, getPaymentsByGroup, getDatabase.
  rewrite Hdb, Hdb'. cbn [mbind result_bind]. by rewrite Hp.
Qed.

Lemma sub_add_zero_lt (a x : Qc) : 0 < x → a - x + 0 < a.
Proof. intros Hx. qc_lra. Qed.

Lemma sub_zero_add_lt (a x : Qc) : 0 < x → a < a - 0 + x.
Proof. intros Hx. qc_lra. Qed.

(** X2: a payment recorded with [recordPayment] in a group lowers the
    balance of its from-member by the amount and raises the balance of
    its to-member by the amount, and changes no other balance of the
    group and no balance of another group.  So a payment recorded from a
    member who owes (negative balance) to a member who is owed moves both
    balances away from zero. *)
Theorem recordPayment_moves_balances fs now groupId fromMember toMember (x : Qc)
    currencyCode date notes w t balances :
  db w = Some t →
  calculateGroupBalances fs groupId w = Ok balances →
  ∃ p w' balances',
    recordPayment now groupId fromMember toMember x currencyCode date notes w = Ok (p, w') ∧
    getPaymentsByGroup groupId w' = Ok (p :: GET_PAYMENTS_BY_GROUP groupId t) ∧
    calculateGroupBalances fs groupId w' = Ok balances' ∧
    (∀ k, Num.orZero (balances' !! k) =
            Num.orZero (balances !! k)
            - (if decide (fromMember = k) then x else 0)
            + (if decide (toMember = k) then x else 0)) ∧
    (fromMember ≠ toMember → 0 < x →
     Num.orZero (balances' !! fromMember) < Num.orZero (balances !! fromMember) ∧
     Num.orZero (balances !! toMember) < Num.orZero (balances' !! toMember)) ∧
    (∀ g, g ≠ groupId →
          calculateGroupBalances fs g w' = calculateGroupBalances fs g w).
Proof.
  intros Hdb. unfold calculateGroupBalances at 1, getPaymentsByGroup, getDatabase.
  rewrite Hdb. cbn [mbind result_bind]. intros [= <-].
  unfold recordPayment, getDatabase. rewrite Hdb. cbn [mbind result_bind draw].
  eexists _, _, _. split; [reflexivity|].
  assert (Hget : GET_PAYMENTS_BY_GROUP groupId
            (INSERT_PAYMENT (mkPayment (entropy w (drawn w)) groupId fromMember toMember x
                                       currencyCode date now) t)
          = mkPayment (entropy w (drawn w)) groupId fromMember toMember x
                      currencyCode date now :: GET_PAYMENTS_BY_GROUP groupId t).
  { unfold GET_PAYMENTS_BY_GROUP, INSERT_PAYMENT, withPayments. cbn [payments].
    by rewrite filter_cons_True. }
  assert (Hformula : ∀ k,
    Num.orZero (foldl applyPayment
                  (foldl (applyExpense (fs_splits fs groupId))
                     (foldl (λ b member, <[member_id member := 0]> b) ∅
                        (getGroupMembers fs groupId)) (fs_expenses fs groupId))
                  (mkPayment (entropy w (drawn w)) groupId fromMember toMember x
                             currencyCode date now :: GET_PAYMENTS_BY_GROUP groupId t) !! k) =
    Num.orZero (foldl applyPayment
                  (foldl (applyExpense (fs_splits fs groupId))
                     (foldl (λ b member, <[member_id member := 0]> b) ∅
                        (getGroupMembers fs groupId)) (fs_expenses fs groupId))
                  (GET_PAYMENTS_BY_GROUP groupId t) !! k)
    - (if decide (fromMember = k) then x else 0)
    + (if decide (toMember = k) then x else 0)).
  { intros k. rewrite !payments_lookup. unfold paymentsFrom, paymentsTo.
    rewrite !filter_cons. cbn [fromMemberId toMemberId].
    destruct (decide (fromMember = k)), (decide (toMember = k));
      rewrite ?fmap_cons; cbn [Num.sum payment_amount]; ring. }
  split; [|split; [|split; [|split]]].
  - unfold setTables. cbn [db mbind result_bind]. by rewrite Hget.
  - unfold calculateGroupBalances, getPaymentsByGroup, getDatabase, setTables.
    cbn [db mbind result_bind]. rewrite Hget. reflexivity.
  - exact Hformula.
  - intros Hne Hx. rewrite !Hformula.
    rewrite (decide_True (P := fromMember = fromMember)) by done.
    rewrite (decide_True (P := toMember = toMember)) by done.
    rewrite (decide_False (P := toMember = fromMember)) by done.
    rewrite (decide_False (P := fromMember = toMember)) by done.
    split; [exact (sub_add_zero_lt _ x Hx) | exact (sub_zero_add_lt _ x Hx)].
  - intros g Hg. eapply calculateGroupBalances_payments; [exact Hdb | reflexivity |].
    unfold GET_PAYMENTS_BY_GROUP, INSERT_PAYMENT, withPayments. cbn [payments].
    rewrite filter_cons_False; [done|]. cbn [payment_groupId]. congruence.
Qed.

Lemma recordPayment_moves_balances_witness :
  ∃ balances,
    calculateGroupBalances fsNinety "g" world0 = Ok balances ∧
    ∃ p w' balances',
      recordPayment january2 "g" "B" "A" (Num.ofZ 30) "EUR" "2024-01-02" None world0
        = Ok (p, w') ∧
      getPaymentsByGroup "g" w' = Ok (p :: GET_PAYMENTS_BY_GROUP "g" emptyTables) ∧
      calculateGroupBalances fsNinety "g" w' = Ok balances' ∧
      (∀ k, Num.orZero (balances' !! k) =
              Num.orZero (balances !! k)
              - (if decide ("B" = k) then Num.ofZ 30 else 0)
              + (if decide ("A" = k) then Num.ofZ 30 else 0)) ∧
      ("B" ≠ "A" → 0 < Num.ofZ 30 →
       Num.orZero (balances' !! "B") < Num.orZero (balances !! "B") ∧
       Num.orZero (balances !! "A") < Num.orZero (balances' !! "A")) ∧
      (∀ g, g ≠ "g" →
            calculateGroupBalances fsNinety g w' = calculateGroupBalances fsNinety g world0).
Proof.
  eexists. split; [reflexivity|].
  apply (recordPayment_moves_balances fsNinety january2 "g" "B" "A" (Num.ofZ 30)
           "EUR" "2024-01-02" None world0 emptyTables).
  - reflexivity.
  - reflexivity.
Defined.

(** X3: deleting the payment that [recordPayment] returned, its id being
    one no stored payment has, brings the payments table and with it every
    balance back to what they were before the payment was recorded. *)
Theorem recordPayment_deletePayment fs now groupId fromMember toMember (x : Qc)
    currencyCode date notes w t p w1 :
  db w = Some t →
  entropy w (drawn w) ∉ payment_id <$> payments t →
  recordPayment now groupId fromMember toMember x currencyCode date notes w = Ok (p, w1) →
  ∃ w2 t2,
    deletePayment (payment_id p) w1 = Ok w2 ∧ db w2 = Some t2 ∧
    payments t2 = payments t ∧
    ∀ g, calculateGroupBalances fs g w2 = calculateGroupBalances fs g w.
Proof.
  intros Hdb Hfresh. unfold recordPayment, getDatabase. rewrite Hdb.
  cbn [mbind result_bind draw]. intros [= <- <-].
  unfold deletePayment, getDatabase, setTables. cbn [db mbind result_bind payment_id].
  eexists _, _. split; [reflexivity|]. split; [reflexivity|].
  assert (Hp : filter (λ p, payment_id p ≠ entropy w (drawn w))
                 (payments (INSERT_PAYMENT
                    (mkPayment (entropy w (drawn w)) groupId fromMember toMember x
                               currencyCode date now) t)) = payments t).
  { unfold INSERT_PAYMENT, withPayments. cbn [payments].
    rewrite filter_cons_False by (cbn [payment_id]; tauto).
    apply filter_all, Forall_forall. intros q Hq Heq. apply Hfresh.
    rewrite <-Heq. by apply list_elem_of_fmap_2. }
  split.
  - unfold DELETE_PAYMENT, withPayments. cbn [payments]. exact Hp.
  - intros g. eapply calculateGroupBalances_payments; [exact Hdb | reflexivity |].
    unfold GET_PAYMENTS_BY_GROUP, DELETE_PAYMENT, withPayments. cbn [payments].
    by rewrite Hp.
Qed.

Lemma recordPayment_deletePayment_witness :
  ∃ p w1,
    recordPayment january2 "g" "B" "A" (Num.ofZ 30) "EUR" "2024-01-02" None world0
      = Ok (p, w1) ∧
    ∃ w2 t2,
      deletePayment (payment_id p) w1 = Ok w2 ∧ db w2 = Some t2 ∧
      payments t2 = payments emptyTables ∧
      ∀ g, calculateGroupBalances fsNinety g w2 = calculateGroupBalances fsNinety g world0.
Proof.
  eexists _, _. split; [reflexivity|].
  eapply (recordPayment_deletePayment fsNinety january2 "g" "B" "A" (Num.ofZ 30)
            "EUR" "2024-01-02" None world0 emptyTables).
  - reflexivity.
  - cbn. apply not_elem_of_nil.
  - reflexivity.
Defined.

End payments.

(** ** Settlement suggestions, for every balance map *)

Section suggestions.

Implicit Types (balances : gmap string Qc) (cs ds : list Party).

Lemma creditorsOf_nil balances members :
  creditorsOf balances members = [] ↔
  Forall (λ m, Num.orZero (balances !! member_id m) ≤ epsilon) members.
Proof.
  induction members as [|m members IH]; [done|].
  rewrite creditorsOf_cons, Forall_cons, <-IH. unfold Num.gtb, Num.ltb.
  case_bool_decide as H.
  - split; [done|]. intros [H' _]. by apply Qcle_not_lt in H'.
  - cbn [app]. split; [|tauto]. intros ->. split; [|done]. by apply Qcnot_lt_le.
Qed.

Lemma debtorsOf_nil balances members :
  debtorsOf balances members = [] ↔
  Forall (λ m, - epsilon ≤ Num.orZero (balances !! member_id m)) members.
Proof.
  induction members as [|m members IH]; [done|].
  rewrite debtorsOf_cons, Forall_cons, <-IH. unfold Num.gtb, Num.ltb.
  assert (- epsilon < epsilon) as H0 by (rewrite opp_epsilon; by apply cents_lt).
  case_bool_decide as H; [|case_bool_decide as H'].
  - cbn [app]. split; [|tauto]. intros ->. split; [|done].
    apply Qclt_le_weak. by eapply Qclt_trans.
  - split; [done|]. intros [H'' _]. by apply Qcle_not_lt in H''.
  - cbn [app]. split; [|tauto]. intros ->. split; [|done]. by apply Qcnot_lt_le.
Qed.

(** X5: [getSettlementSuggestions] proposes nothing exactly when no member
    of the list has a balance above 0.01 or no member has a balance below
    -0.01; a single member owed any amount gets no suggestion as long as
    nobody owes more than a cent. *)
Theorem suggestions_empty_iff balances (members : list GroupMember) :
  suggest balances members = Some [] ↔
  (Forall (λ m, Num.orZero (balances !! member_id m) ≤ epsilon) members ∨
   Forall (λ m, - epsilon ≤ Num.orZero (balances !! member_id m)) members).
Proof.
  rewrite <-creditorsOf_nil, <-debtorsOf_nil. unfold suggest. split.
  - intros Hs.
    pose proof (within_sortParties _ (creditorsOf_significant balances members)) as Hc.
    pose proof (within_sortParties _ (debtorsOf_significant balances members)) as Hd.
    pose proof (sortParties_Permutation (creditorsOf balances members)) as Pc.
    pose proof (sortParties_Permutation (debtorsOf balances members)) as Pd.
    destruct (sortParties (creditorsOf balances members)) as [|c cs].
    { left. by apply Permutation_nil_l in Pc. }
    destruct (sortParties (debtorsOf balances members)) as [|d ds].
    { right. by apply Permutation_nil_l in Pd. }
    exfalso. revert Hs. apply settle_nonempty.
    + apply Forall_cons in Hc as [(? & _ & _ & H & _) _]. exact H.
    + apply Forall_cons in Hd as [(? & _ & _ & H & _) _]. exact H.
  - intros [-> | ->]; [reflexivity|].
    by destruct (sortParties (creditorsOf balances members)).
Qed.

End suggestions.

(** ** What splitting an expense leaves alone *)

Section splits_more.

Implicit Types (w : World) (t : Tables).

Lemma insertSplits_effect expenseId now (rows : list (string * Qc * option Qc)) w t w1 t1 :
  insertSplits expenseId now rows w (DELETE_SPLITS_BY_EXPENSE expenseId t) = (w1, t1) →
  payments t1 = payments t ∧
  ∀ e', e' ≠ expenseId → GET_SPLITS_BY_EXPENSE e' t1 = GET_SPLITS_BY_EXPENSE e' t.
Proof.
  rewrite insertSplits_spec. intros [= <- <-]. split; [done|].
  intros e' He'. unfold GET_SPLITS_BY_EXPENSE, DELETE_SPLITS_BY_EXPENSE.
  cbn [expense_splits]. rewrite filter_app, filter_reverse.
  rewrite (filter_none (λ s, split_expenseId s = e')).
  - cbn [reverse app]. rewrite list_filter_filter. apply list_filter_iff.
    intros s. split; [tauto|]. intros ->. done.
  - apply Forall_forall. intros s [i [r [-> _]]]%elem_of_lookup_imap_1.
    cbn [split_expenseId]. congruence.
Qed.

Ltac split_inv Hdb Hins :=
  unfold splitExpenseEqually, splitExpenseByPercentage, splitExpenseByAmount, getDatabase;
  match goal with |- context [db ?w] => destruct (db w) as [?t|] eqn:Hdb; [|done] end;
  cbn [mbind result_bind];
  match goal with |- context [insertSplits ?e ?n ?r ?w ?t] =>
    destruct (insertSplits e n r w t) as [?w1 ?t1] eqn:Hins end;
  intros [= <-]; apply insertSplits_effect in Hins as [? ?].

(** X6: the three split functions write to the local table of splits
    only, and [calculateGroupBalances] reads the splits of an expense from
    Firestore: whatever is split, and however, no balance of any group
    changes. *)
Theorem splitting_changes_no_balance now expenseId w :
  (∀ memberIds totalAmount w',
     splitExpenseEqually now expenseId memberIds totalAmount w = Ok w' →
     ∀ fs g, calculateGroupBalances fs g w' = calculateGroupBalances fs g w) ∧
  (∀ splits totalAmount w',
     splitExpenseByPercentage now expenseId splits totalAmount w = Ok w' →
     ∀ fs g, calculateGroupBalances fs g w' = calculateGroupBalances fs g w) ∧
  (∀ splits w',
     splitExpenseByAmount now expenseId splits w = Ok w' →
     ∀ fs g, calculateGroupBalances fs g w' = calculateGroupBalances fs g w).
Proof.
  repeat split; intros *; split_inv Hdb Hins; intros fs g;
    (eapply calculateGroupBalances_payments; [exact Hdb | reflexivity |]);
    unfold GET_PAYMENTS_BY_GROUP; congruence.
Qed.

Lemma splitting_changes_no_balance_witness :
  ∃ w',
    splitExpenseEqually t0 "e1" ["A"; "B"] (Num.ofZ 90) world0 = Ok w' ∧
    ∀ fs g, calculateGroupBalances fs g w' = calculateGroupBalances fs g world0.
Proof.
  eexists. split; [reflexivity|].
  by apply (proj1 (splitting_changes_no_balance t0 "e1" world0) ["A"; "B"] (Num.ofZ 90)).
Defined.

(** X7: splitting an expense replaces the stored splits of that expense
    and of no other: after any of the three split functions the splits of
    every other expense read back as before, and an equal split among no
    members leaves the expense without splits. *)
Theorem splitting_touches_one_expense now expenseId w :
  (∀ memberIds totalAmount w',
     splitExpenseEqually now expenseId memberIds totalAmount w = Ok w' →
     (∀ e', e' ≠ expenseId → getExpenseSplits e' w' = getExpenseSplits e' w) ∧
     (memberIds = [] → getExpenseSplits expenseId w' = Ok [])) ∧
  (∀ splits totalAmount w',
     splitExpenseByPercentage now expenseId splits totalAmount w = Ok w' →
     ∀ e', e' ≠ expenseId → getExpenseSplits e' w' = getExpenseSplits e' w) ∧
  (∀ splits w',
     splitExpenseByAmount now expenseId splits w = Ok w' →
     ∀ e', e' ≠ expenseId → getExpenseSplits e' w' = getExpenseSplits e' w).
Proof.
  split; [|split].
  - intros memberIds totalAmount w'. split.
    + revert H. split_inv Hdb Hins. intros e' He'.
      unfold getExpenseSplits, getDatabase, setTables. cbn [db]. rewrite Hdb.
      cbn [mbind result_bind]. by rewrite H0.
    + intros ->. revert H.
      unfold splitExpenseEqually, getDatabase.
      destruct (db w) as [t|] eqn:Hdb; [|done]. cbn [mbind result_bind map insertSplits].
      intros [= <-]. unfold getExpenseSplits, getDatabase, setTables.
      cbn [db mbind result_bind]. f_equal.
      unfold GET_SPLITS_BY_EXPENSE, DELETE_SPLITS_BY_EXPENSE. cbn [expense_splits].
      rewrite list_filter_filter, filter_none; [done|].
      apply Forall_forall. intros s _. tauto.
  - intros splits totalAmount w'. split_inv Hdb Hins. intros e' He'.
    unfold getExpenseSplits, getDatabase, setTables. cbn [db]. rewrite Hdb.
    cbn [mbind result_bind]. by rewrite H0.
  - intros splits w'. split_inv Hdb Hins. intros e' He'.
    unfold getExpenseSplits, getDatabase, setTables. cbn [db]. rewrite Hdb.
    cbn [mbind result_bind]. by rewrite H0.
Qed.

Lemma splitting_touches_one_expense_witness :
  ∃ w',
    splitExpenseEqually t0 "e1" [] (Num.ofZ 90) world0 = Ok w' ∧
    (∀ e', e' ≠ "e1" → getExpenseSplits e' w' = getExpenseSplits e' world0) ∧
    ([] = @nil string → getExpenseSplits "e1" w' = Ok []).
Proof.
  eexists. split; [reflexivity|].
  by apply (proj1 (splitting_touches_one_expense t0 "e1" world0) [] (Num.ofZ 90)).
Defined.

End splits_more.

(** ** Reading back what the expense service wrote *)

Section expenses_more.

Implicit Types (w : World) (t : Tables) (key : string).

(** X8: an expense without notes that [createExpense] stores under an id
    no other row has is read back by [getExpenseById] with the amount,
    currency, category, date and timestamps it was created with; an empty
    description comes back absent, and the base amount, the group and the
    payer that the returned object carries are not read back at all.  An
    expense with notes is not stored: [createExpense] throws. *)
Theorem createExpense_then_getExpenseById now (expense : ExpenseDraft) w t :
  db w = Some t →
  entropy w (drawn w) ∉ row_id <$> expenses t →
  (truthy (draft_notes expense) = false →
   ∃ e w1,
     createExpense now expense w = Ok (e, w1) ∧
     id e = entropy w (drawn w) ∧
     getExpenseById (id e) w1 =
       Ok (Some (mkExpense (id e) (draft_amount expense) (draft_currencyCode expense) None
                           (draft_category expense) (orNull (draft_description expense))
                           None (draft_date expense) None None now now), w1)) ∧
  (truthy (draft_notes expense) = true →
   ∃ err, createExpense now expense w = Err err).
Proof.
  intros Hdb Hfresh. split; [|apply createExpense_notes].
  intros Hn. eexists _, _. split; [by apply createExpense_ok|].
  split; [reflexivity|]. cbn [id].
  unfold getExpenseById, getDatabase, setTables. cbn [db mbind result_bind].
  unfold GET_EXPENSE_BY_ID, INSERT_EXPENSE, withExpenses. cbn [expenses].
  rewrite filter_cons_True by done. reflexivity.
Qed.

Lemma createExpense_then_getExpenseById_witness :
  (∃ e w1,
     createExpense january2 draftPlain worldKeyed = Ok (e, w1) ∧
     id e = "uuid-0" ∧
     getExpenseById (id e) w1 =
       Ok (Some (mkExpense (id e) (Num.ofZ 20) "EUR" None "Food" (Some "dinner")
                           None "2024-01-01" None None january2 january2), w1)) ∧
  (∃ err, createExpense january2 draftX worldKeyed = Err err).
Proof.
  destruct (createExpense_then_getExpenseById january2 draftPlain worldKeyed emptyTables
              eq_refl) as [H _]; [cbn; apply not_elem_of_nil|].
  destruct (createExpense_then_getExpenseById january2 draftX worldKeyed emptyTables
              eq_refl) as [_ H']; [cbn; apply not_elem_of_nil|].
  split; [exact (H eq_refl) | exact (H' eq_refl)].
Defined.

(** X9: [updateExpense] writes nothing unless it can first read the
    expense: for an id no row has it throws "Expense not found", and for a
    row whose stored notes do not decrypt under the key in memory it
    throws the error of [getExpenseById], whatever the update is, also one
    that replaces the notes. *)
Theorem updateExpense_needs_readable_row now (id0 : string) (updates : ExpenseUpdates) w t :
  db w = Some t →
  (GET_EXPENSE_BY_ID id0 t = [] →
   getExpenseById id0 w = Ok (None, w) ∧
   updateExpense now id0 updates w = Err (JsError "Expense not found")) ∧
  (∀ key (r : ExpenseRow) rest,
     keyReady key w → GET_EXPENSE_BY_ID id0 t = r :: rest → ¬ readable key r →
     ∃ err, getExpenseById id0 w = Err err ∧ updateExpense now id0 updates w = Err err).
Proof.
  intros Hdb. split.
  - intros Hget. unfold updateExpense, getExpenseById, getDatabase. rewrite Hdb.
    cbn [mbind result_bind]. by rewrite Hget.
  - intros key r rest [Hk Hne] Hget Hread.
    assert (∃ err, decryptNotes (row_notes_encrypted r) w = Err err) as [err Herr].
    { unfold readable in Hread.
      destruct (row_notes_encrypted r) as [c|]; [apply decryptNotes_some | done]. }
    exists err. unfold updateExpense, getExpenseById, getDatabase. rewrite Hdb.
    cbn [mbind result_bind]. by rewrite Hget, Herr.
Qed.

Lemma updateExpense_needs_readable_row_witness :
  (getExpenseById "x2" worldBroken = Ok (None, worldBroken) ∧
   updateExpense january2 "x2" (amountTo (Num.ofZ 30)) worldBroken
     = Err (JsError "Expense not found")) ∧
  (∃ err, getExpenseById "x9" worldBroken = Err err ∧
          updateExpense january2 "x9" (notesTo "new") worldBroken = Err err).
Proof.
  split.
  - by apply (updateExpense_needs_readable_row january2 "x2" (amountTo (Num.ofZ 30))
                worldBroken (mkTables [rowBroken; rowX] [] [] [] []) eq_refl).
  - apply (proj2 (updateExpense_needs_readable_row january2 "x9" (notesTo "new")
                    worldBroken (mkTables [rowBroken; rowX] [] [] [] []) eq_refl)
             "00ff" rowBroken []).
    + split; [reflexivity | discriminate].
    + reflexivity.
    + intros H. exact H.
Defined.

(** X10: for a row without stored notes and an update that leaves the
    notes empty, [updateExpense] succeeds and [getExpenseById] then
    returns the merged expense as it was stored: the amount, currency,
    category and date of the returned object and the time of the update,
    the id and the creation time of the row, the description with an empty
    string turned into an absent one, and neither base amount, group nor
    payer even when the update named them.  An update that sets notes
    throws and leaves the row as it was. *)
Theorem updateExpense_then_getExpenseById now (id0 : string) (updates : ExpenseUpdates)
    w t (r : ExpenseRow) rest :
  db w = Some t → GET_EXPENSE_BY_ID id0 t = r :: rest →
  row_notes_encrypted r = None →
  (truthy (notes (mergeUpdates (expenseOfRow r) updates now)) = false →
   ∃ e w1,
     updateExpense now id0 updates w = Ok (e, w1) ∧
     e = mergeUpdates (expenseOfRow r) updates now ∧
     getExpenseById id0 w1 =
       Ok (Some (mkExpense id0 (amount e) (currencyCode e) None (category e)
                           (orNull (description e)) None (date e)
                           None None (row_created_at r) now), w1)) ∧
  (truthy (notes (mergeUpdates (expenseOfRow r) updates now)) = true →
   (∃ err, updateExpense now id0 updates w = Err err) ∧
   getExpenseById id0 w = Ok (Some (expenseOfRow r), w)).
Proof.
  intros Hdb Hget Hc.
  assert (Hread : getExpenseById id0 w = Ok (Some (expenseOfRow r), w)).
  { unfold getExpenseById, getDatabase. rewrite Hdb. cbn [mbind result_bind].
    by rewrite Hget, Hc. }
  split.
  - intros Hn. eexists _, _.
    split; [exact (updateExpense_ok now id0 updates w t r rest Hdb Hget Hc Hn)|].
    split; [reflexivity|].
    set (e := mergeUpdates (expenseOfRow r) updates now) in *.
    unfold getExpenseById, getDatabase, setTables. cbn [db mbind result_bind].
    assert (Hr : row_id r = id0).
    { assert (r ∈ GET_EXPENSE_BY_ID id0 t) as Hin by (rewrite Hget; by left).
      by apply list_elem_of_filter in Hin as [? _]. }
    unfold GET_EXPENSE_BY_ID, UPDATE_EXPENSE, withExpenses. cbn [expenses].
    rewrite filter_fmap_row_id.
    2:{ intros r0. destruct (String.eqb_spec (row_id r0) id0); [|done]. by cbn. }
    unfold GET_EXPENSE_BY_ID in Hget. rewrite Hget, fmap_cons.
    rewrite (proj2 (String.eqb_eq _ _) Hr). reflexivity.
  - intros Hn. split; [|exact Hread].
    unfold updateExpense. rewrite Hread. unfold getDatabase. rewrite Hdb.
    cbn [mbind result_bind].
    destruct (encryptNotes_some _ w Hn) as [err ->]. by exists err.
Qed.

Lemma updateExpense_then_getExpenseById_witness :
  (∃ e w1,
     updateExpense january2 "p1" (amountTo (Num.ofZ 30)) (world appPlain) = Ok (e, w1) ∧
     e = mergeUpdates (expenseOfRow rowPlain) (amountTo (Num.ofZ 30)) january2 ∧
     getExpenseById "p1" w1 =
       Ok (Some (mkExpense "p1" (amount e) (currencyCode e) None (category e)
                           (orNull (description e)) None (date e)
                           None None (row_created_at rowPlain) january2), w1)) ∧
  ((∃ err, updateExpense january2 "p1" (notesTo "new") (world appPlain) = Err err) ∧
   getExpenseById "p1" (world appPlain) = Ok (Some (expenseOfRow rowPlain), world appPlain)).
Proof.
  split.
  - apply (updateExpense_then_getExpenseById january2 "p1" (amountTo (Num.ofZ 30))
             (world appPlain) tablesPlain rowPlain []); reflexivity.
  - apply (updateExpense_then_getExpenseById january2 "p1" (notesTo "new")
             (world appPlain) tablesPlain rowPlain []); reflexivity.
Defined.

End expenses_more.

(** ** The undo log at its edges *)

Section undo_more.

Implicit Types (w : World) (t : Tables).

(** X11: [undoLastAction] returns [false] and leaves the database and the
    log as they are when the log is empty, when its newest entry is not
    about an expense, and when the newest entry is an edit of an expense
    that no row holds any more (the inverse [updateExpense] throws).  In
    the last two cases the entry stays the newest one, so every further
    call returns [false] as well until another action is saved. *)
Theorem undoLastAction_blocked now w t :
  db w = Some t →
  (undo_history t = [] → undoLastAction now w = Ok (false, w)) ∧
  (∀ (action : UndoAction) h,
     undo_history t = action :: h → undo_entityType action ≠ ent_expense →
     undoLastAction now w = Ok (false, w)) ∧
  (∀ (action : UndoAction) h,
     undo_history t = action :: h → undo_entityType action = ent_expense →
     undo_type action = undo_edit →
     GET_EXPENSE_BY_ID (id (payload action)) t = [] →
     undoLastAction now w = Ok (false, w)).
Proof.
  intros Hdb. unfold undoLastAction, getUndoHistory, getDatabase, GET_UNDO_HISTORY.
  rewrite Hdb. cbn [mbind result_bind]. repeat split.
  - by intros ->.
  - intros action h -> Hent. cbn [take]. by destruct (undo_entityType action).
  - intros action h -> Hent Htype Hget. cbn [take]. rewrite Hent.
    unfold undoExpenseAction. rewrite Htype.
    unfold updateExpense, getExpenseById, getDatabase. rewrite Hdb.
    cbn [mbind result_bind]. by rewrite Hget.
Qed.

Lemma undoLastAction_blocked_witness :
  undoLastAction january3 worldKeyed = Ok (false, worldKeyed) ∧
  undoLastAction january3 worldGroupEntry = Ok (false, worldGroupEntry) ∧
  undoLastAction january3 worldStaleEdit = Ok (false, worldStaleEdit).
Proof.
  split; [|split].
  - by apply (undoLastAction_blocked january3 worldKeyed emptyTables eq_refl).
  - eapply (proj1 (proj2 (undoLastAction_blocked january3 worldGroupEntry _ eq_refl)));
      [reflexivity | discriminate].
  - eapply (proj2 (proj2 (undoLastAction_blocked january3 worldStaleEdit _ eq_refl)));
      reflexivity.
Defined.

(** X12: [saveUndoAction] puts the new entry first, so it is the one the
    next [undoLastAction] takes; it drops the entries older than seven
    days before the time of the call and no other entry, however many
    there are. *)
Theorem saveUndoAction_keeps_a_week now (type : UndoType) (entityType : EntityType)
    (x : Expense) w t :
  db w = Some t → validDate now →
  ∃ w' t',
    saveUndoAction now type entityType x w = Ok w' ∧ db w' = Some t' ∧
    getUndoHistory 1 w' = Ok [mkUndo (entropy w (drawn w)) type entityType x now] ∧
    undo_history t' =
      mkUndo (entropy w (drawn w)) type entityType x now
        :: filter (λ u, isBefore (timestamp u) (addDays now (-7)) = false) (undo_history t) ∧
    expenses t' = expenses t ∧
    (∀ u, u ∈ undo_history t' → isBefore (timestamp u) (addDays now (-7)) = false) ∧
    (∀ u, u ∈ undo_history t → isBefore (timestamp u) (addDays now (-7)) = false →
          u ∈ undo_history t').
Proof.
  intros Hdb Hnow. rewrite (saveUndoAction_ok now type entityType x w t Hdb Hnow).
  eexists _, _. split; [reflexivity|]. split; [reflexivity|].
  unfold getUndoHistory, getDatabase. cbn [db mbind result_bind].
  unfold GET_UNDO_HISTORY, withUndo. cbn [undo_history expenses take].
  repeat split.
  - intros u [->|Hu]%elem_of_cons.
    + cbn [timestamp]. by apply cutoff_before.
    + by apply list_elem_of_filter in Hu as [? _].
  - intros u Hu Hkeep. right. by apply list_elem_of_filter.
Qed.

Lemma saveUndoAction_keeps_a_week_witness :
  ∃ w' t',
    saveUndoAction january2 undo_add ent_expense expenseX (world appX) = Ok w' ∧
    db w' = Some t' ∧
    getUndoHistory 1 w' =
      Ok [mkUndo (entropy (world appX) (drawn (world appX))) undo_add ent_expense
                 expenseX january2] ∧
    undo_history t' =
      mkUndo (entropy (world appX) (drawn (world appX))) undo_add ent_expense expenseX january2
        :: filter (λ u, isBefore (timestamp u) (addDays january2 (-7)) = false)
                  (undo_history tablesX) ∧
    expenses t' = expenses tablesX ∧
    (∀ u, u ∈ undo_history t' → isBefore (timestamp u) (addDays january2 (-7)) = false) ∧
    (∀ u, u ∈ undo_history tablesX →
          isBefore (timestamp u) (addDays january2 (-7)) = false →
          u ∈ undo_history t').
Proof.
  apply (saveUndoAction_keeps_a_week january2 undo_add ent_expense expenseX
           (world appX) tablesX).
  - reflexivity.
  - vm_compute. repeat split; first [reflexivity | discriminate].
Defined.



End undo_more.

(** ** The key across a lock *)

Section crypto_more.

Implicit Types (w : World) (key : string).

(** X14: the key survives a lock.  Once [initEncryptionKey] has succeeded
    the keychain holds the key that is in memory, also when the key had
    to be generated; [lockEncryptionKey] makes the key unavailable, and
    the next [initEncryptionKey] loads the same key from the keychain,
    giving the state before the lock. *)
Theorem key_survives_lock w w1 :
  initEncryptionKey w = Ok w1 →
  keychain w1 = Ok (encryptionKey w1) ∧
  isEncryptionKeyAvailable w1 = true ∧
  isEncryptionKeyAvailable (lockEncryptionKey w1) = false ∧
  initEncryptionKey (lockEncryptionKey w1) = Ok w1.
Proof.
  unfold initEncryptionKey. destruct w as [tables k kc supply n]. cbn [keychain].
  destruct kc as [[password|]|e]; [| |done].
  - intros [= <-]. by repeat split.
  - cbn [draw]. intros [= <-]. by repeat split.
Qed.

Lemma key_survives_lock_witness :
  ∃ w1,
    initEncryptionKey world0 = Ok w1 ∧
    keychain w1 = Ok (encryptionKey w1) ∧
    isEncryptionKeyAvailable w1 = true ∧
    isEncryptionKeyAvailable (lockEncryptionKey w1) = false ∧
    initEncryptionKey (lockEncryptionKey w1) = Ok w1.
Proof.
  eexists. split; [reflexivity|]. apply (key_survives_lock world0). reflexivity.
Defined.

End crypto_more.

(** ** The planner at the edges of a rule *)

Section recurrence_more.

Context {tz : TimeZone}.

Implicit Types (w : World) (t : Tables) (p : RecurringExpense).

Local Open Scope Z_scope.








End recurrence_more.

Section recurrence_more_utc.

Local Open Scope Z_scope.

#[local] Existing Instance utc.



End recurrence_more_utc.

(** ** The hex and base64 conversions *)

Section crypto_utils.

Local Open Scope Z_scope.

Lemma toInt32_small (z : Z) : - 2 ^ 31 ≤ z < 2 ^ 31 → toInt32 (Some z) = z.
Proof. intros Hz. unfold toInt32. rewrite Z.mod_small; lia. Qed.

Lemma band_range (x : Z) (n : Z) : 0 ≤ n → 0 ≤ band x (Z.ones n) < 2 ^ n.
Proof. intros Hn. unfold band. rewrite Z.land_ones by done. by apply Z.mod_pos_bound, Z.pow_pos_nonneg. Qed.

Lemma band63_range (x : Z) : 0 ≤ band x 63 < 64.
Proof. apply (band_range x 6). lia. Qed.

Lemma band255_range (x : Z) : 0 ≤ band x 255 < 256.
Proof. apply (band_range x 8). lia. Qed.

Lemma below_cases (P : Z → Prop) (n : nat) :
  Forall P (seqZ 0 (Z.of_nat n)) → ∀ k, 0 ≤ k < Z.of_nat n → P k.
Proof.
  intros H k Hk. apply (proj1 (Forall_forall _ _) H). apply elem_of_seqZ. lia.
Qed.

Lemma charAt_base64 (k : Z) :
  0 ≤ k < 64 →
  ∃ c, charAt base64Chars k = String c "" ∧ inAlphabet c = true ∧
       indexOf base64Chars (Some c) = k.
Proof.
  revert k. refine (below_cases _ 64 _). vm_compute seqZ.
  repeat (apply Forall_cons; split; [eexists; repeat split; reflexivity|]).
  by apply Forall_nil_2.
Qed.

Lemma charAt_hexDigits (k : Z) :
  0 ≤ k < 16 →
  ∃ c, charAt hexDigits k = String c "" ∧ isLowerHex c = true ∧
       hexDigitValue c = Some k.
Proof.
  revert k. refine (below_cases _ 16 _). vm_compute seqZ.
  repeat (apply Forall_cons; split; [eexists; repeat split; reflexivity|]).
  by apply Forall_nil_2.
Qed.

(** The two digits written for a byte, and what [parseInt] reads back. *)
Lemma hex_of_byte (b : Z) :
  0 ≤ b < 256 →
  ∃ c1 c2, padStart2 (toString16 b) = String c1 (String c2 "") ∧
           isLowerHex c1 = true ∧ isLowerHex c2 = true ∧
           parseInt16 (String c1 (String c2 "")) = Some b.
Proof.
  revert b. refine (below_cases _ 256 _). vm_compute seqZ.
  repeat (apply Forall_cons; split; [eexists _, _; repeat split; reflexivity|]).
  by apply Forall_nil_2.
Qed.

Lemma charCode_range (c : Ascii.ascii) : 0 ≤ charCode c < 256.
Proof.
  unfold charCode. pose proof (Ascii.N_ascii_bounded c). lia.
Qed.

Lemma charCode_fromCharCode (n : Z) : 0 ≤ n < 256 → charCode (fromCharCode n) = n.
Proof.
  intros Hn. unfold charCode, fromCharCode. rewrite Ascii.N_ascii_embedding; lia.
Qed.

(** *** Strings *)

Lemma string_app_cons (c : Ascii.ascii) (a b : string) :
  String c a +:+ b = String c (a +:+ b).
Proof. reflexivity. Qed.

Lemma string_app_nil_r (s : string) : s +:+ "" = s.
Proof. induction s as [|c s IH]; [done|]. by rewrite string_app_cons, IH. Qed.

Lemma string_app_assoc (a b c : string) : (a +:+ b) +:+ c = a +:+ (b +:+ c).
Proof. induction a as [|x a IH]; [done|]. by rewrite !string_app_cons, IH. Qed.

Lemma string_length_app (a b : string) :
  String.length (a +:+ b) = (String.length a + String.length b)%nat.
Proof.
  induction a as [|x a IH]; [done|].
  rewrite string_app_cons. cbn [String.length Nat.add]. by rewrite IH.
Qed.

Lemma stringForall_app (P : Ascii.ascii → bool) (a b : string) :
  stringForall P (a +:+ b) = stringForall P a && stringForall P b.
Proof.
  induction a as [|x a IH]; [done|]. rewrite string_app_cons. cbn [stringForall].
  rewrite IH. by destruct (P x).
Qed.

Lemma stripNonAlphabet_id (s : string) :
  stringForall inAlphabet s = true → stripNonAlphabet s = s.
Proof.
  induction s as [|c s IH]; [done|]. cbn [stringForall stripNonAlphabet].
  intros [Hc Hs]%andb_true_iff. by rewrite Hc, IH.
Qed.

Lemma hexOfBinary_app (a b : string) :
  hexOfBinary (a +:+ b) = hexOfBinary a +:+ hexOfBinary b.
Proof.
  induction a as [|x a IH]; [done|]. rewrite string_app_cons. cbn [hexOfBinary].
  by rewrite IH, string_app_assoc.
Qed.

Lemma concat_cons (x : string) (xs : list string) :
  String.concat "" (x :: xs) = x +:+ String.concat "" xs.
Proof.
  destruct xs; cbn [String.concat]; [by rewrite string_app_nil_r | done].
Qed.

Lemma hexOfBytes_cons (b : Z) (bs : list Z) :
  hexOfBytes (b :: bs) = padStart2 (toString16 b) +:+ hexOfBytes bs.
Proof. unfold hexOfBytes. by rewrite fmap_cons, concat_cons. Qed.

Lemma hexOfBytes_app (bs1 bs2 : list Z) :
  hexOfBytes (bs1 ++ bs2) = hexOfBytes bs1 +:+ hexOfBytes bs2.
Proof.
  induction bs1 as [|b bs1 IH]; [done|].
  cbn [app]. by rewrite !hexOfBytes_cons, IH, string_app_assoc.
Qed.

Lemma list_ind3 {A} (P : list A → Prop) :
  P [] → (∀ a, P [a]) → (∀ a b, P [a; b]) →
  (∀ a b c l, P l → P (a :: b :: c :: l)) →
  ∀ l, P l.
Proof.
  intros H0 H1 H2 H3 l.
  assert (P l ∧ (∀ a, P (a :: l)) ∧ (∀ a b, P (a :: b :: l))) as [H _].
  { induction l as [|x l (IH0 & IH1 & IH2)]; [by repeat split|].
    repeat split; [apply IH1 | intros a; apply IH2 | intros a b; by apply H3]. }
  exact H.
Qed.

(** *** Bits *)

Lemma lor_add (x y k : Z) :
  0 ≤ k → x mod 2 ^ k = 0 → 0 ≤ y < 2 ^ k → Z.lor x y = x + y.
Proof.
  intros Hk Hx Hy. apply Z.or_to_plus.
  assert (x = Z.shiftl (x / 2 ^ k) k) as ->.
  { rewrite Z.shiftl_mul_pow2 by done. pose proof (Z.div_mod x (2 ^ k)). lia. }
  rewrite <-(Z.mod_small y (2 ^ k)), <-Z.land_ones by done.
  Z.bitblast.
Qed.

Ltac pow_lia :=
  change (2 ^ 18) with 262144 in *; change (2 ^ 16) with 65536 in *;
  change (2 ^ 12) with 4096 in *; change (2 ^ 8) with 256 in *;
  change (2 ^ 6) with 64 in *; Z.div_mod_to_equations; lia.

Lemma bitmap_value (a b c : Z) :
  0 ≤ a < 256 → 0 ≤ b < 256 → 0 ≤ c < 256 →
  Z.lor (Z.lor (Z.shiftl a 16) (Z.shiftl b 8)) c = a * 65536 + b * 256 + c.
Proof.
  intros Ha Hb Hc. rewrite !Z.shiftl_mul_pow2 by lia.
  rewrite (lor_add (a * 2 ^ 16) _ 16), (lor_add _ c 8); pow_lia.
Qed.

Lemma sextets_value (s1 s2 s3 s4 : Z) :
  0 ≤ s1 < 64 → 0 ≤ s2 < 64 → 0 ≤ s3 < 64 → 0 ≤ s4 < 64 →
  Z.lor (Z.lor (Z.lor (Z.shiftl s1 18) (Z.shiftl s2 12)) (Z.shiftl s3 6)) s4
    = s1 * 262144 + s2 * 4096 + s3 * 64 + s4.
Proof.
  intros H1 H2 H3 H4. rewrite !Z.shiftl_mul_pow2 by lia.
  rewrite (lor_add (s1 * 2 ^ 18) _ 18), (lor_add _ (s3 * 2 ^ 6) 12), (lor_add _ s4 6);
    pow_lia.
Qed.

Lemma byte_sextets (a b c : Z) :
  0 ≤ a < 256 → 0 ≤ b < 256 → 0 ≤ c < 256 →
  let bitmap := a * 65536 + b * 256 + c in
  let s1 := Z.land (Z.shiftr bitmap 18) 63 in
  let s2 := Z.land (Z.shiftr bitmap 12) 63 in
  let s3 := Z.land (Z.shiftr bitmap 6) 63 in
  let s4 := Z.land bitmap 63 in
  let bitmap' := s1 * 262144 + s2 * 4096 + s3 * 64 + s4 in
  Z.land (Z.shiftr bitmap' 16) 255 = a ∧
  Z.land (Z.shiftr bitmap' 8) 255 = b ∧
  Z.land bitmap' 255 = c.
Proof.
  intros Ha Hb Hc. cbv zeta.
  change 63 with (Z.ones 6). change 255 with (Z.ones 8).
  rewrite !Z.land_ones, !Z.shiftr_div_pow2 by lia.
  repeat split; pow_lia.
Qed.

Lemma shl_small (z n : Z) :
  0 ≤ n → 0 ≤ z → z * 2 ^ n < 2 ^ 31 → shl (Some z) n = Z.shiftl z n.
Proof.
  intros Hn Hz Hlt. unfold shl.
  assert (z < 2 ^ 31).
  { pose proof (Z.pow_pos_nonneg 2 n ltac:(lia) Hn). nia. }
  rewrite (toInt32_small z) by lia.
  apply toInt32_small. rewrite Z.shiftl_mul_pow2 by done.
  pose proof (Z.pow_pos_nonneg 2 n ltac:(lia) Hn). nia.
Qed.

(** *** Encoding *)

Lemma encodeGroup_chars (len i : Z) (a b c : option Z) :
  i ≤ len →
  ∃ c1 c2 c3 c4,
    encodeGroup len i a b c = String c1 (String c2 (String c3 (String c4 ""))) ∧
    (inAlphabet c1 = true ∧ inAlphabet c2 = true ∧
     inAlphabet c3 = true ∧ inAlphabet c4 = true) ∧
    indexOf base64Chars (Some c1)
      = band (sar (bor (bor (shl a 16) (shl b 8)) (toInt32 c)) 18) 63 ∧
    indexOf base64Chars (Some c2)
      = band (sar (bor (bor (shl a 16) (shl b 8)) (toInt32 c)) 12) 63 ∧
    indexOf base64Chars (Some c3)
      = band (sar (bor (bor (shl a 16) (shl b 8)) (toInt32 c)) 6) 63 ∧
    indexOf base64Chars (Some c4)
      = band (bor (bor (shl a 16) (shl b 8)) (toInt32 c)) 63.
Proof.
  intros Hi. unfold encodeGroup. cbv zeta.
  set (bitmap := bor (bor (shl a 16) (shl b 8)) (toInt32 c)).
  assert ((i - 2 <? len) = true) as -> by (apply Z.ltb_lt; lia).
  assert ((i - 1 <? len) = true) as -> by (apply Z.ltb_lt; lia).
  destruct (charAt_base64 _ (band63_range (sar bitmap 18))) as (c1 & -> & H1 & I1).
  destruct (charAt_base64 _ (band63_range (sar bitmap 12))) as (c2 & -> & H2 & I2).
  destruct (charAt_base64 _ (band63_range (sar bitmap 6))) as (c3 & -> & H3 & I3).
  destruct (charAt_base64 _ (band63_range bitmap)) as (c4 & -> & H4 & I4).
  by exists c1, c2, c3, c4.
Qed.

Lemma encodeFrom_alphabet (bytes : list (option Z)) :
  ∀ len i, i + Z.of_nat (length bytes) ≤ len →
    stringForall inAlphabet (encodeFrom len i bytes) = true ∧
    String.length (encodeFrom len i bytes) = (4 * ((length bytes + 2) / 3))%nat.
Proof.
  induction bytes as [|a|a b|a b c rest IH] using list_ind3; intros len i Hlen.
  - done.
  - cbn [length] in Hlen. cbn [encodeFrom].
    destruct (encodeGroup_chars len (i + 1) a (Some 0) (Some 0))
      as (c1 & c2 & c3 & c4 & -> & (H1 & H2 & H3 & H4) & _); [lia|].
    cbn [stringForall String.length]. by rewrite H1, H2, H3, H4.
  - cbn [length] in Hlen. cbn [encodeFrom].
    destruct (encodeGroup_chars len (i + 2) a b (Some 0))
      as (c1 & c2 & c3 & c4 & -> & (H1 & H2 & H3 & H4) & _); [lia|].
    cbn [stringForall String.length]. by rewrite H1, H2, H3, H4.
  - cbn [length] in Hlen. cbn [encodeFrom].
    destruct (encodeGroup_chars len (i + 3) a b c)
      as (c1 & c2 & c3 & c4 & -> & (H1 & H2 & H3 & H4) & _); [lia|].
    destruct (IH len (i + 3)) as [IHa IHl]; [lia|].
    rewrite stringForall_app, string_length_app, IHa, IHl.
    cbn [stringForall String.length length]. rewrite H1, H2, H3, H4.
    split; [done|].
    replace (S (S (S (length rest))) + 2)%nat with (1 * 3 + (length rest + 2))%nat by lia.
    rewrite Nat.div_add_l by lia. lia.
Qed.

Lemma length_chunk2 (s : string) :
  length (chunk2 s) = ((String.length s + 1) / 2)%nat.
Proof.
  assert (length (chunk2 s) = ((String.length s + 1) / 2)%nat ∧
          ∀ c, length (chunk2 (String c s)) = ((String.length (String c s) + 1) / 2)%nat)
    as [H _]; [|done].
  induction s as [|x s [IH0 IH1]]; [by split|]. split; [apply IH1|].
  intros c. cbn [chunk2 length String.length]. rewrite IH0.
  replace (S (S (String.length s)) + 1)%nat with (1 * 2 + (String.length s + 1))%nat by lia.
  by rewrite Nat.div_add_l by lia.
Qed.

(** X17: whatever the input string, [hexToBase64] returns four characters
    of the base64 alphabet for every three bytes begun (a byte is what
    [parseInt] makes of two characters of the input, the last one maybe of
    one) and never the padding character [=]: the two tests that guard
    the padding compare the index after the reads with the length, and
    are always true. *)
Theorem hexToBase64_never_pads (hex : string) :
  stringForall inAlphabet (hexToBase64 hex) = true ∧
  stringForall (λ c, negb (charCode c =? 61)) (hexToBase64 hex) = true ∧
  String.length (hexToBase64 hex)
    = (4 * (((String.length hex + 1) / 2 + 2) / 3))%nat.
Proof.
  unfold hexToBase64. cbv zeta.
  destruct (encodeFrom_alphabet (parseInt16 <$> chunk2 hex)
              (Z.of_nat (length (parseInt16 <$> chunk2 hex))) 0) as [Ha Hl]; [lia|].
  split; [done|]. split.
  - revert Ha. generalize (encodeFrom (Z.of_nat (length (parseInt16 <$> chunk2 hex))) 0
                             (parseInt16 <$> chunk2 hex)).
    intros s. induction s as [|c s IH]; [done|]. cbn [stringForall].
    intros [Hc Hs]%andb_true_iff. rewrite IH by done.
    rewrite andb_true_r. apply negb_true_iff, Z.eqb_neq. intros Heq.
    unfold inAlphabet in Hc. rewrite Heq in Hc. done.
  - by rewrite Hl, length_fmap, length_chunk2.
Qed.

(** *** Decoding *)

Lemma indexFrom_bound (s : string) (c : Ascii.ascii) (k : Z) :
  indexFrom s c k = -1 ∨ k ≤ indexFrom s c k < k + Z.of_nat (String.length s).
Proof.
  revert k. induction s as [|x s IH]; intros k; [by left|].
  cbn [indexFrom String.length]. destruct (Ascii.eqb x c); [right; lia|].
  destruct (IH (k + 1)) as [->|H]; [by left | right; lia].
Qed.

Lemma indexOf_base64 (c : option Ascii.ascii) : -1 ≤ indexOf base64Chars c < 64.
Proof.
  destruct c as [c|]; [|done]. unfold indexOf.
  destruct (indexFrom_bound base64Chars c 0) as [->|H]; [done|].
  change (Z.of_nat (String.length base64Chars)) with 64 in H. lia.
Qed.

Lemma decodeGroup_three (c1 c2 c3 c4 : option Ascii.ascii) :
  ∃ x y z, decodeGroup c1 c2 c3 c4 = String x (String y (String z "")).
Proof.
  unfold decodeGroup. cbv zeta.
  pose proof (indexOf_base64 c3). pose proof (indexOf_base64 c4).
  rewrite (proj2 (Z.eqb_neq (indexOf base64Chars c3) 64)) by lia.
  rewrite (proj2 (Z.eqb_neq (indexOf base64Chars c4) 64)) by lia.
  by eexists _, _, _.
Qed.

Lemma string_ind4 (P : string → Prop) :
  P "" → (∀ a, P (String a "")) → (∀ a b, P (String a (String b ""))) →
  (∀ a b c, P (String a (String b (String c "")))) →
  (∀ a b c d s, P s → P (String a (String b (String c (String d s))))) →
  ∀ s, P s.
Proof.
  intros H0 H1 H2 H3 H4 s.
  assert (P s ∧ (∀ a, P (String a s)) ∧ (∀ a b, P (String a (String b s))) ∧
          (∀ a b c, P (String a (String b (String c s))))) as [H _].
  { induction s as [|x s (IH0 & IH1 & IH2 & IH3)]; [by repeat split|].
    repeat split; [apply IH1 | intros a; apply IH2 | intros a b; apply IH3
                  | intros a b c; by apply H4]. }
  exact H.
Qed.

Lemma decodeFrom_length (s : string) :
  String.length (decodeFrom s) = (3 * ((String.length s + 3) / 4))%nat.
Proof.
  induction s as [|a|a b|a b c|a b c d s IH] using string_ind4; [done|..].
  - cbn [decodeFrom]. by destruct (decodeGroup_three (Some a) None None None)
      as (x & y & z & ->).
  - cbn [decodeFrom]. by destruct (decodeGroup_three (Some a) (Some b) None None)
      as (x & y & z & ->).
  - cbn [decodeFrom]. by destruct (decodeGroup_three (Some a) (Some b) (Some c) None)
      as (x & y & z & ->).
  - cbn [decodeFrom].
    destruct (decodeGroup_three (Some a) (Some b) (Some c) (Some d)) as (x & y & z & ->).
    rewrite string_length_app, IH. cbn [String.length].
    replace (S (S (S (S (String.length s)))) + 3)%nat
      with (1 * 4 + (String.length s + 3))%nat by lia.
    rewrite Nat.div_add_l by lia. lia.
Qed.

Lemma hexOfBinary_length (s : string) :
  String.length (hexOfBinary s) = (2 * String.length s)%nat ∧
  stringForall isLowerHex (hexOfBinary s) = true.
Proof.
  induction s as [|c s [IHl IHa]]; [done|]. cbn [hexOfBinary].
  destruct (hex_of_byte (charCode c) (charCode_range c)) as (c1 & c2 & -> & H1 & H2 & _).
  rewrite string_length_app, stringForall_app, IHl, IHa.
  cbn [String.length stringForall]. rewrite H1, H2. split; [lia | done].
Qed.

(** X18: [base64ToHex] never produces a partial group.  It drops every
    character outside the base64 alphabet, the padding included, and then
    writes three bytes (six lower-case hexadecimal digits) for every four
    characters begun: a character missing at the end is looked up as the
    empty string, which [indexOf] finds at index 0, so the tests against
    64 never fire. *)
Theorem base64ToHex_whole_groups (base64 : string) :
  String.length (base64ToHex base64)
    = (6 * ((String.length (stripNonAlphabet base64) + 3) / 4))%nat ∧
  stringForall isLowerHex (base64ToHex base64) = true.
Proof.
  unfold base64ToHex.
  destruct (hexOfBinary_length (decodeFrom (stripNonAlphabet base64))) as [-> ->].
  split; [|done]. rewrite decodeFrom_length. lia.
Qed.

(** *** Encoding and decoding again *)

Lemma decode_encode_group (len i a b c : Z) :
  0 ≤ a < 256 → 0 ≤ b < 256 → 0 ≤ c < 256 → i ≤ len →
  ∃ c1 c2 c3 c4,
    encodeGroup len i (Some a) (Some b) (Some c)
      = String c1 (String c2 (String c3 (String c4 ""))) ∧
    decodeGroup (Some c1) (Some c2) (Some c3) (Some c4) = binaryOf [a; b; c].
Proof.
  intros Ha Hb Hc Hi.
  destruct (encodeGroup_chars len i (Some a) (Some b) (Some c) Hi)
    as (c1 & c2 & c3 & c4 & Henc & _ & I1 & I2 & I3 & I4).
  exists c1, c2, c3, c4. split; [done|].
  unfold decodeGroup. cbv zeta. rewrite I1, I2, I3, I4. clear I1 I2 I3 I4 Henc.
  assert (bor (bor (shl (Some a) 16) (shl (Some b) 8)) (toInt32 (Some c))
          = a * 65536 + b * 256 + c) as ->.
  { rewrite !shl_small, toInt32_small by lia. by apply bitmap_value. }
  set (bitmap := a * 65536 + b * 256 + c).
  pose proof (band63_range (sar bitmap 18)) as R1.
  pose proof (band63_range (sar bitmap 12)) as R2.
  pose proof (band63_range (sar bitmap 6)) as R3.
  pose proof (band63_range bitmap) as R4.
  rewrite (proj2 (Z.eqb_neq (band (sar bitmap 6) 63) 64)) by lia.
  rewrite (proj2 (Z.eqb_neq (band bitmap 63) 64)) by lia.
  rewrite !shl_small, toInt32_small by lia.
  unfold bor. rewrite sextets_value by done.
  destruct (byte_sextets a b c Ha Hb Hc) as (E1 & E2 & E3).
  unfold band, sar in *. fold bitmap in E1, E2, E3. by rewrite E1, E2, E3.
Qed.

Lemma padToTriples_cons3 (a b c : Z) (rest : list Z) :
  padToTriples (a :: b :: c :: rest) = a :: b :: c :: padToTriples rest.
Proof.
  unfold padToTriples. cbn [length app].
  replace (S (S (S (length rest)))) with (length rest + 1 * 3)%nat by lia.
  by rewrite Nat.Div0.mod_add.
Qed.

Lemma decode_encode (bs : list Z) :
  Forall (λ b, 0 ≤ b < 256) bs →
  ∀ len i, i + Z.of_nat (length bs) ≤ len →
    decodeFrom (encodeFrom len i (Some <$> bs)) = binaryOf (padToTriples bs).
Proof.
  induction bs as [|a|a b|a b c rest IH] using list_ind3; intros Hbs len i Hlen.
  - done.
  - apply Forall_cons in Hbs as [Ha _]. cbn [length] in Hlen. cbn [fmap list_fmap encodeFrom].
    destruct (decode_encode_group len (i + 1) a 0 0) as (c1 & c2 & c3 & c4 & -> & Hd);
      [lia..|].
    cbn [decodeFrom]. by rewrite Hd, string_app_nil_r.
  - apply Forall_cons in Hbs as [Ha [Hb _]%Forall_cons]. cbn [length] in Hlen.
    cbn [fmap list_fmap encodeFrom].
    destruct (decode_encode_group len (i + 2) a b 0) as (c1 & c2 & c3 & c4 & -> & Hd);
      [lia..|].
    cbn [decodeFrom]. by rewrite Hd, string_app_nil_r.
  - apply Forall_cons in Hbs as [Ha [Hb [Hc Hrest]%Forall_cons]%Forall_cons].
    cbn [length] in Hlen. cbn [fmap list_fmap encodeFrom].
    destruct (decode_encode_group len (i + 3) a b c) as (c1 & c2 & c3 & c4 & -> & Hd);
      [lia..|].
    rewrite !string_app_cons. cbn [String.append decodeFrom].
    change (list_fmap Z (option Z) Some rest) with (Some <$> rest).
    change ("" +:+ encodeFrom len (i + 3) (Some <$> rest))
      with (encodeFrom len (i + 3) (Some <$> rest)).
    rewrite Hd, (IH Hrest len (i + 3)) by lia.
    by rewrite padToTriples_cons3.
Qed.

Lemma chunk2_hexOfBytes (bs : list Z) :
  Forall (λ b, 0 ≤ b < 256) bs →
  parseInt16 <$> chunk2 (hexOfBytes bs) = Some <$> bs.
Proof.
  induction bs as [|b bs IH]; [done|]. intros [Hb Hbs]%Forall_cons.
  rewrite hexOfBytes_cons.
  destruct (hex_of_byte b Hb) as (c1 & c2 & -> & _ & _ & Hparse).
  rewrite !string_app_cons.
  change ("" +:+ hexOfBytes bs) with (hexOfBytes bs). cbn [chunk2].
  by rewrite !fmap_cons, Hparse, IH.
Qed.

Lemma hexOfBinary_binaryOf (bs : list Z) :
  Forall (λ b, 0 ≤ b < 256) bs → hexOfBinary (binaryOf bs) = hexOfBytes bs.
Proof.
  induction bs as [|b bs IH]; [done|]. intros [Hb Hbs]%Forall_cons.
  cbn [binaryOf hexOfBinary]. by rewrite charCode_fromCharCode, hexOfBytes_cons, IH.
Qed.

Lemma padToTriples_range (bs : list Z) :
  Forall (λ b, 0 ≤ b < 256) bs → Forall (λ b, 0 ≤ b < 256) (padToTriples bs).
Proof.
  intros Hbs. unfold padToTriples. apply Forall_app. split; [done|].
  apply Forall_replicate. lia.
Qed.

Lemma round_trip_padded (bs : list Z) :
  Forall (λ b, 0 ≤ b < 256) bs →
  base64ToHex (hexToBase64 (hexOfBytes bs)) = hexOfBytes (padToTriples bs).
Proof.
  intros Hbs. unfold base64ToHex, hexToBase64. cbv zeta.
  rewrite (chunk2_hexOfBytes bs Hbs), length_fmap.
  destruct (encodeFrom_alphabet (Some <$> bs) (Z.of_nat (length bs)) 0) as [Ha _].
  { rewrite length_fmap. lia. }
  rewrite stripNonAlphabet_id by done.
  rewrite decode_encode by (done || lia).
  by apply hexOfBinary_binaryOf, padToTriples_range.
Qed.

Lemma length_hexOfBytes (bs : list Z) :
  Forall (λ b, 0 ≤ b < 256) bs →
  String.length (hexOfBytes bs) = (2 * length bs)%nat ∧
  stringForall isLowerHex (hexOfBytes bs) = true.
Proof.
  induction bs as [|b bs IH]; [done|]. intros [Hb Hbs]%Forall_cons.
  destruct (IH Hbs) as [IHl IHa]. rewrite hexOfBytes_cons.
  destruct (hex_of_byte b Hb) as (c1 & c2 & -> & H1 & H2 & _).
  rewrite string_length_app, stringForall_app, IHl, IHa.
  cbn [String.length stringForall length]. rewrite H1, H2. split; [lia | done].
Qed.

(** X19: [base64ToHex] undoes [hexToBase64] only up to zero bytes: for
    the hexadecimal writing of any byte sequence, converting to base64 and
    back gives the writing of the sequence followed by the zero bytes that
    fill its last group of three.  The two conversions are inverse to each
    other exactly on the sequences whose length is a multiple of three. *)
Theorem hex_base64_round_trip (bytes : list Z) :
  Forall (λ b, 0 ≤ b < 256) bytes →
  base64ToHex (hexToBase64 (hexOfBytes bytes)) = hexOfBytes (padToTriples bytes) ∧
  (base64ToHex (hexToBase64 (hexOfBytes bytes)) = hexOfBytes bytes
   ↔ (length bytes mod 3 = 0)%nat).
Proof.
  intros Hbs. pose proof (round_trip_padded bytes Hbs) as Hrt. split; [done|].
  rewrite Hrt. split.
  - intros Heq. apply (f_equal String.length) in Heq.
    rewrite (proj1 (length_hexOfBytes _ (padToTriples_range _ Hbs))) in Heq.
    rewrite (proj1 (length_hexOfBytes _ Hbs)) in Heq.
    unfold padToTriples in Heq. rewrite length_app, length_replicate in Heq.
    pose proof (Nat.mod_upper_bound (length bytes) 3 ltac:(lia)).
    destruct (length bytes mod 3)%nat as [|[|[|n]]]; [done | | | lia].
    + change ((3 - 1) mod 3)%nat with 2%nat in Heq. lia.
    + change ((3 - 2) mod 3)%nat with 1%nat in Heq. lia.
  - intros Hmod. unfold padToTriples. rewrite Hmod.
    change ((3 - 0) mod 3)%nat with 0%nat. cbn [replicate]. by rewrite app_nil_r.
Qed.

Lemma hex_base64_round_trip_witness :
  base64ToHex (hexToBase64 (hexOfBytes [255; 0; 16; 7]))
    = hexOfBytes (padToTriples [255; 0; 16; 7]) ∧
  (base64ToHex (hexToBase64 (hexOfBytes [255; 0; 16; 7])) = hexOfBytes [255; 0; 16; 7]
   ↔ (length [255; 0; 16; 7] mod 3 = 0)%nat).
Proof.
  apply (hex_base64_round_trip [255; 0; 16; 7]).
  repeat (apply Forall_cons; split; [lia|]). by apply Forall_nil_2.
Defined.

(** *** Random keys *)

Lemma floor_scaled_range (r : Qc) (n : Z) :
  0 < n → (0 ≤ r)%Qc ∧ (r < 1)%Qc → 0 ≤ Qfloor (r * Num.ofZ n)%Qc < n.
Proof.
  intros Hn [H0 H1].
  assert (Hx : (this (r * Num.ofZ n)%Qc == this r * inject_Z n)%Q).
  { unfold Qcmult, Num.ofZ, Q2Qc. cbn [this]. by rewrite !Qred_correct. }
  assert (Hn' : (0 < inject_Z n)%Q) by (unfold Qlt; cbn; lia).
  unfold Qcle, Qclt in H0, H1. cbn [this Q2Qc] in H0, H1.
  split.
  - change 0 with (Qfloor 0%Q). apply Qfloor_resp_le. rewrite Hx.
    apply Qmult_le_0_compat; [done | by apply Qlt_le_weak].
  - rewrite Zlt_Qlt.
    apply Qle_lt_trans with (this (r * Num.ofZ n)%Qc); [apply Qfloor_le|].
    rewrite Hx. apply Qlt_le_trans with (1 * inject_Z n)%Q.
    + apply Qmult_lt_compat_r; [done | exact H1].
    + rewrite Qmult_1_l. apply Qle_refl.
Qed.

Lemma randomSupply_range (k : nat) :
  (0 ≤ randomSupply k)%Qc ∧ (randomSupply k < 1)%Qc.
Proof.
  unfold randomSupply, Qcle, Qclt, Q2Qc. cbn [this]. rewrite !Qred_correct.
  unfold Qle, Qlt. cbn [Qnum Qden]. rewrite Zpos_P_of_succ_nat. lia.
Qed.

Lemma randomBytes_range (random : nat → Qc) (n : nat) :
  (∀ k, (0 ≤ random k)%Qc ∧ (random k < 1)%Qc) →
  Forall (λ b, 0 ≤ b < 256) ((λ i, randomByte (random i)) <$> seq 0 n).
Proof.
  intros Hrandom. apply Forall_fmap, Forall_forall. intros i _.
  by apply floor_scaled_range.
Qed.

(** X20: with [Math.random()] returning numbers from 0 up to but not
    including 1, [generateSecureKey] returns 64 and [generateIV] 24
    lower-case hexadecimal digits.  Through [hexToBase64] and back through
    [base64ToHex] the initialisation vector comes back as it was, while
    the key comes back with the byte [00] appended: 32 bytes are not a
    whole number of groups of three. *)
Theorem generated_key_through_base64 (random : nat → Qc) :
  (∀ k, (0 ≤ random k)%Qc ∧ (random k < 1)%Qc) →
  String.length (generateSecureKey random) = 64%nat ∧
  stringForall isLowerHex (generateSecureKey random) = true ∧
  base64ToHex (hexToBase64 (generateSecureKey random))
    = generateSecureKey random +:+ "00" ∧
  String.length (generateIV random) = 24%nat ∧
  stringForall isLowerHex (generateIV random) = true ∧
  base64ToHex (hexToBase64 (generateIV random)) = generateIV random.
Proof.
  intros Hrandom. unfold generateSecureKey, generateIV.
  pose proof (randomBytes_range random 32 Hrandom) as H32.
  pose proof (randomBytes_range random 12 Hrandom) as H12.
  destruct (length_hexOfBytes _ H32) as [L32 A32].
  destruct (length_hexOfBytes _ H12) as [L12 A12].
  rewrite length_fmap, length_seq in L32, L12.
  rewrite !round_trip_padded by done.
  unfold padToTriples. rewrite !length_fmap, !length_seq.
  change ((3 - 32 mod 3) mod 3)%nat with 1%nat.
  change ((3 - 12 mod 3) mod 3)%nat with 0%nat.
  cbn [replicate]. rewrite app_nil_r, hexOfBytes_app.
  by repeat split.
Qed.

Lemma generated_key_through_base64_witness :
  String.length (generateSecureKey randomSupply) = 64%nat ∧
  stringForall isLowerHex (generateSecureKey randomSupply) = true ∧
  base64ToHex (hexToBase64 (generateSecureKey randomSupply))
    = generateSecureKey randomSupply +:+ "00" ∧
  String.length (generateIV randomSupply) = 24%nat ∧
  stringForall isLowerHex (generateIV randomSupply) = true ∧
  base64ToHex (hexToBase64 (generateIV randomSupply)) = generateIV randomSupply.
Proof.
  apply (generated_key_through_base64 randomSupply). exact randomSupply_range.
Defined.

(** *** Identifiers *)

Lemma replacement_x (rnd : Qc) :
  (0 ≤ rnd)%Qc ∧ (rnd < 1)%Qc →
  ∃ c, replacement "x" rnd = String c "" ∧ isLowerHex c = true.
Proof.
  intros Hrnd. unfold replacement. cbv zeta.
  pose proof (floor_scaled_range rnd 16 ltac:(lia) Hrnd) as Hr.
  change (Ascii.eqb "x" "x") with true. cbv iota.
  unfold toString16. rewrite (proj2 (Z.ltb_lt _ 16)) by lia.
  destruct (charAt_hexDigits _ Hr) as (c & -> & Hc & _). by exists c.
Qed.

Lemma replacement_y (rnd : Qc) :
  (0 ≤ rnd)%Qc ∧ (rnd < 1)%Qc →
  ∃ c, replacement "y" rnd = String c "" ∧ c ∈ ["8"; "9"; "a"; "b"]%char.
Proof.
  intros Hrnd. unfold replacement. cbv zeta.
  pose proof (floor_scaled_range rnd 16 ltac:(lia) Hrnd) as Hr.
  change (Ascii.eqb "y" "x") with false. cbv iota.
  revert Hr. generalize (Qfloor (rnd * Num.ofZ 16)%Qc). clear Hrnd.
  refine (below_cases _ 16 _). vm_compute seqZ.
  repeat (apply Forall_cons; split;
          [eexists; split; [reflexivity | solve [repeat constructor]]|]).
  by apply Forall_nil_2.
Qed.

Lemma replaceXY_matches (random : nat → Qc) (t : string) :
  (∀ k, (0 ≤ random k)%Qc ∧ (random k < 1)%Qc) →
  ∀ k, matchesTemplate t (replaceXY random k t) = true.
Proof.
  intros Hrandom. induction t as [|p t IH]; intros k; [done|].
  cbn [replaceXY]. destruct (Ascii.eqb_spec p "x") as [->|Hx].
  - cbn [orb]. destruct (replacement_x (random k) (Hrandom k)) as (c & -> & Hc).
    rewrite string_app_cons.
    change ("" +:+ replaceXY random (S k) t) with (replaceXY random (S k) t).
    cbn [matchesTemplate]. change (Ascii.eqb "x" "x") with true. cbv iota.
    by rewrite Hc, IH.
  - cbn [orb]. destruct (Ascii.eqb_spec p "y") as [->|Hy].
    + destruct (replacement_y (random k) (Hrandom k)) as (c & -> & Hc).
      rewrite string_app_cons.
      change ("" +:+ replaceXY random (S k) t) with (replaceXY random (S k) t).
      cbn [matchesTemplate]. change (Ascii.eqb "y" "x") with false.
      change (Ascii.eqb "y" "y") with true. cbv iota.
      by rewrite bool_decide_eq_true_2, IH.
    + cbn [matchesTemplate].
      rewrite (proj2 (Ascii.eqb_neq p "x")), (proj2 (Ascii.eqb_neq p "y")) by done.
      by rewrite Ascii.eqb_refl, IH.
Qed.

Lemma matchesTemplate_length (t s : string) :
  matchesTemplate t s = true → String.length s = String.length t.
Proof.
  revert s. induction t as [|p t IH]; intros [|c s]; try done.
  cbn [matchesTemplate String.length]. intros [_ Hm]%andb_true_iff.
  by rewrite (IH _ Hm).
Qed.

(** X21: with [Math.random()] returning numbers from 0 up to but not
    including 1, [generateUUID] returns 36 characters in the form of a
    version 4 identifier: lower-case hexadecimal digits in groups of 8, 4,
    4, 4 and 12 separated by [-], with [4] opening the third group and one
    of [8], [9], [a], [b] opening the fourth. *)
Theorem generateUUID_format (random : nat → Qc) :
  (∀ k, (0 ≤ random k)%Qc ∧ (random k < 1)%Qc) →
  matchesTemplate template (generateUUID random) = true ∧
  String.length (generateUUID random) = 36%nat.
Proof.
  intros Hrandom.
  pose proof (replaceXY_matches random template Hrandom 0%nat) as Hm.
  split; [exact Hm|]. unfold generateUUID.
  exact (matchesTemplate_length _ _ Hm).
Qed.

Lemma generateUUID_format_witness :
  matchesTemplate template (generateUUID randomSupply) = true ∧
  String.length (generateUUID randomSupply) = 36%nat.
Proof.
  apply (generateUUID_format randomSupply). exact randomSupply_range.
Defined.

End crypto_utils.

Section analytics.

Implicit Types (x y : Expense) (l : list Expense).

Lemma insertExpense_Permutation x l : insertExpense x l ≡ₚ x :: l.
Proof.
  induction l as [|y l IH]; [done|]. cbn [insertExpense].
  destruct (Num.ltb (amount x) (amount y)); [|done]. by rewrite IH, Permutation_swap.
Qed.

Lemma sortByAmount_Permutation l : sortByAmount l ≡ₚ l.
Proof.
  induction l as [|x l IH]; [done|]. cbn [sortByAmount foldr].
  fold (sortByAmount l). by rewrite insertExpense_Permutation, IH.
Qed.

Lemma insertExpense_sorted x l :
  StronglySorted (λ a b, amount b ≤ amount a) l →
  StronglySorted (λ a b, amount b ≤ amount a) (insertExpense x l).
Proof.
  induction 1 as [|y l Hl IH Hy]; [repeat constructor|]. cbn [insertExpense].
  destruct (Num.ltb (amount x) (amount y)) eqn:Hlt.
  - constructor; [done|]. rewrite insertExpense_Permutation.
    constructor; [|done]. unfold Num.ltb in Hlt.
    apply bool_decide_eq_true in Hlt. by apply Qclt_le_weak.
  - apply ltb_false_le in Hlt. constructor; [by constructor|].
    constructor; [done|]. eapply Forall_impl; [exact Hy|].
    intros z Hz. cbn beta in *. by apply Qcle_trans with (amount y).
Qed.

Lemma sortByAmount_sorted l :
  StronglySorted (λ a b, amount b ≤ amount a) (sortByAmount l).
Proof.
  induction l as [|x l IH]; [constructor|]. cbn [sortByAmount foldr].
  by apply insertExpense_sorted.
Qed.

(** X22: [getHighestExpenses] returns the highest amounts first: its
    result is in descending order of amount, it is a part of the expenses
    given, and no expense left out has a higher amount than one returned.
    For a [limit] of 0 or more it has [limit] expenses, or all if there
    are fewer; a negative [limit] leaves out that many of the lowest
    instead. *)
Theorem getHighestExpenses_highest (expenses : list Expense) (limit : Z) :
  ∃ rest,
    expenses ≡ₚ getHighestExpenses expenses limit ++ rest ∧
    StronglySorted (λ a b, amount b ≤ amount a) (getHighestExpenses expenses limit) ∧
    (∀ x y, x ∈ getHighestExpenses expenses limit → y ∈ rest → amount y ≤ amount x) ∧
    Z.of_nat (length (getHighestExpenses expenses limit))
      = (if (limit <? 0)%Z
         then Z.max 0 (Z.of_nat (length expenses) + limit)
         else Z.min limit (Z.of_nat (length expenses)))%Z.
Proof.
  unfold getHighestExpenses, slice0.
  pose proof (sortByAmount_sorted expenses) as Hs.
  pose proof (sortByAmount_Permutation expenses) as Hp.
  assert (Hlen : length (sortByAmount expenses) = length expenses) by by rewrite Hp.
  set (n := if (limit <? 0)%Z
            then Z.to_nat (Z.of_nat (length (sortByAmount expenses)) + limit)
            else Z.to_nat limit).
  assert ((if (limit <? 0)%Z
           then take (Z.to_nat (Z.of_nat (length (sortByAmount expenses)) + limit))
                     (sortByAmount expenses)
           else take (Z.to_nat limit) (sortByAmount expenses))
          = take n (sortByAmount expenses)) as ->.
  { unfold n. by destruct (limit <? 0)%Z. }
  exists (drop n (sortByAmount expenses)).
  rewrite <-(take_drop n (sortByAmount expenses)) in Hs.
  split; [by rewrite take_drop|]. split; [by eapply StronglySorted_app_1_l|].
  split.
  - intros x y Hx Hy. by apply (StronglySorted_app_1_elem_of _ _ _ x y Hs).
  - rewrite length_take, Hlen. unfold n. rewrite Hlen.
    destruct (limit <? 0)%Z eqn:Hlim; [apply Z.ltb_lt in Hlim | apply Z.ltb_ge in Hlim]; lia.
Qed.

End analytics.

Section listing.

Implicit Types (w : World) (t : Tables) (key : string) (a : App).





Lemma foldl_NaN (l : list Expense) :
  foldl (λ sum exp, s ← sum; b ← baseAmount exp; Some (s + b)) None l = None.
Proof. by induction l. Qed.

Lemma readPersonal_baseAmount w (rows : list ExpenseRow) (es : list Expense) w' :
  readPersonal rows w = Ok (es, w') →
  length es = length rows ∧ Forall (λ e, baseAmount e = None) es.
Proof.
  revert w es w'. induction rows as [|r rows IH]; intros w es w'.
  { intros [= <- _]. by split. }
  cbn [readPersonal]. destruct (decryptNotes (row_notes_encrypted r) w) as [[notes w1]|]; [|done].
  cbn [mbind result_bind]. destruct (readPersonal rows w1) as [[es' w2]|] eqn:Hrest; [|done].
  cbn [mbind result_bind]. intros [= <- _]. destruct (IH _ _ _ Hrest) as [Hl Hb].
  split; [cbn [length]; by rewrite Hl | by constructor].
Qed.

(** X24: the total that [selectTotalExpenses] computes over a list that
    [fetchExpenses] has loaded is [NaN] as soon as the list has an
    expense: the expenses that [getAllExpenses] builds have no
    [baseAmount], and the selector adds just that field.  Only for the
    empty list it is 0. *)
Theorem total_after_fetch_is_NaN
    (orderBy : list ExpenseRow → list ExpenseRow) a (es : list Expense) w' :
  getAllExpenses orderBy (world a) = Ok (es, w') →
  store_expenses (fetchExpenses orderBy a) = es ∧
  selectTotalExpenses (fetchExpenses orderBy a)
    = match es with [] => Some 0 | _ :: _ => None end.
Proof.
  intros Hget. unfold fetchExpenses. rewrite Hget. split; [done|].
  unfold selectTotalExpenses. cbn [store_expenses].
  unfold getAllExpenses in Hget. destruct (getDatabase (world a)) as [t|]; [|done].
  cbn [mbind result_bind] in Hget.
  destruct (readPersonal_baseAmount _ _ _ _ Hget) as [_ Hb].
  destruct Hb as [|e es He _]; [done|]. cbn [foldl mbind option_bind].
  rewrite He. cbn [mbind option_bind]. apply foldl_NaN.
Qed.

Lemma total_after_fetch_is_NaN_witness :
  store_expenses (fetchExpenses newestFirst appPlain) = [expensePlain] ∧
  selectTotalExpenses (fetchExpenses newestFirst appPlain) = None.
Proof.
  apply (total_after_fetch_is_NaN newestFirst appPlain [expensePlain] (world appPlain)).
  reflexivity.
Defined.

End listing.
